(** * Chicken Hop: a shallow embedding of the simulation core of [game.js]

    The game keeps one global mutable state (the objects [state], [player],
    [world], the entity pools and the spawner records) that [update(dt)]
    rewrites once per frame.  The embedding threads that state explicitly
    as one record [Game]; JavaScript code that reads and writes it becomes
    an action of the state monad [M] over [Game].

    Numbers.  JavaScript numbers are modelled as exact rationals [Q]
    (integers that are only ever counted, such as the corn counter and the
    index of the active heart, as [Z]).  The rounding of IEEE doubles is
    modelled in one place, [randi], where [Math.floor] cuts an integer out
    of a rounded sum and the rounding decides which; there it is the
    parameter [dbl].  Elsewhere rounding, [NaN] and the infinities are
    outside the model.

    Environment.  [Math.random], [Math.pow] and [Math.PI] are not rational
    functions; they are parameters of the development ([random], [pow],
    [PI]).  Successive calls of [Math.random()] read successive entries of
    the sequence [random]; the position in the sequence is part of [Game].
    The size of the canvas and the value of the name field come with every
    event ([Env]).

    Objects.  The entries of [obstacles] and [platforms] are objects that
    [player.ground] may point to; each carries an identity [id], and the
    object [player.ground] refers to is kept in step with the pool it
    lives in (see [Support]).

    Left out.  Drawing, DOM updates, [localStorage] and the [Sfx] sound
    triggers write nothing the simulation reads back and are left out (the
    random numbers their arguments consume are kept), and so are the
    cosmetic [design] and [color] of the chicken.  Two functions of the
    page are modelled on their own, apart from [Game]: [fitCanvas], which
    sizes the canvas, and [setHeartFill], which sets a heart gauge.  The
    one thing [render] writes that is part of [Game], the place of the
    player on the title screen, is left out as well: [resetRun] sets the
    place anew before the simulation reads it.

    Layout.  The long functions [hurt] and [update] are cut into named
    parts, in the order of the source; local constants of [update] that a
    later part reads ([wasOnGround], [prevY], [landed], [hitbox]) are
    passed on as arguments. *)

From stdpp Require Import base list strings.
From Stdlib Require Import QArith Qminmax Qround Qabs Lqa ZArith Lia Ascii.
Import ListNotations.

Local Open Scope Q_scope.

(** ** JavaScript numeric helpers *)

Definition Qleb (x y : Q) : bool := Qle_bool x y.
Definition Qltb (x y : Q) : bool := negb (Qle_bool y x).

Infix "<=?" := Qleb (at level 70, no associativity) : Q_scope.
Infix "<?" := Qltb (at level 70, no associativity) : Q_scope.

(** [const clamp = (v, a, b) => Math.max(a, Math.min(b, v))] *)
Definition clamp (v a b : Q) : Q := Qmax a (Qmin b v).

(** [const lerp = (a, b, t) => a + (b - a) * t] *)
Definition lerp (a b t : Q) : Q := a + (b - a) * t.

(** [Math.floor], [Math.ceil], [Math.round] (half rounds up), [Math.sign]. *)
Definition floorQ (x : Q) : Q := inject_Z (Qfloor x).
Definition ceilQ (x : Q) : Q := inject_Z (Qceiling x).
Definition roundQ (x : Q) : Q := inject_Z (Qfloor (x + 0.5)).
Definition signQ (x : Q) : Q := if 0 <? x then 1 else if x <? 0 then -1 else 0.

(** [aabb(ax, ay, aw, ah, bx, by, bw, bh)] *)
Definition aabb (ax ay aw ah bx by' bw bh : Q) : bool :=
  (ax <? bx + bw) && (bx <? ax + aw) && (ay <? by' + bh) && (by' <? ay + ah).

(** ** Names: [normalizeName]

    A JavaScript string is a sequence of UTF-16 code units. *)

Module JsString.

Definition t := list N.

Local Open Scope N_scope.

(** The class [\s] of a JavaScript regular expression, which is also the
    set of code units [String.prototype.trim] strips. *)
Definition is_space (c : N) : bool :=
  (c =? 9) || (c =? 10) || (c =? 11) || (c =? 12) || (c =? 13) ||
  (c =? 32) || (c =? 160) || (c =? 5760) ||
  ((8192 <=? c) && (c <=? 8202)) ||
  (c =? 8232) || (c =? 8233) || (c =? 8239) || (c =? 8287) ||
  (c =? 12288) || (c =? 65279).

Definition space : N := 32.

(** [s.replace(/\s+/g, ' ')]: every maximal run of white space becomes
    one space.  [in_run] tells that the previous code unit was white
    space, so that the run has already been replaced. *)
Fixpoint replace_ws (in_run : bool) (s : t) : t :=
  match s with
  | [] => []
  | c :: r =>
      if is_space c
      then (if in_run then replace_ws true r else space :: replace_ws true r)
      else c :: replace_ws false r
  end.

Fixpoint trimStart (s : t) : t :=
  match s with
  | [] => []
  | c :: r => if is_space c then trimStart r else s
  end.

Fixpoint trimEnd (s : t) : t :=
  match s with
  | [] => []
  | c :: r =>
      match trimEnd r with
      | [] => if is_space c then [] else [c]
      | r' => c :: r'
      end
  end.

(** [s.trim()] *)
Definition trim (s : t) : t := trimEnd (trimStart s).

(** [s.slice(0, n)] for [0 <= n] *)
Definition slice0 (n : nat) (s : t) : t := take n s.

(** A string literal of the source whose characters are all ASCII. *)
Definition literal (s : string) : t := map N_of_ascii (String.list_ascii_of_string s).

(** The literal ['Nugget']. *)
Definition Nugget : t := literal "Nugget".

End JsString.

(** No two code units next to each other are both white space. *)
Fixpoint no_double_space (s : JsString.t) : Prop :=
  match s with
  | [] => True
  | c1 :: r =>
      match r with
      | [] => True
      | c2 :: _ => JsString.is_space c1 && JsString.is_space c2 = false
      end /\ no_double_space r
  end.

(** The only white space is the space character. *)
Definition only_spaces (s : JsString.t) : Prop :=
  Forall (fun c => JsString.is_space c = true -> c = JsString.space) s.

(** The first code unit, if there is one, is not white space; and the
    same for the last. *)
Definition starts_clean (s : JsString.t) : Prop :=
  forall c, head s = Some c -> JsString.is_space c = false.
Definition ends_clean (s : JsString.t) : Prop :=
  forall c, last s = Some c -> JsString.is_space c = false.

(** The argument of [normalizeName]: [null] and [undefined] are turned
    into the empty string by [v ?? ''], a string is used as it is.  Every
    caller passes a string or [null] (a text field's value, a stored item,
    an entry of the name pool). *)
Inductive NameArg : Type :=
  | Nullish
  | Text (s : JsString.t).

(** [String(v ?? '')] *)
Definition String_of (v : NameArg) : JsString.t :=
  match v with
  | Nullish => []
  | Text s => s
  end.

(** [[
  function normalizeName(v) {
    const s = String(v ?? '').replace(/\s+/g, ' ').trim();
    const cut = s.slice(0, 14);
    return cut.length ? cut : 'Nugget';
  }
]] *)
Definition normalizeName (v : NameArg) : JsString.t :=
  let s := JsString.trim (JsString.replace_ws false (String_of v)) in
  let cut := JsString.slice0 14 s in
  match length cut with
  | O => JsString.Nugget
  | _ => cut
  end.

(** *** Any value as the argument

    [normalizeName] can be called with any JavaScript value.  Of a value
    that is neither [null] nor [undefined] nor a string, [String(v)] makes
    a string (of a number, a boolean, an object with a [toString] that
    works) or throws a [TypeError] (of an object without one, such as
    [Object.create(null)]). *)
Inductive JsValue : Type :=
  | Known (v : NameArg)
  | Other (str : option JsString.t).

(** [String(v ?? '')]; [None] when the conversion throws. *)
Definition String_of_value (v : JsValue) : option JsString.t :=
  match v with
  | Known a => Some (String_of a)
  | Other str => str
  end.

(** [normalizeName(v)] for any value [v]; [None] when the call throws. *)
Definition normalizeName_of_value (v : JsValue) : option JsString.t :=
  match String_of_value v with
  | Some str =>
      let s := JsString.trim (JsString.replace_ws false str) in
      let cut := JsString.slice0 14 s in
      Some (match length cut with
            | O => JsString.Nugget
            | _ => cut
            end)
  | None => None
  end.

(** *** The name in words

    What [normalizeName] is meant to give, said without the operations of
    the code: the words of the string, put together with one space between
    two of them, cut after 14 code units; and the name ['Nugget'] when the
    string has no word. *)

(** The pieces of a string between its white space code units; a piece
    is empty where two of them are neighbours and at an end that is white
    space. *)
Fixpoint pieces (s : JsString.t) : list JsString.t :=
  match s with
  | [] => [[]]
  | c :: r =>
      if JsString.is_space c then [] :: pieces r
      else match pieces r with
           | [] => [[c]]
           | w :: ws => (c :: w) :: ws
           end
  end.

(** The words: the pieces that are not empty. *)
Definition words (s : JsString.t) : list JsString.t :=
  filter (fun w => w <> []) (pieces s).

(** The words with one space between two of them. *)
Fixpoint join_words (ws : list JsString.t) : JsString.t :=
  match ws with
  | [] => []
  | w :: ws' =>
      match ws' with
      | [] => w
      | _ :: _ => w ++ JsString.space :: join_words ws'
      end
  end.

Definition normalizeName_in_words (s : JsString.t) : JsString.t :=
  let name := take 14 (join_words (words s)) in
  if decide (name = []) then JsString.Nugget else name.

(** ** The data model *)

(** [state.mode]: ['title'], ['playing'], ['paused'], ['gameover']. *)
Inductive Mode : Type := Title | Playing | Paused | Gameover.

(** [state.timeMode]: ['slow'], ['normal'], ['fast']. *)
Inductive TimeMode : Type := Slow | Normal | Fast.

(** The [kind] tags of the entity pools. *)
Inductive ObstacleKind : Type := Block | Book | Robot | Plant.
Inductive PlatformKind : Type := Shelf | Step.
Inductive PickupKind : Type := Corn | Big.
Inductive ParticleKind : Type := Feather | Dust | Yolk.

Definition Mode_eqb (a b : Mode) : bool :=
  match a, b with
  | Title, Title | Playing, Playing | Paused, Paused | Gameover, Gameover => true
  | _, _ => false
  end.

(** An entry of [obstacles].  [id] is the identity of the JavaScript object
    (what [===] compares); it is not a property in the source. *)
Module Obstacle.

Record obstacle : Type := mk {
  id : nat;
  x : Q;
  y : Q;
  w : Q;
  h : Q;
  kind : ObstacleKind;
  color : string;
  bob : Q
}.

Definition set_x (v : Q) (e : obstacle) : obstacle :=
  mk (id e) v (y e) (w e) (h e) (kind e) (color e) (bob e).

End Obstacle.

(** An entry of [platforms], with the identity of the object as for obstacles. *)
Module Platform.

Record platform : Type := mk {
  id : nat;
  x : Q;
  y : Q;
  w : Q;
  h : Q;
  kind : PlatformKind;
  bob : Q
}.

Definition set_x (v : Q) (e : platform) : platform :=
  mk (id e) v (y e) (w e) (h e) (kind e) (bob e).

End Platform.

(** An entry of [pickups]. *)
Module Pickup.

Record pickup : Type := mk {
  x : Q;
  y : Q;
  r : Q;
  t : Q;
  taken : bool;
  kind : PickupKind;
  value : Z
}.

Definition set_x (v : Q) (e : pickup) : pickup :=
  mk v (y e) (r e) (t e) (taken e) (kind e) (value e).
Definition set_t (v : Q) (e : pickup) : pickup :=
  mk (x e) (y e) (r e) v (taken e) (kind e) (value e).
Definition set_taken (v : bool) (e : pickup) : pickup :=
  mk (x e) (y e) (r e) (t e) v (kind e) (value e).

End Pickup.

(** An entry of [eggs]. *)
Module Egg.

Record egg : Type := mk {
  x : Q;
  y : Q;
  r : Q;
  t : Q;
  smashed : bool;
  smashT : Q
}.

Definition set_x (v : Q) (e : egg) : egg :=
  mk v (y e) (r e) (t e) (smashed e) (smashT e).
Definition set_t (v : Q) (e : egg) : egg :=
  mk (x e) (y e) (r e) v (smashed e) (smashT e).
Definition set_smashed (v : bool) (e : egg) : egg :=
  mk (x e) (y e) (r e) (t e) v (smashT e).
Definition set_smashT (v : Q) (e : egg) : egg :=
  mk (x e) (y e) (r e) (t e) (smashed e) v.

End Egg.

(** An entry of [particles]; only feathers have [rot] and [vr]. *)
Module Particle.

Record particle : Type := mk {
  x : Q;
  y : Q;
  vx : Q;
  vy : Q;
  life : Q;
  t : Q;
  kind : ParticleKind;
  rot : option Q;
  vr : option Q
}.

Definition set_x (v : Q) (e : particle) : particle :=
  mk v (y e) (vx e) (vy e) (life e) (t e) (kind e) (rot e) (vr e).
Definition set_y (v : Q) (e : particle) : particle :=
  mk (x e) v (vx e) (vy e) (life e) (t e) (kind e) (rot e) (vr e).
Definition set_vy (v : Q) (e : particle) : particle :=
  mk (x e) (y e) (vx e) v (life e) (t e) (kind e) (rot e) (vr e).
Definition set_t (v : Q) (e : particle) : particle :=
  mk (x e) (y e) (vx e) (vy e) (life e) v (kind e) (rot e) (vr e).
Definition set_rot (v : option Q) (e : particle) : particle :=
  mk (x e) (y e) (vx e) (vy e) (life e) (t e) (kind e) v (vr e).

End Particle.
(** [player.ground] is [null] or a reference to the platform or obstacle
    the player stands on.  The reference aliases an entry of the pool: the
    scroll loops of [update] move the object it points to for as long as
    that object is in its pool (see [scroll_support]). *)
Inductive Support : Type :=
  | OnPlatform (p : Platform.platform)
  | OnObstacle (o : Obstacle.obstacle).

Definition Support_x (s : Support) : Q :=
  match s with
  | OnPlatform p => Platform.x p
  | OnObstacle o => Obstacle.x o
  end.

Definition Support_y (s : Support) : Q :=
  match s with
  | OnPlatform p => Platform.y p
  | OnObstacle o => Obstacle.y o
  end.

Definition Support_w (s : Support) : Q :=
  match s with
  | OnPlatform p => Platform.w p
  | OnObstacle o => Obstacle.w o
  end.

(** [player.ground === o] for an entry [o] of [obstacles]. *)
Definition ground_is_obstacle (gr : option Support) (o : Obstacle.obstacle) : bool :=
  match gr with
  | Some (OnObstacle o') => Nat.eqb (Obstacle.id o') (Obstacle.id o)
  | _ => false
  end.

(** The object [state] (its cosmetic [design] and [color] tags are left out). *)
Module St.

Record state : Type := mk {
  mode : Mode;
  t : Q;
  dt : Q;
  timeScale : Q;
  timeMode : TimeMode;
  speed : Q;
  difficulty : Q;
  score : Q;
  best : Q;
  corn : Z;
  heartsMax : Z;
  heartIndex : Z;
  hearts : list Q;
  heartsSmooth : list Q;
  name : JsString.t;
  flyFuelMax : Q;
  flyFuel : Q;
  flyRefuelDelay : Q;
  flyRefuelCd : Q;
  shake : Q;
  hintBlink : Q
}.

Definition set_mode (v : Mode) (e : state) : state :=
  mk v (t e) (dt e) (timeScale e) (timeMode e) (speed e) (difficulty e) (score
    e) (best e) (corn e) (heartsMax e) (heartIndex e) (hearts e) (heartsSmooth
    e) (name e) (flyFuelMax e) (flyFuel e) (flyRefuelDelay e) (flyRefuelCd e)
    (shake e) (hintBlink e).
Definition set_t (v : Q) (e : state) : state :=
  mk (mode e) v (dt e) (timeScale e) (timeMode e) (speed e) (difficulty e)
    (score e) (best e) (corn e) (heartsMax e) (heartIndex e) (hearts e)
    (heartsSmooth e) (name e) (flyFuelMax e) (flyFuel e) (flyRefuelDelay e)
    (flyRefuelCd e) (shake e) (hintBlink e).
Definition set_dt (v : Q) (e : state) : state :=
  mk (mode e) (t e) v (timeScale e) (timeMode e) (speed e) (difficulty e)
    (score e) (best e) (corn e) (heartsMax e) (heartIndex e) (hearts e)
    (heartsSmooth e) (name e) (flyFuelMax e) (flyFuel e) (flyRefuelDelay e)
    (flyRefuelCd e) (shake e) (hintBlink e).
Definition set_timeScale (v : Q) (e : state) : state :=
  mk (mode e) (t e) (dt e) v (timeMode e) (speed e) (difficulty e) (score e)
    (best e) (corn e) (heartsMax e) (heartIndex e) (hearts e) (heartsSmooth e)
    (name e) (flyFuelMax e) (flyFuel e) (flyRefuelDelay e) (flyRefuelCd e)
    (shake e) (hintBlink e).
Definition set_timeMode (v : TimeMode) (e : state) : state :=
  mk (mode e) (t e) (dt e) (timeScale e) v (speed e) (difficulty e) (score e)
    (best e) (corn e) (heartsMax e) (heartIndex e) (hearts e) (heartsSmooth e)
    (name e) (flyFuelMax e) (flyFuel e) (flyRefuelDelay e) (flyRefuelCd e)
    (shake e) (hintBlink e).
Definition set_speed (v : Q) (e : state) : state :=
  mk (mode e) (t e) (dt e) (timeScale e) (timeMode e) v (difficulty e) (score
    e) (best e) (corn e) (heartsMax e) (heartIndex e) (hearts e) (heartsSmooth
    e) (name e) (flyFuelMax e) (flyFuel e) (flyRefuelDelay e) (flyRefuelCd e)
    (shake e) (hintBlink e).
Definition set_difficulty (v : Q) (e : state) : state :=
  mk (mode e) (t e) (dt e) (timeScale e) (timeMode e) (speed e) v (score e)
    (best e) (corn e) (heartsMax e) (heartIndex e) (hearts e) (heartsSmooth e)
    (name e) (flyFuelMax e) (flyFuel e) (flyRefuelDelay e) (flyRefuelCd e)
    (shake e) (hintBlink e).
Definition set_score (v : Q) (e : state) : state :=
  mk (mode e) (t e) (dt e) (timeScale e) (timeMode e) (speed e) (difficulty e)
    v (best e) (corn e) (heartsMax e) (heartIndex e) (hearts e) (heartsSmooth
    e) (name e) (flyFuelMax e) (flyFuel e) (flyRefuelDelay e) (flyRefuelCd e)
    (shake e) (hintBlink e).
Definition set_best (v : Q) (e : state) : state :=
  mk (mode e) (t e) (dt e) (timeScale e) (timeMode e) (speed e) (difficulty e)
    (score e) v (corn e) (heartsMax e) (heartIndex e) (hearts e) (heartsSmooth
    e) (name e) (flyFuelMax e) (flyFuel e) (flyRefuelDelay e) (flyRefuelCd e)
    (shake e) (hintBlink e).
Definition set_corn (v : Z) (e : state) : state :=
  mk (mode e) (t e) (dt e) (timeScale e) (timeMode e) (speed e) (difficulty e)
    (score e) (best e) v (heartsMax e) (heartIndex e) (hearts e) (heartsSmooth
    e) (name e) (flyFuelMax e) (flyFuel e) (flyRefuelDelay e) (flyRefuelCd e)
    (shake e) (hintBlink e).
Definition set_heartIndex (v : Z) (e : state) : state :=
  mk (mode e) (t e) (dt e) (timeScale e) (timeMode e) (speed e) (difficulty e)
    (score e) (best e) (corn e) (heartsMax e) v (hearts e) (heartsSmooth e)
    (name e) (flyFuelMax e) (flyFuel e) (flyRefuelDelay e) (flyRefuelCd e)
    (shake e) (hintBlink e).
Definition set_hearts (v : list Q) (e : state) : state :=
  mk (mode e) (t e) (dt e) (timeScale e) (timeMode e) (speed e) (difficulty e)
    (score e) (best e) (corn e) (heartsMax e) (heartIndex e) v (heartsSmooth
    e) (name e) (flyFuelMax e) (flyFuel e) (flyRefuelDelay e) (flyRefuelCd e)
    (shake e) (hintBlink e).
Definition set_heartsSmooth (v : list Q) (e : state) : state :=
  mk (mode e) (t e) (dt e) (timeScale e) (timeMode e) (speed e) (difficulty e)
    (score e) (best e) (corn e) (heartsMax e) (heartIndex e) (hearts e) v
    (name e) (flyFuelMax e) (flyFuel e) (flyRefuelDelay e) (flyRefuelCd e)
    (shake e) (hintBlink e).
Definition set_name (v : JsString.t) (e : state) : state :=
  mk (mode e) (t e) (dt e) (timeScale e) (timeMode e) (speed e) (difficulty e)
    (score e) (best e) (corn e) (heartsMax e) (heartIndex e) (hearts e)
    (heartsSmooth e) v (flyFuelMax e) (flyFuel e) (flyRefuelDelay e)
    (flyRefuelCd e) (shake e) (hintBlink e).
Definition set_flyFuel (v : Q) (e : state) : state :=
  mk (mode e) (t e) (dt e) (timeScale e) (timeMode e) (speed e) (difficulty e)
    (score e) (best e) (corn e) (heartsMax e) (heartIndex e) (hearts e)
    (heartsSmooth e) (name e) (flyFuelMax e) v (flyRefuelDelay e) (flyRefuelCd
    e) (shake e) (hintBlink e).
Definition set_flyRefuelCd (v : Q) (e : state) : state :=
  mk (mode e) (t e) (dt e) (timeScale e) (timeMode e) (speed e) (difficulty e)
    (score e) (best e) (corn e) (heartsMax e) (heartIndex e) (hearts e)
    (heartsSmooth e) (name e) (flyFuelMax e) (flyFuel e) (flyRefuelDelay e) v
    (shake e) (hintBlink e).
Definition set_shake (v : Q) (e : state) : state :=
  mk (mode e) (t e) (dt e) (timeScale e) (timeMode e) (speed e) (difficulty e)
    (score e) (best e) (corn e) (heartsMax e) (heartIndex e) (hearts e)
    (heartsSmooth e) (name e) (flyFuelMax e) (flyFuel e) (flyRefuelDelay e)
    (flyRefuelCd e) v (hintBlink e).
Definition set_hintBlink (v : Q) (e : state) : state :=
  mk (mode e) (t e) (dt e) (timeScale e) (timeMode e) (speed e) (difficulty e)
    (score e) (best e) (corn e) (heartsMax e) (heartIndex e) (hearts e)
    (heartsSmooth e) (name e) (flyFuelMax e) (flyFuel e) (flyRefuelDelay e)
    (flyRefuelCd e) (shake e) v.

End St.

(** The object [player]. *)
Module Player.

Record player : Type := mk {
  x : Q;
  y : Q;
  vx : Q;
  vy : Q;
  w : Q;
  h : Q;
  onGround : bool;
  jumpBuffered : Q;
  coyote : Q;
  anim : Q;
  invuln : Q;
  ground : option Support;
  drop : Q;
  cluckCd : Q;
  flyHold : Q
}.

Definition set_x (v : Q) (e : player) : player :=
  mk v (y e) (vx e) (vy e) (w e) (h e) (onGround e) (jumpBuffered e) (coyote
    e) (anim e) (invuln e) (ground e) (drop e) (cluckCd e) (flyHold e).
Definition set_y (v : Q) (e : player) : player :=
  mk (x e) v (vx e) (vy e) (w e) (h e) (onGround e) (jumpBuffered e) (coyote
    e) (anim e) (invuln e) (ground e) (drop e) (cluckCd e) (flyHold e).
Definition set_vx (v : Q) (e : player) : player :=
  mk (x e) (y e) v (vy e) (w e) (h e) (onGround e) (jumpBuffered e) (coyote e)
    (anim e) (invuln e) (ground e) (drop e) (cluckCd e) (flyHold e).
Definition set_vy (v : Q) (e : player) : player :=
  mk (x e) (y e) (vx e) v (w e) (h e) (onGround e) (jumpBuffered e) (coyote e)
    (anim e) (invuln e) (ground e) (drop e) (cluckCd e) (flyHold e).
Definition set_onGround (v : bool) (e : player) : player :=
  mk (x e) (y e) (vx e) (vy e) (w e) (h e) v (jumpBuffered e) (coyote e) (anim
    e) (invuln e) (ground e) (drop e) (cluckCd e) (flyHold e).
Definition set_jumpBuffered (v : Q) (e : player) : player :=
  mk (x e) (y e) (vx e) (vy e) (w e) (h e) (onGround e) v (coyote e) (anim e)
    (invuln e) (ground e) (drop e) (cluckCd e) (flyHold e).
Definition set_coyote (v : Q) (e : player) : player :=
  mk (x e) (y e) (vx e) (vy e) (w e) (h e) (onGround e) (jumpBuffered e) v
    (anim e) (invuln e) (ground e) (drop e) (cluckCd e) (flyHold e).
Definition set_anim (v : Q) (e : player) : player :=
  mk (x e) (y e) (vx e) (vy e) (w e) (h e) (onGround e) (jumpBuffered e)
    (coyote e) v (invuln e) (ground e) (drop e) (cluckCd e) (flyHold e).
Definition set_invuln (v : Q) (e : player) : player :=
  mk (x e) (y e) (vx e) (vy e) (w e) (h e) (onGround e) (jumpBuffered e)
    (coyote e) (anim e) v (ground e) (drop e) (cluckCd e) (flyHold e).
Definition set_ground (v : option Support) (e : player) : player :=
  mk (x e) (y e) (vx e) (vy e) (w e) (h e) (onGround e) (jumpBuffered e)
    (coyote e) (anim e) (invuln e) v (drop e) (cluckCd e) (flyHold e).
Definition set_drop (v : Q) (e : player) : player :=
  mk (x e) (y e) (vx e) (vy e) (w e) (h e) (onGround e) (jumpBuffered e)
    (coyote e) (anim e) (invuln e) (ground e) v (cluckCd e) (flyHold e).
Definition set_cluckCd (v : Q) (e : player) : player :=
  mk (x e) (y e) (vx e) (vy e) (w e) (h e) (onGround e) (jumpBuffered e)
    (coyote e) (anim e) (invuln e) (ground e) (drop e) v (flyHold e).
Definition set_flyHold (v : Q) (e : player) : player :=
  mk (x e) (y e) (vx e) (vy e) (w e) (h e) (onGround e) (jumpBuffered e)
    (coyote e) (anim e) (invuln e) (ground e) (drop e) (cluckCd e) v.

End Player.

(** The object [world]. *)
Module World.

Record world : Type := mk {
  floorY : Q;
  leftBound : Q;
  rightBound : Q;
  gravity : Q;
  jumpVel : Q;
  scroll : Q;
  roomHue : Q;
  popHue : Q;
  popHue2 : Q;
  plateauLift : Q
}.

Definition set_floorY (v : Q) (e : world) : world :=
  mk v (leftBound e) (rightBound e) (gravity e) (jumpVel e) (scroll e)
    (roomHue e) (popHue e) (popHue2 e) (plateauLift e).
Definition set_leftBound (v : Q) (e : world) : world :=
  mk (floorY e) v (rightBound e) (gravity e) (jumpVel e) (scroll e) (roomHue
    e) (popHue e) (popHue2 e) (plateauLift e).
Definition set_rightBound (v : Q) (e : world) : world :=
  mk (floorY e) (leftBound e) v (gravity e) (jumpVel e) (scroll e) (roomHue e)
    (popHue e) (popHue2 e) (plateauLift e).
Definition set_scroll (v : Q) (e : world) : world :=
  mk (floorY e) (leftBound e) (rightBound e) (gravity e) (jumpVel e) v
    (roomHue e) (popHue e) (popHue2 e) (plateauLift e).
Definition set_roomHue (v : Q) (e : world) : world :=
  mk (floorY e) (leftBound e) (rightBound e) (gravity e) (jumpVel e) (scroll
    e) v (popHue e) (popHue2 e) (plateauLift e).
Definition set_popHue (v : Q) (e : world) : world :=
  mk (floorY e) (leftBound e) (rightBound e) (gravity e) (jumpVel e) (scroll
    e) (roomHue e) v (popHue2 e) (plateauLift e).
Definition set_popHue2 (v : Q) (e : world) : world :=
  mk (floorY e) (leftBound e) (rightBound e) (gravity e) (jumpVel e) (scroll
    e) (roomHue e) (popHue e) v (plateauLift e).

End World.

(** The object [spawner] of the obstacle generator. *)
Module Spawner.

Record spawner : Type := mk {
  cd : Q;
  runChunksLeft : Q;
  needLanding : bool
}.

Definition set_cd (v : Q) (e : spawner) : spawner :=
  mk v (runChunksLeft e) (needLanding e).
Definition set_runChunksLeft (v : Q) (e : spawner) : spawner :=
  mk (cd e) v (needLanding e).
Definition set_needLanding (v : bool) (e : spawner) : spawner :=
  mk (cd e) (runChunksLeft e) v.

End Spawner.

(** The object [terrain] of the platform generator. *)
Module Terrain.

Record terrain : Type := mk {
  level : Q;
  runLeft : Q
}.

Definition set_level (v : Q) (e : terrain) : terrain :=
  mk v (runLeft e).
Definition set_runLeft (v : Q) (e : terrain) : terrain :=
  mk (level e) v.

End Terrain.
(** The whole mutable state of the script: the global objects and arrays,
    the set [keys] of the keys held down, the number of calls made to
    [Math.random] so far, and the next fresh object identity. *)
Record Game : Type := mkGame {
  state : St.state;
  player : Player.player;
  world : World.world;
  obstacles : list Obstacle.obstacle;
  platforms : list Platform.platform;
  pickups : list Pickup.pickup;
  eggs : list Egg.egg;
  particles : list Particle.particle;
  spawner : Spawner.spawner;
  platformSpawner_cd : Q;
  eggSpawner_cd : Q;
  terrain : Terrain.terrain;
  keys : list string;
  rng : nat;
  nextId : nat
}.

Definition set_state (v : St.state) (g : Game) : Game :=
  mkGame v (player g) (world g) (obstacles g) (platforms g) (pickups g) (eggs
    g) (particles g) (spawner g) (platformSpawner_cd g) (eggSpawner_cd g)
    (terrain g) (keys g) (rng g) (nextId g).
Definition set_player (v : Player.player) (g : Game) : Game :=
  mkGame (state g) v (world g) (obstacles g) (platforms g) (pickups g) (eggs
    g) (particles g) (spawner g) (platformSpawner_cd g) (eggSpawner_cd g)
    (terrain g) (keys g) (rng g) (nextId g).
Definition set_world (v : World.world) (g : Game) : Game :=
  mkGame (state g) (player g) v (obstacles g) (platforms g) (pickups g) (eggs
    g) (particles g) (spawner g) (platformSpawner_cd g) (eggSpawner_cd g)
    (terrain g) (keys g) (rng g) (nextId g).
Definition set_obstacles (v : list Obstacle.obstacle) (g : Game) : Game :=
  mkGame (state g) (player g) (world g) v (platforms g) (pickups g) (eggs g)
    (particles g) (spawner g) (platformSpawner_cd g) (eggSpawner_cd g)
    (terrain g) (keys g) (rng g) (nextId g).
Definition set_platforms (v : list Platform.platform) (g : Game) : Game :=
  mkGame (state g) (player g) (world g) (obstacles g) v (pickups g) (eggs g)
    (particles g) (spawner g) (platformSpawner_cd g) (eggSpawner_cd g)
    (terrain g) (keys g) (rng g) (nextId g).
Definition set_pickups (v : list Pickup.pickup) (g : Game) : Game :=
  mkGame (state g) (player g) (world g) (obstacles g) (platforms g) v (eggs g)
    (particles g) (spawner g) (platformSpawner_cd g) (eggSpawner_cd g)
    (terrain g) (keys g) (rng g) (nextId g).
Definition set_eggs (v : list Egg.egg) (g : Game) : Game :=
  mkGame (state g) (player g) (world g) (obstacles g) (platforms g) (pickups
    g) v (particles g) (spawner g) (platformSpawner_cd g) (eggSpawner_cd g)
    (terrain g) (keys g) (rng g) (nextId g).
Definition set_particles (v : list Particle.particle) (g : Game) : Game :=
  mkGame (state g) (player g) (world g) (obstacles g) (platforms g) (pickups
    g) (eggs g) v (spawner g) (platformSpawner_cd g) (eggSpawner_cd g)
    (terrain g) (keys g) (rng g) (nextId g).
Definition set_spawner (v : Spawner.spawner) (g : Game) : Game :=
  mkGame (state g) (player g) (world g) (obstacles g) (platforms g) (pickups
    g) (eggs g) (particles g) v (platformSpawner_cd g) (eggSpawner_cd g)
    (terrain g) (keys g) (rng g) (nextId g).
Definition set_platformSpawner_cd (v : Q) (g : Game) : Game :=
  mkGame (state g) (player g) (world g) (obstacles g) (platforms g) (pickups
    g) (eggs g) (particles g) (spawner g) v (eggSpawner_cd g) (terrain g)
    (keys g) (rng g) (nextId g).
Definition set_eggSpawner_cd (v : Q) (g : Game) : Game :=
  mkGame (state g) (player g) (world g) (obstacles g) (platforms g) (pickups
    g) (eggs g) (particles g) (spawner g) (platformSpawner_cd g) v (terrain g)
    (keys g) (rng g) (nextId g).
Definition set_terrain (v : Terrain.terrain) (g : Game) : Game :=
  mkGame (state g) (player g) (world g) (obstacles g) (platforms g) (pickups
    g) (eggs g) (particles g) (spawner g) (platformSpawner_cd g)
    (eggSpawner_cd g) v (keys g) (rng g) (nextId g).
Definition set_keys (v : list string) (g : Game) : Game :=
  mkGame (state g) (player g) (world g) (obstacles g) (platforms g) (pickups
    g) (eggs g) (particles g) (spawner g) (platformSpawner_cd g)
    (eggSpawner_cd g) (terrain g) v (rng g) (nextId g).
Definition set_rng (v : nat) (g : Game) : Game :=
  mkGame (state g) (player g) (world g) (obstacles g) (platforms g) (pickups
    g) (eggs g) (particles g) (spawner g) (platformSpawner_cd g)
    (eggSpawner_cd g) (terrain g) (keys g) v (nextId g).
Definition set_nextId (v : nat) (g : Game) : Game :=
  mkGame (state g) (player g) (world g) (obstacles g) (platforms g) (pickups
    g) (eggs g) (particles g) (spawner g) (platformSpawner_cd g)
    (eggSpawner_cd g) (terrain g) (keys g) (rng g) v.

(** ** The simulation *)

(** The size of the canvas, read from the DOM by [fitCanvas()] at the start
    of [update] and of [resetRun]; and the value of the name field, if the
    page has one. *)
Record Env : Type := mkEnv {
  canvas_width : Q;
  canvas_height : Q;
  nameInput : option JsString.t
}.

(** Code that reads and writes the global state: a state monad over [Game]. *)
Definition M (A : Type) : Type := Game -> A * Game.

Definition ret {A : Type} (a : A) : M A := fun g => (a, g).

Definition bind {A B : Type} (m : M A) (k : A -> M B) : M B :=
  fun g => let (a, g') := m g in k a g'.

Notation "x <- m ;; k" := (bind m (fun x => k))
  (at level 100, m at next level, right associativity).
Notation "m ;; k" := (bind m (fun _ => k))
  (at level 100, right associativity).

Definition gets {A : Type} (f : Game -> A) : M A := fun g => (f g, g).
Definition modify (f : Game -> Game) : M unit := fun g => (tt, f g).
Definition exec {A : Type} (m : M A) (g : Game) : Game := snd (m g).

Definition upd_state (f : St.state -> St.state) : M unit :=
  modify (fun g => set_state (f (state g)) g).
Definition upd_player (f : Player.player -> Player.player) : M unit :=
  modify (fun g => set_player (f (player g)) g).
Definition upd_world (f : World.world -> World.world) : M unit :=
  modify (fun g => set_world (f (world g)) g).
Definition upd_spawner (f : Spawner.spawner -> Spawner.spawner) : M unit :=
  modify (fun g => set_spawner (f (spawner g)) g).
Definition upd_terrain (f : Terrain.terrain -> Terrain.terrain) : M unit :=
  modify (fun g => set_terrain (f (terrain g)) g).

(** Assignments to the fields of one object, in the order written. *)
Definition and_then {A : Type} (f g : A -> A) : A -> A := fun a => g (f a).
Infix ">>" := and_then (at level 50, left associativity).

(** [if (c) body] *)
Definition when (c : bool) (body : M unit) : M unit :=
  if c then body else ret tt.

(** [for (let i = 0; i < n; i++) body] for a body that does not read [i]. *)
Fixpoint repeatM (n : nat) (body : M unit) : M unit :=
  match n with
  | O => ret tt
  | S n' => body ;; repeatM n' body
  end.

(** Number of passes of [for (let i = 0; i < n; i++)]. *)
Definition passes (n : Q) : nat := Z.to_nat (Qceiling n).

(** Reading an array of numbers at an index.  Every index the code uses
    is in range in every state the game reaches, where JavaScript would
    give [undefined] the model gives 0. *)
Definition at_index (l : list Q) (i : Z) : Q := default 0 (l !! Z.to_nat i).

(** Writing an array at an index that is in range. *)
Definition store_index (l : list Q) (i : Z) (v : Q) : list Q := <[Z.to_nat i := v]> l.

(** [keys.has(k)] *)
Definition has (ks : list string) (k : string) : bool := existsb (String.eqb k) ks.

(** [a % m] on numbers: the remainder has the sign of the dividend. *)
Definition remQ (a m : Q) : Q :=
  let q := a / m in
  a - m * inject_Z (Z.quot (Qnum q) (Zpos (Qden q))).

(** [x || 1] on a number. *)
Definition or1 (v : Z) : Z := if Z.eqb v 0 then 1%Z else v.

Section Simulation.

Set Default Proof Using "Type".

(** [random n] is the result of the [n]-th call of [Math.random()],
    [pow] is [Math.pow] and [PI] is [Math.PI].  [dbl x] is the double
    nearest to [x]: an arithmetic operation on doubles gives [dbl] of its
    exact result. *)
Variable random : nat -> Q.
Variable pow : Q -> Q -> Q.
Variable PI : Q.
Variable dbl : Q -> Q.

Definition Math_random : M Q :=
  fun g => (random (rng g), set_rng (S (rng g)) g).

(** [const rand = (a, b) => a + Math.random() * (b - a)] *)
Definition rand (a b : Q) : M Q :=
  u <- Math_random ;; ret (a + u * (b - a)).

(** [rand] with the rounding of each of its three operations: what
    [Math.floor] is given in [randi]. *)
Definition rand_dbl (a b : Q) : M Q :=
  u <- Math_random ;; ret (dbl (a + dbl (u * dbl (b - a)))).

(** [const randi = (a, b) => Math.floor(rand(a, b + 1))]

    Here the rounding decides the result: with [Math.random()] close to 1
    the sum [a + u * (b + 1 - a)] can be rounded up to [b + 1], and then
    [randi] gives [b + 1]. *)
Definition randi (a b : Q) : M Q :=
  v <- rand_dbl a (dbl (b + 1)) ;; ret (floorQ v).

(** What is known of the rounding: it keeps the order of the numbers. *)
Definition monotone_rounding : Prop := forall x y, x <= y -> dbl x <= dbl y.

(** [x] is a double. *)
Definition is_double (x : Q) : Prop := dbl x == x.

(** The arguments of [randi(a, b)] and the numbers it computes from them
    without [Math.random()] are doubles, as all integers below [2^53]
    are. *)
Definition doubles_for (a b : Q) : Prop :=
  is_double 0 /\ is_double a /\ is_double (b + 1) /\ is_double (b + 1 - a).

(** A new object gets an identity of its own. *)
Definition fresh_id : M nat :=
  fun g => (nextId g, set_nextId (S (nextId g)) g).

(** *** Spawning

    The [x] argument of the spawn functions is given at every call, so the
    default [x ?? (canvas.width + rand(..))] is never evaluated. *)

Record ObstacleType : Type := mkType {
  ty_kind : ObstacleKind;
  ty_w : Q;
  ty_h : Q;
  ty_color : string
}.

Definition obstacleTypes : list ObstacleType :=
  [ mkType Block 46 34 "#ff6a3d";
    mkType Book 54 22 "#2ee59d";
    mkType Robot 52 40 "#ffd166";
    mkType Plant 42 44 "#7ef08a" ].

Definition spawnPlatform (w y x : Q) (kind : PlatformKind) : M unit :=
  let h := 18 in
  i <- fresh_id ;;
  modify (fun g => set_platforms (platforms g ++ [Platform.mk i x y w h kind 0]) g).

Fixpoint spawnStairs_loop (n : nat) (i : Q) (liftFrom dir stepRise stepW startX : Q)
  : M unit :=
  match n with
  | O => ret tt
  | S n' =>
      wd <- gets world ;;
      let lift := liftFrom + dir * stepRise * (i + 1) in
      let y := World.floorY wd - roundQ lift in
      spawnPlatform stepW y (startX + i * stepW) Step ;;
      spawnStairs_loop n' (i + 1) liftFrom dir stepRise stepW startX
  end.

Definition spawnStairs (levelFrom levelTo startX : Q) : M Q :=
  let stepRise := 16 in
  let stepW := 78 in
  wd <- gets world ;;
  let liftFrom := if Qeq_bool levelFrom 1 then World.plateauLift wd else 0 in
  let liftTo := if Qeq_bool levelTo 1 then World.plateauLift wd else 0 in
  let delta := liftTo - liftFrom in
  if Qeq_bool delta 0 then ret startX
  else
    let steps := clamp (ceilQ (Qabs delta / stepRise)) 3 7 in
    let dir := signQ delta in
    spawnStairs_loop (passes steps) 0 liftFrom dir stepRise stepW startX ;;
    ret (startX + steps * stepW).

Definition spawnObstacle (w h : Q) (kind : ObstacleKind) (color : string) (x : Q)
  : M unit :=
  wd <- gets world ;;
  bob <- rand 0 (PI * 2) ;;
  i <- fresh_id ;;
  modify (fun g =>
    set_obstacles
      (obstacles g ++ [Obstacle.mk i x (World.floorY wd - h) w h kind color bob]) g).

Definition spawnCorn (x : Q) : M unit :=
  size <- randi 14 18 ;;
  lift <- randi 64 118 ;;
  wd <- gets world ;;
  modify (fun g =>
    set_pickups
      (pickups g ++ [Pickup.mk x (World.floorY wd - lift) size 0 false Corn 1]) g).

Definition spawnBigCorn (x : Q) : M unit :=
  size <- randi 20 26 ;;
  lift <- randi 170 250 ;;
  wd <- gets world ;;
  modify (fun g =>
    set_pickups
      (pickups g ++ [Pickup.mk x (World.floorY wd - lift) size 0 false Big 3]) g).

Definition spawnEgg (x : Q) : M unit :=
  r <- randi 12 15 ;;
  wd <- gets world ;;
  modify (fun g =>
    set_eggs (eggs g ++ [Egg.mk x (World.floorY wd - r) r 0 false 0]) g).

Definition push_particle (p : Particle.particle) : M unit :=
  modify (fun g => set_particles (particles g ++ [p]) g).

Definition featherBurst (x y : Q) : M unit :=
  n <- randi 7 11 ;;
  repeatM (passes n)
    (vx <- rand (-240) 240 ;;
     vy <- rand (-520) (-120) ;;
     life <- rand 0.35 0.65 ;;
     rot <- rand 0 (PI * 2) ;;
     vr <- rand (-10) 10 ;;
     push_particle (Particle.mk x y vx vy life 0 Feather (Some rot) (Some vr))).

Definition dustPuff (x y : Q) : M unit :=
  n <- randi 6 10 ;;
  repeatM (passes n)
    (dx <- rand (-10) 10 ;;
     dy <- rand (-6) 6 ;;
     vx <- rand (-140) 140 ;;
     vy <- rand (-220) (-40) ;;
     life <- rand 0.25 0.45 ;;
     push_particle (Particle.mk (x + dx) (y + dy) vx vy life 0 Dust None None)).

Definition yolkBurst (x y : Q) : M unit :=
  n <- randi 10 16 ;;
  repeatM (passes n)
    (vx <- rand (-260) 260 ;;
     vy <- rand (-520) (-160) ;;
     life <- rand 0.25 0.45 ;;
     push_particle (Particle.mk x y vx vy life 0 Yolk None None)).

(** *** Starting, resetting and ending a run *)

(** [setTimeMode(mode)], called with one of the three mode names. *)
Definition setTimeMode (m : TimeMode) : M unit :=
  match m with
  | Slow => upd_state (St.set_timeScale 0.55 >> St.set_timeMode Slow)
  | Fast => upd_state (St.set_timeScale 1.6 >> St.set_timeMode Fast)
  | Normal => upd_state (St.set_timeScale 1.0 >> St.set_timeMode Normal)
  end.

(** [setName(next)] *)
Definition setName (next : NameArg) : M unit :=
  upd_state (St.set_name (normalizeName next)).

Definition resetRun (env : Env) : M unit :=
  let W := canvas_width env in
  let H := canvas_height env in
  upd_world (World.set_floorY (floorQ (H * 0.78))) ;;
  upd_world (World.set_leftBound (floorQ (W * 0.08))) ;;
  upd_world (World.set_rightBound (floorQ (W * 0.62))) ;;
  wd <- gets world ;;
  upd_player (Player.set_x (World.leftBound wd + floorQ (W * 0.16))) ;;
  upd_player (fun p => Player.set_y (World.floorY wd - Player.h p) p) ;;
  modify (set_obstacles []) ;;
  modify (set_platforms []) ;;
  modify (set_pickups []) ;;
  modify (set_eggs []) ;;
  modify (set_particles []) ;;
  upd_spawner (Spawner.set_cd 0.35 >> Spawner.set_runChunksLeft 0
               >> Spawner.set_needLanding false) ;;
  modify (set_platformSpawner_cd 1.4) ;;
  modify (set_eggSpawner_cd 1.2) ;;
  upd_terrain (Terrain.set_level 0 >> Terrain.set_runLeft 0) ;;
  upd_state (St.set_t 0 >> St.set_dt 0 >> St.set_speed 360 >> St.set_difficulty 0
             >> St.set_score 0 >> St.set_corn 0%Z >> St.set_heartIndex 0%Z) ;;
  upd_state (fun s => St.set_hearts (store_index (St.hearts s) 0 100) s) ;;
  upd_state (fun s => St.set_hearts (store_index (St.hearts s) 1 100) s) ;;
  upd_state (fun s => St.set_heartsSmooth (store_index (St.heartsSmooth s) 0 100) s) ;;
  upd_state (fun s => St.set_heartsSmooth (store_index (St.heartsSmooth s) 1 100) s) ;;
  upd_state (St.set_shake 0 >> St.set_hintBlink 0) ;;
  upd_state (fun s => St.set_flyFuel (St.flyFuelMax s) s) ;;
  upd_state (St.set_flyRefuelCd 0) ;;
  s <- gets state ;;
  setTimeMode (St.timeMode s) ;;
  upd_player (Player.set_vx 0 >> Player.set_vy 0 >> Player.set_onGround true
              >> Player.set_jumpBuffered 0 >> Player.set_coyote 0
              >> Player.set_anim 0 >> Player.set_invuln 0
              >> Player.set_ground None >> Player.set_drop 0
              >> Player.set_cluckCd 0 >> Player.set_flyHold 0) ;;
  upd_world (World.set_scroll 0) ;;
  hue <- randi 14 34 ;;
  upd_world (World.set_roomHue hue) ;;
  d1 <- randi 110 190 ;;
  upd_world (fun wd => World.set_popHue (remQ (World.roomHue wd + d1) 360) wd) ;;
  d2 <- randi 220 300 ;;
  upd_world (fun wd => World.set_popHue2 (remQ (World.roomHue wd + d2) 360) wd).

Definition gameOver : M unit :=
  upd_state (St.set_mode Gameover) ;;
  upd_state (fun s => St.set_best (Qmax (St.best s) (floorQ (St.score s))) s).

(** [function hurt(obstacle, amount = 12)], in three parts: the loss of
    health with the knock-back, the burst of feathers, and the change of
    heart or the end of the run when the active heart is empty. *)
Definition knock_back (obstacle : Obstacle.obstacle) (amount : Q) : M unit :=
  let obstacleCenterX := Obstacle.x obstacle + Obstacle.w obstacle * 0.5 in
  upd_state (fun s =>
    St.set_hearts
      (store_index (St.hearts s) (St.heartIndex s)
         (Qmax 0 (at_index (St.hearts s) (St.heartIndex s) - amount))) s) ;;
  upd_player (Player.set_invuln 1.0) ;;
  upd_state (fun s => St.set_shake (Qmax (St.shake s) 0.10) s) ;;
  p <- gets player ;;
  let pMid := Player.x p + Player.w p * 0.5 in
  let dir := if pMid <? obstacleCenterX then -1 else 1 in
  upd_player (Player.set_vx (320 * dir)) ;;
  upd_player (fun p => Player.set_vy (Qmin (Player.vy p) (-380)) p) ;;
  upd_player (Player.set_onGround false) ;;
  upd_player (fun p =>
    if dir <? 0
    then Player.set_x (Obstacle.x obstacle - Player.w p - 10) p
    else Player.set_x (Obstacle.x obstacle + Obstacle.w obstacle + 10) p) ;;
  wd <- gets world ;;
  upd_player (fun p =>
    Player.set_x (clamp (Player.x p) (World.leftBound wd) (World.rightBound wd)) p).

Definition heart_out : M unit :=
  s <- gets state ;;
  when (at_index (St.hearts s) (St.heartIndex s) <=? 0)
    (if (St.heartIndex s <? St.heartsMax s - 1)%Z
     then
       upd_state (fun s => St.set_hearts (store_index (St.hearts s) (St.heartIndex s) 0) s) ;;
       upd_state (fun s => St.set_heartIndex (St.heartIndex s + 1)%Z s) ;;
       upd_state (fun s => St.set_hearts (store_index (St.hearts s) (St.heartIndex s) 100) s) ;;
       upd_state (fun s =>
         St.set_heartsSmooth (store_index (St.heartsSmooth s) (St.heartIndex s) 100) s) ;;
       upd_player (Player.set_invuln 1.2) ;;
       upd_state (St.set_shake 0.18)
     else gameOver).

Definition hurt (obstacle : Obstacle.obstacle) (amount : Q) : M unit :=
  s <- gets state ;;
  p <- gets player ;;
  if negb (Mode_eqb (St.mode s) Playing) then ret tt
  else if 0 <? Player.invuln p then ret tt
  else
    knock_back obstacle amount ;;
    p <- gets player ;;
    featherBurst (Player.x p + Player.w p * 0.55) (Player.y p + Player.h p * 0.55) ;;
    heart_out.

Definition startGame (env : Env) : M unit :=
  match nameInput env with
  | Some v => setName (Text v)
  | None => ret tt
  end ;;
  resetRun env ;;
  upd_state (St.set_mode Playing).

(** *** [update(dt)]: timers, input and physics *)

(** The smoothing loop over the hearts:
    [for (let i = 0; i < state.heartsMax; i++) state.heartsSmooth[i] = lerp(..)]. *)
Fixpoint smooth_loop (n : nat) (i : Z) (title : bool) (dt : Q) : M unit :=
  match n with
  | O => ret tt
  | S n' =>
      upd_state (fun s =>
        let target := if title then 100 else at_index (St.hearts s) i in
        St.set_heartsSmooth
          (store_index (St.heartsSmooth s) i
             (lerp (at_index (St.heartsSmooth s) i) target (1 - pow 0.00001 dt))) s) ;;
      smooth_loop n' (i + 1)%Z title dt
  end.

Definition smooth_hearts (title : bool) (dt : Q) : M unit :=
  s <- gets state ;;
  smooth_loop (Z.to_nat (St.heartsMax s)) 0 title dt.

(** The first lines: the clock and the bounds of the world. *)
Definition tick_header (env : Env) (dt : Q) : M unit :=
  let W := canvas_width env in
  let H := canvas_height env in
  upd_state (St.set_dt dt) ;;
  upd_state (fun s => St.set_t (St.t s + dt) s) ;;
  upd_world (World.set_floorY (floorQ (H * 0.78))) ;;
  upd_world (World.set_leftBound (floorQ (W * 0.08))) ;;
  upd_world (World.set_rightBound (floorQ (W * 0.62))).

(** The branch [if (state.mode !== 'playing') { .. return; }]. *)
Definition idle (dt : Q) : M unit :=
  upd_state (fun s => St.set_hintBlink (St.hintBlink s + dt) s) ;;
  s <- gets state ;;
  smooth_hearts (Mode_eqb (St.mode s) Title) dt.

(** Difficulty, speed, score, damage cooldown and smoothing. *)
Definition ramp (dt : Q) : M unit :=
  upd_state (fun s => St.set_difficulty (clamp (St.difficulty s + dt * 0.035) 0 1) s) ;;
  upd_state (fun s => St.set_speed (lerp 360 620 (St.difficulty s)) s) ;;
  upd_state (fun s => St.set_score (St.score s + dt * (20 + St.speed s * 0.02)) s) ;;
  upd_player (fun p => Player.set_invuln (Qmax 0 (Player.invuln p - dt)) p) ;;
  smooth_hearts false dt.

(** The four actions read from the keys held down. *)
Definition key_left (ks : list string) : bool :=
  has ks "ArrowLeft" || has ks "a" || has ks "A".
Definition key_right (ks : list string) : bool :=
  has ks "ArrowRight" || has ks "d" || has ks "D".
Definition key_jump (ks : list string) : bool :=
  has ks " " || has ks "ArrowUp" || has ks "w" || has ks "W".
Definition key_down (ks : list string) : bool :=
  has ks "ArrowDown" || has ks "s" || has ks "S".

Definition move (dt : Q) (left right : bool) : M unit :=
  let accel := 2400 in
  let maxVx := 360 in
  when left (upd_player (fun p => Player.set_vx (Player.vx p - accel * dt) p)) ;;
  when right (upd_player (fun p => Player.set_vx (Player.vx p + accel * dt) p)) ;;
  when (negb left && negb right)
    (upd_player (fun p => Player.set_vx (Player.vx p * pow 0.0006 dt) p)) ;;
  upd_player (fun p => Player.set_vx (clamp (Player.vx p) (- maxVx) maxVx) p).

(** Jump buffer, coyote time, the hold timer, and the jump itself. *)
Definition jump_step (dt : Q) (jump : bool) : M unit :=
  (if jump then upd_player (Player.set_jumpBuffered 0.12)
   else upd_player (fun p => Player.set_jumpBuffered (Qmax 0 (Player.jumpBuffered p - dt)) p)) ;;
  upd_player (fun p =>
    if Player.onGround p then Player.set_coyote 0.10 p
    else Player.set_coyote (Qmax 0 (Player.coyote p - dt)) p) ;;
  (if jump then upd_player (fun p => Player.set_flyHold (Player.flyHold p + dt) p)
   else upd_player (Player.set_flyHold 0)) ;;
  p <- gets player ;;
  when ((0 <? Player.jumpBuffered p) && (0 <? Player.coyote p))
    (upd_player (Player.set_jumpBuffered 0 >> Player.set_coyote 0
                 >> Player.set_onGround false) ;;
     wd <- gets world ;;
     upd_player (Player.set_vy (World.jumpVel wd)) ;;
     p <- gets player ;;
     featherBurst (Player.x p + Player.w p * 0.6) (Player.y p + Player.h p * 0.5)).

(** [const isFlying = jump && !player.onGround && player.flyHold > 0.14
                      && state.flyFuel > 0] *)
Definition isFlying (jump : bool) (g : Game) : bool :=
  jump && negb (Player.onGround (player g)) && (0.14 <? Player.flyHold (player g))
  && (0 <? St.flyFuel (state g)).

Definition flight (dt : Q) (jump : bool) : M unit :=
  flying <- gets (isFlying jump) ;;
  when flying
    (upd_state (fun s => St.set_flyFuel (Qmax 0 (St.flyFuel s - dt)) s) ;;
     upd_state (fun s => St.set_flyRefuelCd (St.flyRefuelDelay s) s) ;;
     let targetVy := -420 in
     upd_player (fun p => Player.set_vy (lerp (Player.vy p) targetVy (1 - pow 0.001 dt)) p) ;;
     u <- Math_random ;;
     p <- gets player ;;
     when (u <? 0.35)
       (featherBurst (Player.x p + Player.w p * 0.45) (Player.y p + Player.h p * 0.75))).

(** The cluck sounds; only their cooldown is state. *)
Definition cluck (dt : Q) (left right : bool) : M unit :=
  upd_player (fun p => Player.set_cluckCd (Qmax 0 (Player.cluckCd p - dt)) p) ;;
  p <- gets player ;;
  when (Player.onGround p && (right || left) && (Player.cluckCd p <=? 0))
    (if right
     then _freq <- rand 420 520 ;; cd <- rand 0.14 0.22 ;; upd_player (Player.set_cluckCd cd)
     else _freq <- rand 280 360 ;; cd <- rand 0.26 0.40 ;; upd_player (Player.set_cluckCd cd)).

(** [if (down && player.onGround && player.ground)]: a reference is truthy,
    [null] is not. *)
Definition drop_through (dt : Q) (down : bool) : M unit :=
  upd_player (fun p => Player.set_drop (Qmax 0 (Player.drop p - dt)) p) ;;
  p <- gets player ;;
  when (down && Player.onGround p && bool_decide (is_Some (Player.ground p)))
    (upd_player (Player.set_drop 0.35) ;;
     upd_player (Player.set_ground None) ;;
     upd_player (Player.set_onGround false) ;;
     upd_player (fun p => Player.set_vy (Qmax (Player.vy p) 120) p)).

Definition physics (env : Env) (dt : Q) : M unit :=
  let H := canvas_height env in
  wd <- gets world ;;
  upd_player (fun p => Player.set_vy (Player.vy p + World.gravity wd * dt) p) ;;
  upd_player (fun p => Player.set_x (Player.x p + Player.vx p * dt) p) ;;
  upd_player (fun p => Player.set_y (Player.y p + Player.vy p * dt) p) ;;
  let ceilY := floorQ (H * 0.06) in
  p <- gets player ;;
  when (Player.y p <? ceilY)
    (upd_player (Player.set_y ceilY) ;;
     upd_player (fun p => Player.set_vy (Qmax (Player.vy p) 0) p)) ;;
  upd_player (fun p =>
    Player.set_x (clamp (Player.x p) (World.leftBound wd) (World.rightBound wd)) p) ;;
  s <- gets state ;;
  upd_world (fun wd => World.set_scroll (World.scroll wd + St.speed s * dt) wd).

(** *** [update(dt)]: the three spawners *)

(** [lastObs ? (lastObs.x + lastObs.w) : null] for the last entry of
    [obstacles]. *)
Definition lastEndX (g : Game) : option Q :=
  match last (obstacles g) with
  | Some lastObs => Some (Obstacle.x lastObs + Obstacle.w lastObs)
  | None => None
  end.

(** The spacing constants of one pass of the obstacle spawner. *)
Definition minSpacingPx (g : Game) : Q := lerp 240 180 (St.difficulty (state g)).

Definition airTime (g : Game) : Q :=
  (2 * Qabs (World.jumpVel (world g))) / World.gravity (world g).

Definition jumpTravelPx (g : Game) : Q := St.speed (state g) * airTime g.

Definition reactionPx (g : Game) : Q := lerp 220 140 (St.difficulty (state g)).

Definition landingSpacingPx (g : Game) : Q :=
  Qmax (Player.w (player g) + 200) (jumpTravelPx g + reactionPx g).

Definition reqPx (g : Game) : Q :=
  if Spawner.needLanding (spawner g) then landingSpacingPx g else minSpacingPx g.

(** [const pick = () => obstacleTypes[randi(0, obstacleTypes.length - 1)]];
    the index is in range because [Math.random() < 1]. *)
Definition pick : M ObstacleType :=
  i <- randi 0 (inject_Z (Z.of_nat (length obstacleTypes)) - 1) ;;
  ret (default (mkType Block 46 34 "#ff6a3d") (obstacleTypes !! Z.to_nat (Qfloor i))).

(** [makeWH(t)], as the triple of the type and the chosen width and height. *)
Definition makeWH (t : ObstacleType) : M (ObstacleType * Q * Q) :=
  s <- gets state ;;
  big <- (if 0.55 <? St.difficulty s
          then u <- Math_random ;; ret (u <? 0.12)
          else ret false) ;;
  ret (t, (if big then floorQ (ty_w t * 1.25) else ty_w t),
          (if big then floorQ (ty_h t * 1.35) else ty_h t)).

(** Where the chunk starts: [let x1 = W + rand(40, 140)], moved right to
    keep the spacing [reqPx] from the end of the last obstacle. *)
Definition chunk_x (W : Q) : M Q :=
  lastEnd <- gets lastEndX ;;
  req <- gets reqPx ;;
  r <- rand 40 140 ;;
  let x1 := W + r in
  ret (match lastEnd with Some e => Qmax x1 (e + req) | None => x1 end).

(** The end of a pass that placed a chunk: one chunk less to go, and a
    landing gap is owed if the run goes on. *)
Definition end_chunk (speedFactor : Q) : M unit :=
  upd_spawner (fun sp => Spawner.set_runChunksLeft (Spawner.runChunksLeft sp - 1) sp) ;;
  sp <- gets spawner ;;
  if 0 <? Spawner.runChunksLeft sp
  then
    upd_spawner (Spawner.set_needLanding true) ;;
    r <- rand 0.20 0.40 ;;
    upd_spawner (fun sp => Spawner.set_cd (Spawner.cd sp + r * speedFactor) sp)
  else
    upd_spawner (Spawner.set_needLanding false) ;;
    r <- rand 0.55 1.10 ;;
    upd_spawner (fun sp => Spawner.set_cd (Spawner.cd sp + r * speedFactor) sp).

(** One pass of the body from [let chunkSize] to its end: a chunk of one
    or two obstacles is placed, perhaps with corn after it. *)
Definition place_chunk (W : Q) (speedFactor : Q) : M unit :=
  s <- gets state ;;
  u <- Math_random ;;
  let chunkSize : Q := if u <? lerp 0.30 0.55 (St.difficulty s) then 2 else 1 in
  let chunkSize : Q := if St.difficulty s <? 0.10 then 1 else chunkSize in
  x1 <- chunk_x W ;;
  t1 <- pick ;;
  o1 <- makeWH t1 ;;
  let '(t1, w1, h1) := o1 in
  spawnObstacle w1 h1 (ty_kind t1) (ty_color t1) x1 ;;
  chunkEndX <-
    (if Qeq_bool chunkSize 2
     then
       pairGapPx <- rand 40 80 ;;
       let x2 := x1 + w1 + pairGapPx in
       t2 <- pick ;;
       o2 <- makeWH t2 ;;
       let '(t2, w2, h2) := o2 in
       spawnObstacle w2 h2 (ty_kind t2) (ty_color t2) x2 ;;
       ret (x2 + w2)
     else ret (x1 + w1)) ;;
  u <- Math_random ;;
  when (u <? (if Qeq_bool chunkSize 2 then 0.38 else 0.62))
    (dx <- rand 90 240 ;; spawnCorn (chunkEndX + dx)) ;;
  u <- Math_random ;;
  when (u <? lerp 0.02 0.05 (St.difficulty s))
    (dx <- rand 240 420 ;; spawnBigCorn (chunkEndX + dx)) ;;
  end_chunk speedFactor.

(** The part of the body before it: when no run is under way, decide
    whether one starts.  The result tells whether the pass goes on to
    place a chunk ([false] is the [continue]). *)
Definition begin_run (speedFactor : Q) : M bool :=
  s <- gets state ;;
  sp <- gets spawner ;;
  if Spawner.runChunksLeft sp <=? 0
  then
    u <- Math_random ;;
    let startRun := u <? lerp 0.50 0.72 (St.difficulty s) in
    if negb startRun
    then
      upd_spawner (Spawner.set_needLanding false) ;;
      r <- rand 0.55 1.25 ;;
      upd_spawner (fun sp => Spawner.set_cd (Spawner.cd sp + r * speedFactor) sp) ;;
      u <- Math_random ;;
      when (u <? 0.16)
        (r <- rand 0.70 1.40 ;;
         upd_spawner (fun sp => Spawner.set_cd (Spawner.cd sp + r * speedFactor) sp)) ;;
      ret false
    else
      n <- randi 1 (2 + (if 0.55 <? St.difficulty s then 1 else 0)) ;;
      upd_spawner (Spawner.set_runChunksLeft n) ;;
      upd_spawner (Spawner.set_needLanding false) ;;
      ret true
  else ret true.

(** The body of [while (spawner.cd <= 0 && iters++ < 6)]. *)
Definition spawner_pass (W : Q) : M unit :=
  s <- gets state ;;
  let speedFactor := lerp 1.00 0.86 (St.difficulty s) in
  go <- begin_run speedFactor ;;
  when go (place_chunk W speedFactor).

(** The loop: at most six passes, for as long as the countdown is due. *)
Fixpoint spawner_loop (iters : nat) (W : Q) : M unit :=
  match iters with
  | O => ret tt
  | S n =>
      sp <- gets spawner ;;
      when (Spawner.cd sp <=? 0) (spawner_pass W ;; spawner_loop n W)
  end.

Definition spawn_obstacles (env : Env) (dt : Q) : M unit :=
  upd_spawner (fun sp => Spawner.set_cd (Spawner.cd sp - dt) sp) ;;
  spawner_loop 6 (canvas_width env).

(** The condition of a break: no landing gap owed and no run under way. *)
Definition in_break (g : Game) : bool :=
  negb (Spawner.needLanding (spawner g)) && Qeq_bool (Spawner.runChunksLeft (spawner g)) 0.

Definition lastPlatEnd (g : Game) : Q :=
  match last (platforms g) with
  | Some lastPlat => Platform.x lastPlat + Platform.w lastPlat
  | None => 0
  end.

Definition lastObsEnd (g : Game) : Q :=
  match last (obstacles g) with
  | Some lastObs => Obstacle.x lastObs + Obstacle.w lastObs
  | None => 0
  end.

Definition lastEggEnd (g : Game) : Q :=
  match last (eggs g) with
  | Some lastEgg => Egg.x lastEgg + Egg.r lastEgg
  | None => 0
  end.

(** The body of [if (terrain.runLeft > 0)]: one segment of terrain. *)
Definition place_terrain (W : Q) (speedFactor : Q) : M unit :=
  lastObs <- gets lastObsEnd ;;
  lastPlat <- gets lastPlatEnd ;;
  let lastEnd := Qmax lastObs lastPlat in
  tr <- gets terrain ;;
  chainGap <- (if 2 <=? Terrain.runLeft tr then rand 160 240 else rand 280 420) ;;
  r <- rand 180 280 ;;
  let x := Qmax (W + r) (lastEnd + chainGap) in
  toLevel <-
    (if Qeq_bool (Terrain.level tr) 0 then ret 1
     else if Terrain.runLeft tr <=? 1
          then u <- Math_random ;; ret (if u <? 0.78 then 0 else 1)
          else ret 1) ;;
  x <- (if negb (Qeq_bool toLevel (Terrain.level tr))
        then e <- spawnStairs (Terrain.level tr) toLevel x ;; ret (e + 18)
        else ret x) ;;
  when (Qeq_bool toLevel 1)
    (wd <- gets world ;;
     let y := World.floorY wd - World.plateauLift wd in
     w <- randi 300 460 ;;
     spawnPlatform w y x Shelf ;;
     u <- Math_random ;;
     when (u <? 0.58) (spawnCorn (x + w * 0.5)) ;;
     u <- Math_random ;;
     when (u <? 0.10) (spawnBigCorn (x + w * 0.65))) ;;
  upd_terrain (Terrain.set_level toLevel) ;;
  upd_terrain (fun tr => Terrain.set_runLeft (Terrain.runLeft tr - 1) tr) ;;
  tr <- gets terrain ;;
  r <- (if 0 <? Terrain.runLeft tr then rand 0.55 0.95 else rand 2.2 3.6) ;;
  modify (set_platformSpawner_cd (r * speedFactor)).

Definition spawn_platforms (env : Env) (dt : Q) : M unit :=
  let W := canvas_width env in
  modify (fun g => set_platformSpawner_cd (platformSpawner_cd g - dt) g) ;;
  cd <- gets platformSpawner_cd ;;
  brk <- gets in_break ;;
  when ((cd <=? 0) && brk)
    (s <- gets state ;;
     let speedFactor := lerp 1.00 0.86 (St.difficulty s) in
     tr <- gets terrain ;;
     when (Terrain.runLeft tr <=? 0)
       (u <- Math_random ;;
        let start := u <? lerp 0.42 0.62 (St.difficulty s) in
        if negb start
        then r <- rand 1.3 2.8 ;; modify (set_platformSpawner_cd (r * speedFactor))
        else n <- randi 2 4 ;; upd_terrain (Terrain.set_runLeft n)) ;;
     tr <- gets terrain ;;
     when (0 <? Terrain.runLeft tr) (place_terrain W speedFactor)).

Definition spawn_eggs (env : Env) (dt : Q) : M unit :=
  let W := canvas_width env in
  modify (fun g => set_eggSpawner_cd (eggSpawner_cd g - dt) g) ;;
  cd <- gets eggSpawner_cd ;;
  brk <- gets in_break ;;
  when ((cd <=? 0) && brk)
    (lastObs <- gets lastObsEnd ;;
     lastPlat <- gets lastPlatEnd ;;
     lastEgg <- gets lastEggEnd ;;
     let lastEnd := Qmax (Qmax lastObs lastPlat) lastEgg in
     r1 <- rand 220 380 ;;
     r2 <- rand 360 560 ;;
     let x := Qmax (W + r1) (lastEnd + r2) in
     u <- Math_random ;;
     when (u <? 0.70) (spawnEgg x) ;;
     s <- gets state ;;
     let speedFactor := lerp 1.00 0.86 (St.difficulty s) in
     r <- rand 1.4 2.8 ;;
     modify (set_eggSpawner_cd (r * speedFactor))).

(** *** [update(dt)]: scrolling the pools *)

(** [while (a.length && gone(a[0])) a.shift()] *)
Fixpoint shift_while {A : Type} (gone : A -> bool) (a : list A) : list A :=
  match a with
  | [] => []
  | e :: rest => if gone e then shift_while gone rest else a
  end.

(** [for (let i = a.length - 1; i >= 0; i--) if (gone(a[i])) a.splice(i, 1)]:
    every entry that is gone is removed and the order of the others is kept. *)
Definition splice_all {A : Type} (gone : A -> bool) (a : list A) : list A :=
  filter (fun e => gone e = false) a.

(** The scroll loops assign to [o.x] for every object [o] of a pool.  The
    object [player.ground] points to is one of them for as long as it is in
    its pool, and then it moves too. *)
Definition scroll_support_obstacle (dx : Q) (g : Game) : option Support :=
  match Player.ground (player g) with
  | Some (OnObstacle o) =>
      if existsb (fun o' => Nat.eqb (Obstacle.id o') (Obstacle.id o)) (obstacles g)
      then Some (OnObstacle (Obstacle.set_x (Obstacle.x o - dx) o))
      else Some (OnObstacle o)
  | gr => gr
  end.

Definition scroll_support_platform (dx : Q) (g : Game) : option Support :=
  match Player.ground (player g) with
  | Some (OnPlatform p) =>
      if existsb (fun p' => Nat.eqb (Platform.id p') (Platform.id p)) (platforms g)
      then Some (OnPlatform (Platform.set_x (Platform.x p - dx) p))
      else Some (OnPlatform p)
  | gr => gr
  end.

Definition update_obstacles (dt : Q) : M unit :=
  s <- gets state ;;
  let dx := St.speed s * dt in
  gr <- gets (scroll_support_obstacle dx) ;;
  upd_player (Player.set_ground gr) ;;
  modify (fun g =>
    set_obstacles (map (fun o => Obstacle.set_x (Obstacle.x o - dx) o) (obstacles g)) g) ;;
  modify (fun g =>
    set_obstacles
      (shift_while (fun o => Obstacle.x o + Obstacle.w o <? -40) (obstacles g)) g).

Definition update_platforms (dt : Q) : M unit :=
  s <- gets state ;;
  let dx := St.speed s * dt in
  gr <- gets (scroll_support_platform dx) ;;
  upd_player (Player.set_ground gr) ;;
  modify (fun g =>
    set_platforms (map (fun p => Platform.set_x (Platform.x p - dx) p) (platforms g)) g) ;;
  modify (fun g =>
    set_platforms
      (shift_while (fun p => Platform.x p + Platform.w p <? -60) (platforms g)) g).

Definition update_pickups (dt : Q) : M unit :=
  s <- gets state ;;
  let dx := St.speed s * dt in
  modify (fun g =>
    set_pickups
      (map (fun p => Pickup.set_t (Pickup.t p + dt) (Pickup.set_x (Pickup.x p - dx) p))
           (pickups g)) g) ;;
  modify (fun g =>
    set_pickups (shift_while (fun p => Pickup.x p + Pickup.r p <? -60) (pickups g)) g).

Definition update_eggs (dt : Q) : M unit :=
  s <- gets state ;;
  let dx := St.speed s * dt in
  modify (fun g =>
    set_eggs
      (map (fun e =>
              let e := Egg.set_x (Egg.x e - dx) e in
              let e := Egg.set_t (Egg.t e + dt) e in
              if Egg.smashed e then Egg.set_smashT (Egg.smashT e + dt) e else e)
           (eggs g)) g) ;;
  modify (fun g =>
    set_eggs
      (splice_all (fun e => (Egg.x e + Egg.r e <? -60)
                            || (Egg.smashed e && (0.60 <? Egg.smashT e)))
                  (eggs g)) g).

Definition update_particles (dt : Q) : M unit :=
  modify (fun g =>
    set_particles
      (map (fun prt =>
              let prt := Particle.set_t (Particle.t prt + dt) prt in
              let prt := Particle.set_x (Particle.x prt + Particle.vx prt * dt) prt in
              let prt := Particle.set_y (Particle.y prt + Particle.vy prt * dt) prt in
              let prt :=
                Particle.set_vy
                  (Particle.vy prt
                   + (match Particle.kind prt with Dust => 1200 | _ => 1800 end) * dt) prt in
              match Particle.rot prt, Particle.vr prt with
              | Some rot, Some vr => Particle.set_rot (Some (rot + vr * dt)) prt
              | _, _ => prt
              end)
           (particles g)) g) ;;
  modify (fun g =>
    set_particles
      (splice_all (fun prt => Particle.life prt <=? Particle.t prt) (particles g)) g).

Definition update_entities (dt : Q) : M unit :=
  update_obstacles dt ;;
  update_platforms dt ;;
  update_pickups dt ;;
  update_eggs dt ;;
  update_particles dt.

(** *** [update(dt)]: landing *)

(** Keep support if standing on a moving shelf. *)
Definition sticky_support : M unit :=
  p <- gets player ;;
  match Player.ground p with
  | Some gp =>
      when (Player.onGround p)
        (let overlap :=
           (Support_x gp + 6 <? Player.x p + Player.w p)
           && (Player.x p <? Support_x gp + Support_w gp - 6) in
         if negb overlap
         then
           upd_player (Player.set_ground None) ;;
           upd_player (Player.set_onGround false) ;;
           upd_player (fun p => Player.set_vy (Qmax (Player.vy p) 80) p)
         else
           upd_player (fun p => Player.set_y (Support_y gp - Player.h p) p) ;;
           upd_player (Player.set_vy 0))
  | None => ret tt
  end.

(** [for (const p of platforms) { .. }]; the result is [landed]. *)
Fixpoint platform_loop (wasOnGround : bool) (prevBottom bottom : Q)
    (ps : list Platform.platform) : M bool :=
  match ps with
  | [] => ret false
  | p :: rest =>
      pl <- gets player ;;
      if (bottom <? Platform.y p) || (Platform.y p <? prevBottom)
      then platform_loop wasOnGround prevBottom bottom rest
      else
        let overlap :=
          (Platform.x p <? Player.x pl + Player.w pl - 6)
          && (Player.x pl + 6 <? Platform.x p + Platform.w p) in
        if negb overlap
        then platform_loop wasOnGround prevBottom bottom rest
        else if (prevBottom <=? Platform.y p) && (Platform.y p <=? bottom)
        then
          upd_player (fun pl => Player.set_y (Platform.y p - Player.h pl) pl) ;;
          upd_player (Player.set_vy 0) ;;
          upd_player (Player.set_onGround true) ;;
          upd_player (Player.set_ground (Some (OnPlatform p))) ;;
          pl <- gets player ;;
          when (negb wasOnGround)
            (dustPuff (Player.x pl + Player.w pl * 0.4) (Platform.y p + 2)) ;;
          ret true
        else platform_loop wasOnGround prevBottom bottom rest
  end.

Definition land_on_platforms (wasOnGround : bool) (prevY : Q) : M bool :=
  pl <- gets player ;;
  if (0 <=? Player.vy pl) && (Player.drop pl <=? 0)
  then
    let prevBottom := prevY + Player.h pl in
    let bottom := Player.y pl + Player.h pl in
    ps <- gets platforms ;;
    platform_loop wasOnGround prevBottom bottom ps
  else ret false.

(** [for (const o of obstacles) { .. }] of the landing on obstacles. *)
Fixpoint obstacle_top_loop (wasOnGround : bool) (prevBottom bottom : Q)
    (os : list Obstacle.obstacle) : M bool :=
  match os with
  | [] => ret false
  | o :: rest =>
      pl <- gets player ;;
      if (bottom <? Obstacle.y o) || (Obstacle.y o <? prevBottom)
      then obstacle_top_loop wasOnGround prevBottom bottom rest
      else
        let overlap :=
          (Obstacle.x o <? Player.x pl + Player.w pl - 6)
          && (Player.x pl + 6 <? Obstacle.x o + Obstacle.w o) in
        if negb overlap
        then obstacle_top_loop wasOnGround prevBottom bottom rest
        else if (prevBottom <=? Obstacle.y o) && (Obstacle.y o <=? bottom)
        then
          upd_player (fun pl => Player.set_y (Obstacle.y o - Player.h pl) pl) ;;
          upd_player (Player.set_vy 0) ;;
          upd_player (Player.set_onGround true) ;;
          upd_player (Player.set_ground (Some (OnObstacle o))) ;;
          pl <- gets player ;;
          when (negb wasOnGround)
            (dustPuff (Player.x pl + Player.w pl * 0.4) (Obstacle.y o + 2)) ;;
          ret true
        else obstacle_top_loop wasOnGround prevBottom bottom rest
  end.

Definition land_on_obstacles (landed wasOnGround : bool) (prevY : Q) : M bool :=
  pl <- gets player ;;
  if negb landed && (0 <=? Player.vy pl)
  then
    let prevBottom := prevY + Player.h pl in
    let bottom := Player.y pl + Player.h pl in
    os <- gets obstacles ;;
    obstacle_top_loop wasOnGround prevBottom bottom os
  else ret landed.

Definition land_on_floor (landed wasOnGround : bool) : M unit :=
  when (negb landed)
    (pl <- gets player ;;
     wd <- gets world ;;
     if World.floorY wd <=? Player.y pl + Player.h pl
     then
       upd_player (fun pl => Player.set_y (World.floorY wd - Player.h pl) pl) ;;
       when (negb wasOnGround && (0 <? Player.vy pl))
         (pl <- gets player ;;
          dustPuff (Player.x pl + Player.w pl * 0.4) (World.floorY wd)) ;;
       upd_player (Player.set_vy 0) ;;
       upd_player (Player.set_onGround true) ;;
       upd_player (Player.set_ground None)
     else
       when (negb (bool_decide (is_Some (Player.ground pl))))
         (upd_player (Player.set_onGround false))).

(** Flight refuel: short delay on ground, then instant full fuel. *)
Definition refuel (dt : Q) : M unit :=
  s <- gets state ;;
  when (St.flyFuel s <? St.flyFuelMax s)
    (pl <- gets player ;;
     when (Player.onGround pl)
       (upd_state (fun s => St.set_flyRefuelCd (Qmax 0 (St.flyRefuelCd s - dt)) s) ;;
        s <- gets state ;;
        when (St.flyRefuelCd s <=? 0)
          (upd_state (fun s => St.set_flyFuel (St.flyFuelMax s) s)))).

Definition animate (dt : Q) : M unit :=
  upd_player (fun pl =>
    let runSpeed :=
      if Player.onGround pl then Qabs (Player.vx pl) / 220 + 1.0 else 0.4 in
    Player.set_anim (Player.anim pl + dt * runSpeed) pl).

(** *** [update(dt)]: collisions *)

(** The constant [hitbox], computed once from the player after landing. *)
Record Hitbox : Type := mkHitbox { hb_x : Q; hb_y : Q; hb_w : Q; hb_h : Q }.

Definition hitbox_of (g : Game) : Hitbox :=
  let pl := player g in
  mkHitbox (Player.x pl + 8) (Player.y pl + 8) (Player.w pl - 16) (Player.h pl - 10).

Definition hits_obstacle (hitbox : Hitbox) (o : Obstacle.obstacle) : bool :=
  aabb (hb_x hitbox) (hb_y hitbox) (hb_w hitbox) (hb_h hitbox)
       (Obstacle.x o) (Obstacle.y o) (Obstacle.w o) (Obstacle.h o).

(** [player.ground === o && player.onGround] *)
Definition stands_on (pl : Player.player) (o : Obstacle.obstacle) : bool :=
  ground_is_obstacle (Player.ground pl) o && Player.onGround pl.

Definition aboveTop (hitbox : Hitbox) (o : Obstacle.obstacle) : bool :=
  hb_y hitbox + hb_h hitbox <=? Obstacle.y o + 4.

Definition fromFront (pl : Player.player) (o : Obstacle.obstacle) : bool :=
  Player.x pl + Player.w pl * 0.5 <=? Obstacle.x o + Obstacle.w o * 0.5.

(** [for (const o of obstacles) { if (aabb(..)) { .. hurt(o); break; } }] *)
Fixpoint damage_loop (hitbox : Hitbox) (os : list Obstacle.obstacle) : M unit :=
  match os with
  | [] => ret tt
  | o :: rest =>
      if hits_obstacle hitbox o
      then
        pl <- gets player ;;
        if stands_on pl o then damage_loop hitbox rest
        else if aboveTop hitbox o then damage_loop hitbox rest
        else if negb (fromFront pl o) then damage_loop hitbox rest
        else hurt o 12
      else damage_loop hitbox rest
  end.

Definition damage_pass (hitbox : Hitbox) : M unit :=
  os <- gets obstacles ;;
  damage_loop hitbox os.

Definition hits_circle (hitbox : Hitbox) (x y r : Q) : bool :=
  let bx := x - r in
  let by' := y - r in
  let bw := r * 2 in
  let bh := r * 2 in
  aabb (hb_x hitbox) (hb_y hitbox) (hb_w hitbox) (hb_h hitbox) bx by' bw bh.

(** The body of [for (const p of pickups)]; the result is the pickup as
    the pass leaves it. *)
Definition collect (hitbox : Hitbox) (p : Pickup.pickup) : M Pickup.pickup :=
  if Pickup.taken p then ret p
  else if hits_circle hitbox (Pickup.x p) (Pickup.y p) (Pickup.r p)
  then
    let p := Pickup.set_taken true p in
    upd_state (fun s => St.set_corn (St.corn s + or1 (Pickup.value p))%Z s) ;;
    upd_state (fun s =>
      St.set_score (St.score s + 60 * inject_Z (or1 (Pickup.value p))) s) ;;
    featherBurst (Pickup.x p) (Pickup.y p) ;;
    ret p
  else ret p.

Fixpoint collect_loop (hitbox : Hitbox) (ps : list Pickup.pickup)
  : M (list Pickup.pickup) :=
  match ps with
  | [] => ret []
  | p :: rest =>
      p' <- collect hitbox p ;;
      rest' <- collect_loop hitbox rest ;;
      ret (p' :: rest')
  end.

Definition collect_pickups (hitbox : Hitbox) : M unit :=
  ps <- gets pickups ;;
  ps' <- collect_loop hitbox ps ;;
  modify (set_pickups ps').

(** The body of [for (const e of eggs)]. *)
Definition smash (hitbox : Hitbox) (e : Egg.egg) : M Egg.egg :=
  if Egg.smashed e then ret e
  else if hits_circle hitbox (Egg.x e) (Egg.y e) (Egg.r e)
  then
    let e := Egg.set_smashT 0 (Egg.set_smashed true e) in
    upd_state (fun s => St.set_corn (Z.max 0 (St.corn s - 1)) s) ;;
    yolkBurst (Egg.x e) (Egg.y e) ;;
    ret e
  else ret e.

Fixpoint smash_loop (hitbox : Hitbox) (es : list Egg.egg) : M (list Egg.egg) :=
  match es with
  | [] => ret []
  | e :: rest =>
      e' <- smash hitbox e ;;
      rest' <- smash_loop hitbox rest ;;
      ret (e' :: rest')
  end.

Definition smash_eggs (hitbox : Hitbox) : M unit :=
  es <- gets eggs ;;
  es' <- smash_loop hitbox es ;;
  modify (set_eggs es').

(** Shake decay, first placement, and the check for a fall out of the
    world. *)
Definition finish (env : Env) (dt : Q) (wasOnGround : bool) : M unit :=
  let W := canvas_width env in
  let H := canvas_height env in
  upd_state (fun s => St.set_shake (Qmax 0 (St.shake s - dt)) s) ;;
  s <- gets state ;;
  wd <- gets world ;;
  when (St.t s <? 0.001)
    (upd_player (Player.set_x (World.leftBound wd + floorQ (W * 0.16))) ;;
     upd_player (fun pl => Player.set_y (World.floorY wd - Player.h pl) pl)) ;;
  pl <- gets player ;;
  when (negb wasOnGround && (H + 80 <? Player.y pl)) gameOver.

(** *** [update(dt)] *)

(** The body of [update] after the branch for the other modes. *)
Definition playing_tick (env : Env) (dt : Q) : M unit :=
  ramp dt ;;
  ks <- gets keys ;;
  let left := key_left ks in
  let right := key_right ks in
  let jump := key_jump ks in
  let down := key_down ks in
  move dt left right ;;
  jump_step dt jump ;;
  flight dt jump ;;
  cluck dt left right ;;
  drop_through dt down ;;
  pl <- gets player ;;
  let wasOnGround := Player.onGround pl in
  let prevY := Player.y pl in
  physics env dt ;;
  spawn_obstacles env dt ;;
  spawn_platforms env dt ;;
  spawn_eggs env dt ;;
  update_entities dt ;;
  sticky_support ;;
  landed <- land_on_platforms wasOnGround prevY ;;
  landed <- land_on_obstacles landed wasOnGround prevY ;;
  land_on_floor landed wasOnGround ;;
  refuel dt ;;
  animate dt ;;
  hitbox <- gets hitbox_of ;;
  damage_pass hitbox ;;
  collect_pickups hitbox ;;
  smash_eggs hitbox ;;
  finish env dt wasOnGround.

Definition update (env : Env) (dt : Q) : M unit :=
  tick_header env dt ;;
  s <- gets state ;;
  if negb (Mode_eqb (St.mode s) Playing) then idle dt
  else playing_tick env dt.

(** *** The events of the page *)

(** [frame()]: the real time since the last frame, in milliseconds, gives
    the step of the simulation. *)
Definition frame_dt (elapsedMs : Q) (g : Game) : Q :=
  let dtReal := clamp (elapsedMs / 1000) 0 (1 / 20) in
  if Mode_eqb (St.mode (state g)) Playing
  then clamp (dtReal * St.timeScale (state g)) 0 (1 / 15)
  else dtReal.

Definition frame (env : Env) (elapsedMs : Q) : M unit :=
  dt <- gets (frame_dt elapsedMs) ;;
  update env dt.

(** [keys.add(k)], [keys.delete(k)] and [keys.clear()] on the set [keys]. *)
Definition keys_add (k : string) : M unit :=
  modify (fun g => if has (keys g) k then g else set_keys (keys g ++ [k]) g).
Definition keys_delete (k : string) : M unit :=
  modify (fun g => set_keys (filter (fun k' => k' <> k) (keys g)) g).
Definition keys_clear : M unit := modify (set_keys []).

Definition keyDown (env : Env) (k : string) (isTyping : bool) : M unit :=
  keys_add k ;;
  s <- gets state ;;
  when (String.eqb k "Enter")
    (when (Mode_eqb (St.mode s) Title || Mode_eqb (St.mode s) Gameover) (startGame env)) ;;
  when (negb isTyping && (String.eqb k "1" || String.eqb k "2" || String.eqb k "3"))
    (if String.eqb k "1" then setTimeMode Slow
     else if String.eqb k "2" then setTimeMode Normal
     else setTimeMode Fast) ;;
  s <- gets state ;;
  when (String.eqb k "p" || String.eqb k "P")
    (if Mode_eqb (St.mode s) Playing
     then upd_state (St.set_mode Paused) ;; keys_clear
     else when (Mode_eqb (St.mode s) Paused)
            (upd_state (St.set_mode Playing) ;; keys_clear)) ;;
  s <- gets state ;;
  when (String.eqb k "r" || String.eqb k "R")
    (if negb (Mode_eqb (St.mode s) Playing) then startGame env else resetRun env).

Definition keyUp (k : string) : M unit := keys_delete k.

(** [randomName()] *)
Definition name_pool : list string :=
  [ "Nugget"; "Peep"; "Waffles"; "Biscuit"; "Sunny"; "Pip"; "Popcorn";
    "Beans"; "Doodle"; "Sprinkles"; "Captain Cluck"; "Turbo Beak" ]%string.

Definition randomName : M unit :=
  i <- randi 0 (inject_Z (Z.of_nat (length name_pool)) - 1) ;;
  setName (match name_pool !! Z.to_nat (Qfloor i) with
           | Some n => Text (JsString.literal n)
           | None => Nullish
           end).

Inductive Event : Type :=
  | KeyDown (k : string) (isTyping : bool)
  | KeyUp (k : string)
  | Frame (elapsedMs : Q)
  | NameInput (v : JsString.t)
  | NameRandom.

Definition handle (env : Env) (ev : Event) : M unit :=
  match ev with
  | KeyDown k isTyping => keyDown env k isTyping
  | KeyUp k => keyUp k
  | Frame elapsedMs => frame env elapsedMs
  | NameInput v => setName (Text v)
  | NameRandom => randomName
  end.

(** The state when the script has loaded: the literals of the source, the
    best score and the name as read from storage, the player at its
    initial placement, and the title screen. *)
Definition initial (best : Q) (name : JsString.t) : Game :=
  mkGame
    (St.mk Title 0 0 1.0 Normal 360 0 0 best 0%Z 2%Z 0%Z [100; 100] [100; 100]
           name 5.0 5.0 0.75 0 0 0)
    (Player.mk 220 340 0 0 54 44 true 0 0 0 0 None 0 0 0)
    (World.mk 0 0 0 2400 (-760) 0 22 160 320 96)
    [] [] [] [] []
    (Spawner.mk 0.35 0 false)
    1.4 1.2
    (Terrain.mk 0 0)
    [] O O.

(** The states the game can be in: the initial one, and what an event
    makes of one of them. *)
Inductive reachable : Game -> Prop :=
  | reachable_initial (best : Q) (name : NameArg) :
      reachable (initial best (normalizeName name))
  | reachable_handle (env : Env) (ev : Event) (g : Game) :
      reachable g -> reachable (exec (handle env ev) g).

(** ** Predicates used in the statements *)

(** Run from [g], the action [m] ends with a result and a state that
    satisfy [Q]. *)
Definition wp {A : Type} (m : M A) (Q : A -> Game -> Prop) (g : Game) : Prop :=
  Q (fst (m g)) (snd (m g)).

(** The action [m] keeps the property [P] of the state. *)
Definition preserves {A : Type} (P : Game -> Prop) (m : M A) : Prop :=
  forall g, P g -> P (snd (m g)).

(** [g'] differs from [g] at most in the particle pool and in the number
    of random numbers drawn: the trace a visual effect leaves. *)
Definition cosmetic (g g' : Game) : Prop :=
  exists ps n, g' = set_particles ps (set_rng n g).

(** The particles of a burst of feathers at [(x, y)]. *)
Definition feather_at (x y : Q) (p : Particle.particle) : Prop :=
  Particle.x p = x /\ Particle.y p = y /\ Particle.t p = 0
  /\ Particle.kind p = Feather
  /\ is_Some (Particle.rot p) /\ is_Some (Particle.vr p).

(** The bounds on the health of the hearts, on the corn counter and on the
    index of the active heart. *)
Definition Bounds (g : Game) : Prop :=
  Forall (fun h => 0 <= h <= 100) (St.hearts (state g))
  /\ (0 <= St.corn (state g))%Z
  /\ (0 <= St.heartIndex (state g) < St.heartsMax (state g))%Z.

(** Every pickup is worth one or three corn. *)
Definition pickups_ok (g : Game) : Prop :=
  Forall (fun p => Pickup.value p = 1%Z \/ Pickup.value p = 3%Z) (pickups g).

(** Between two passes of the obstacle spawner, a landing gap is owed
    exactly when a run is under way. *)
Definition spawner_ok (g : Game) : Prop :=
  Spawner.needLanding (spawner g) = (0 <? Spawner.runChunksLeft (spawner g)).

(** The array [state.hearts] has one entry for each heart. *)
Definition hearts_shape (g : Game) : Prop :=
  Z.of_nat (length (St.hearts (state g))) = St.heartsMax (state g).

Definition Inv (g : Game) : Prop := Bounds g /\ hearts_shape g /\ pickups_ok g.

(** The pool of obstacles is [base] with more obstacles after it. *)
Definition extends (base : list Obstacle.obstacle) (g : Game) : Prop :=
  exists more, obstacles g = base ++ more.

(** The fuel and the refuel cooldown satisfy [S], and the two constants of
    flight are [fuelMax] and [delay]. *)
Definition fuel_in (S : Q -> Q -> Prop) (fuelMax delay : Q) (g : Game) : Prop :=
  S (St.flyFuel (state g)) (St.flyRefuelCd (state g))
  /\ St.flyFuelMax (state g) = fuelMax
  /\ St.flyRefuelDelay (state g) = delay.



(** The four tests of the damage pass that let an obstacle inflict damage:
    the hitbox overlaps it, the player does not stand on it, the bottom of
    the hitbox is more than 4 below its top, and the hit is front-on. *)
Definition qualifies (hitbox : Hitbox) (pl : Player.player) (o : Obstacle.obstacle)
  : bool :=
  hits_obstacle hitbox o && negb (stands_on pl o) && negb (aboveTop hitbox o)
  && fromFront pl o.

(** ** The page around the simulation *)

(** *** [fitCanvas()]

    The canvas element has a size of its own, [canvas.width] by
    [canvas.height], that [fitCanvas] derives from the rectangle the
    element takes on the page and from the pixel ratio of the window. *)
Record Canvas : Type := mkCanvas {
  cv_width : Q;
  cv_height : Q
}.

(** [window.devicePixelRatio || 1]: [undefined] and 0 give 1. *)
Definition dpr_or1 (devicePixelRatio : option Q) : Q :=
  match devicePixelRatio with
  | Some d => if Qeq_bool d 0 then 1 else d
  | None => 1
  end.

(** [[
  function fitCanvas() {
    const rect = canvas.getBoundingClientRect();
    const dpr = Math.max(1, Math.min(2, window.devicePixelRatio || 1));
    const w = Math.max(320, Math.floor(rect.width * dpr));
    const h = Math.max(240, Math.floor(rect.height * dpr));
    if (canvas.width !== w || canvas.height !== h) {
      canvas.width = w;
      canvas.height = h;
    }
  }
]] *)
Definition fitCanvas (rect_width rect_height : Q) (devicePixelRatio : option Q)
    (c : Canvas) : Canvas :=
  let dpr := Qmax 1 (Qmin 2 (dpr_or1 devicePixelRatio)) in
  let w := Qmax 320 (floorQ (rect_width * dpr)) in
  let h := Qmax 240 (floorQ (rect_height * dpr)) in
  if negb (Qeq_bool (cv_width c) w) || negb (Qeq_bool (cv_height c) h)
  then mkCanvas w h
  else c.

(** What [update] and [resetRun] read after their call of [fitCanvas]. *)
Definition env_of (c : Canvas) (name : option JsString.t) : Env :=
  mkEnv (cv_width c) (cv_height c) name.

(** *** [setHeartFill(idx, hp01)]

    The heart gauges of the page: for each of the two hearts a fill, of
    which the opacity is set, and a clip rectangle, of which [y] and
    [height] are set.  Either element may be missing from the page. *)
Record HeartRect : Type := mkHeartRect {
  hr_y : Q;
  hr_height : Q
}.

Record Ui : Type := mkUi {
  hpRect1 : option HeartRect;
  hpFill1 : option Q;
  hpRect2 : option HeartRect;
  hpFill2 : option Q
}.

(** The heart a call addresses: [idx === 0 ? .. 1 : .. 2]. *)
Definition fill_of (idx : Z) (u : Ui) : option Q :=
  if Z.eqb idx 0 then hpFill1 u else hpFill2 u.
Definition rect_of (idx : Z) (u : Ui) : option HeartRect :=
  if Z.eqb idx 0 then hpRect1 u else hpRect2 u.

Definition set_fill (idx : Z) (opacity : Q) (u : Ui) : Ui :=
  if Z.eqb idx 0
  then mkUi (hpRect1 u) (Some opacity) (hpRect2 u) (hpFill2 u)
  else mkUi (hpRect1 u) (hpFill1 u) (hpRect2 u) (Some opacity).
Definition set_rect (idx : Z) (r : HeartRect) (u : Ui) : Ui :=
  if Z.eqb idx 0
  then mkUi (Some r) (hpFill1 u) (hpRect2 u) (hpFill2 u)
  else mkUi (hpRect1 u) (hpFill1 u) (Some r) (hpFill2 u).

(** [[
  function setHeartFill(idx, hp01) {
    const hp = clamp(hp01, 0, 1);
    const fill = idx === 0 ? ui.hpFill1 : ui.hpFill2;
    const rect = idx === 0 ? ui.hpRect1 : ui.hpRect2;
    if (fill) fill.style.opacity = String(lerp(0.10, 1.0, hp));
    if (!rect) return;
    const fullH = 24;
    const h = Math.max(0, Math.round(fullH * hp));
    const y = fullH - h;
    rect.setAttribute('y', String(y));
    rect.setAttribute('height', String(h));
  }
]] *)
Definition setHeartFill (idx : Z) (hp01 : Q) (u : Ui) : Ui :=
  let hp := clamp hp01 0 1 in
  let fill := fill_of idx u in
  let rect := rect_of idx u in
  let u := if bool_decide (is_Some fill) then set_fill idx (lerp 0.10 1.0 hp) u else u in
  if negb (bool_decide (is_Some rect)) then u
  else
    let fullH := 24 in
    let h := Qmax 0 (roundQ (fullH * hp)) in
    let y := fullH - h in
    set_rect idx (mkHeartRect y h) u.

(** * Properties *)

(** Some decision procedures take the whole context into account; a proof
    that does not concern the environment forgets it first. *)
Ltac forget_env := try clear dbl; try clear pow; try clear PI; try clear random.

Lemma Qleb_le (x y : Q) : (x <=? y) = true <-> x <= y.
Proof. apply Qle_bool_iff. Qed.

Lemma Qleb_gt (x y : Q) : (x <=? y) = false <-> y < x.
Proof.
  unfold Qleb. split; intro H.
  - apply Qnot_le_lt. intro L. apply Qle_bool_iff in L. congruence.
  - destruct (Qle_bool x y) eqn:E; [|reflexivity].
    apply Qle_bool_iff in E. lra.
Qed.

Lemma Qltb_lt (x y : Q) : (x <? y) = true <-> x < y.
Proof.
  unfold Qltb. rewrite negb_true_iff. apply (Qleb_gt y x).
Qed.

Lemma Qltb_ge (x y : Q) : (x <? y) = false <-> y <= x.
Proof.
  unfold Qltb. rewrite negb_false_iff. apply Qle_bool_iff.
Qed.


(** ** Reasoning about actions *)

Lemma preserves_ret {A : Type} (P : Game -> Prop) (a : A) : preserves P (ret a).
Proof. intros g H. exact H. Qed.

Lemma preserves_gets {A : Type} (P : Game -> Prop) (f : Game -> A) :
  preserves P (gets f).
Proof. intros g H. exact H. Qed.

Lemma preserves_bind {A B : Type} (P : Game -> Prop) (m : M A) (k : A -> M B) :
  preserves P m -> (forall a, preserves P (k a)) -> preserves P (bind m k).
Proof.
  intros Hm Hk g H. unfold bind.
  specialize (Hm g H). destruct (m g) as [a g']. apply Hk, Hm.
Qed.

Lemma preserves_modify (P : Game -> Prop) (f : Game -> Game) :
  (forall g, P g -> P (f g)) -> preserves P (modify f).
Proof. intros Hf g H. apply Hf, H. Qed.

Lemma preserves_when (P : Game -> Prop) (c : bool) (m : M unit) :
  preserves P m -> preserves P (when c m).
Proof. intros Hm. destruct c; [exact Hm | apply preserves_ret]. Qed.

Lemma preserves_repeatM (P : Game -> Prop) (n : nat) (m : M unit) :
  preserves P m -> preserves P (repeatM n m).
Proof.
  intros Hm. induction n as [|n IH]; cbn [repeatM].
  - apply preserves_ret.
  - apply preserves_bind; [exact Hm | intros _; exact IH].
Qed.

Lemma cosmetic_refl (g : Game) : cosmetic g g.
Proof. exists (particles g), (rng g). destruct g; reflexivity. Qed.

Lemma cosmetic_trans (g1 g2 g3 : Game) :
  cosmetic g1 g2 -> cosmetic g2 g3 -> cosmetic g1 g3.
Proof.
  intros (ps & n & ->) (ps' & n' & ->). exists ps', n'. reflexivity.
Qed.

Lemma cosmetic_preserved {A : Type} (m : M A) :
  (forall g, cosmetic g (snd (m g))) -> forall g0, preserves (cosmetic g0) m.
Proof. intros Hm g0 g H. eapply cosmetic_trans; [exact H | apply Hm]. Qed.

Lemma rand_cosmetic (a b : Q) (g : Game) : cosmetic g (snd (rand a b g)).
Proof. exists (particles g), (S (rng g)). destruct g; reflexivity. Qed.

Lemma randi_cosmetic (a b : Q) (g : Game) : cosmetic g (snd (randi a b g)).
Proof. exists (particles g), (S (rng g)). destruct g; reflexivity. Qed.

Lemma push_particle_cosmetic (p : Particle.particle) (g : Game) :
  cosmetic g (snd (push_particle p g)).
Proof. exists (particles g ++ [p]), (rng g). destruct g; reflexivity. Qed.

Lemma featherBurst_cosmetic (x y : Q) (g : Game) :
  cosmetic g (exec (featherBurst x y) g).
Proof.
  assert (H : preserves (cosmetic g) (featherBurst x y)).
  { unfold featherBurst.
    apply preserves_bind; [apply cosmetic_preserved, randi_cosmetic | intros n].
    apply preserves_repeatM.
    repeat (apply preserves_bind; [apply cosmetic_preserved, rand_cosmetic | intros ?]).
    apply cosmetic_preserved, push_particle_cosmetic. }
  apply H, cosmetic_refl.
Qed.


(** ** Names *)

Lemma replace_ws_only_spaces (s : JsString.t) (b : bool) :
  only_spaces (JsString.replace_ws b s).
Proof.
  revert b. induction s as [|c r IH]; intros b; cbn [JsString.replace_ws].
  - constructor.
  - destruct (JsString.is_space c) eqn:E.
    + destruct b; [apply IH | constructor; [reflexivity | apply IH]].
    + constructor; [congruence | apply IH].
Qed.

Lemma replace_ws_no_double (s : JsString.t) (b : bool) :
  no_double_space (JsString.replace_ws b s)
  /\ (b = true -> starts_clean (JsString.replace_ws b s)).
Proof.
  revert b. induction s as [|c r IH]; intros b; cbn [JsString.replace_ws].
  - split; [exact I | intros _ x; discriminate].
  - destruct (JsString.is_space c) eqn:E.
    + destruct b.
      * apply IH.
      * split; [| discriminate].
        destruct (IH true) as [Hn Hs]. cbn [no_double_space]. split; [| exact Hn].
        destruct (JsString.replace_ws true r) as [|c2 r2] eqn:Er; [exact I |].
        rewrite (Hs eq_refl c2 eq_refl). apply andb_false_r.
    + split.
      * cbn [no_double_space]. split; [| apply IH].
        destruct (JsString.replace_ws false r); [exact I | rewrite E; reflexivity].
      * intros _ x Hx. cbn in Hx. congruence.
Qed.

Lemma no_double_space_tail (c : N) (s : JsString.t) :
  no_double_space (c :: s) -> no_double_space s.
Proof. forget_env. cbn [no_double_space]. tauto. Qed.

Lemma trimStart_keeps (s : JsString.t) :
  only_spaces s -> no_double_space s ->
  only_spaces (JsString.trimStart s) /\ no_double_space (JsString.trimStart s)
  /\ starts_clean (JsString.trimStart s).
Proof.
  induction s as [|c r IH]; intros Ho Hn; cbn [JsString.trimStart].
  - split; [constructor | split; [exact I | intros x; discriminate]].
  - destruct (JsString.is_space c) eqn:E.
    + apply IH; [inversion Ho; assumption | eapply no_double_space_tail, Hn].
    + split; [exact Ho | split; [exact Hn |]].
      intros x Hx. cbn in Hx. congruence.
Qed.

Lemma trimEnd_head (s : JsString.t) (c : N) :
  head (JsString.trimEnd s) = Some c -> head s = Some c.
Proof.
  destruct s as [|a r]; cbn [JsString.trimEnd]; [discriminate |].
  destruct (JsString.trimEnd r); [destruct (JsString.is_space a) |];
    cbn; congruence.
Qed.

Lemma trimEnd_keeps (s : JsString.t) :
  only_spaces s -> no_double_space s ->
  only_spaces (JsString.trimEnd s) /\ no_double_space (JsString.trimEnd s)
  /\ ends_clean (JsString.trimEnd s).
Proof.
  forget_env.
  induction s as [|c r IH]; intros Ho Hn; cbn [JsString.trimEnd].
  - split; [constructor | split; [exact I | intros x; discriminate]].
  - assert (Ho' : only_spaces r) by (inversion Ho; assumption).
    destruct (IH Ho' (no_double_space_tail _ _ Hn)) as (IH1 & IH2 & IH3).
    destruct (JsString.trimEnd r) as [|c2 r2] eqn:Er.
    + destruct (JsString.is_space c) eqn:E.
      * split; [constructor | split; [exact I | intros x; discriminate]].
      * split; [constructor; [congruence | constructor] |].
        split; [cbn; tauto |].
        intros x Hx. cbn in Hx. congruence.
    + split; [constructor; [inversion Ho; assumption | exact IH1] |].
      split.
      * change (JsString.is_space c && JsString.is_space c2 = false
                /\ no_double_space (c2 :: r2)).
        split; [| exact IH2].
        destruct r as [|c2' r']; [discriminate |].
        assert (c2' = c2).
        { pose proof (trimEnd_head (c2' :: r') c2) as Hh.
          rewrite Er in Hh. specialize (Hh eq_refl). cbn in Hh. congruence. }
        subst c2'. apply Hn.
      * intros x Hx. apply IH3. exact Hx.
Qed.

Lemma trimEnd_starts_clean (s : JsString.t) :
  starts_clean s -> starts_clean (JsString.trimEnd s).
Proof. intros H c Hc. apply H, trimEnd_head, Hc. Qed.

Lemma take_no_double (n : nat) (s : JsString.t) :
  no_double_space s -> no_double_space (take n s).
Proof.
  revert n. induction s as [|c r IH]; intros n Hn.
  - destruct n; exact I.
  - destruct n as [|n]; [exact I |]. cbn [take no_double_space].
    split; [| apply IH; eapply no_double_space_tail, Hn].
    destruct r as [|c2 r2]; [destruct n; exact I |].
    destruct n; [exact I | apply Hn].
Qed.

Lemma take_starts_clean (n : nat) (s : JsString.t) :
  starts_clean s -> starts_clean (take n s).
Proof.
  intros H c Hc. apply H. destruct s, n; cbn in *; congruence.
Qed.

(** The string before the cut: white space collapsed, ends trimmed. *)
Lemma trimmed_shape (s : JsString.t) :
  let s' := JsString.trim (JsString.replace_ws false s) in
  only_spaces s' /\ no_double_space s' /\ starts_clean s' /\ ends_clean s'.
Proof.
  cbv zeta. unfold JsString.trim.
  destruct (trimStart_keeps (JsString.replace_ws false s)) as (H1 & H2 & H3).
  { apply replace_ws_only_spaces. }
  { apply replace_ws_no_double. }
  destruct (trimEnd_keeps _ H1 H2) as (K1 & K2 & K3).
  split; [exact K1 | split; [exact K2 | split; [| exact K3]]].
  apply trimEnd_starts_clean, H3.
Qed.

(** ** Damage *)

Lemma hurt_noop_eq (g : Game) (o : Obstacle.obstacle) (amount : Q) :
  St.mode (state g) <> Playing \/ 0 < Player.invuln (player g) ->
  hurt o amount g = (tt, g).
Proof.
  intros H. unfold hurt, bind, gets.
  destruct (Mode_eqb (St.mode (state g)) Playing) eqn:Em; cbn [negb].
  - destruct H as [H | H].
    + destruct (St.mode (state g)); try discriminate; congruence.
    + apply Qltb_lt in H. rewrite H. reflexivity.
  - reflexivity.
Qed.

Lemma cosmetic_state (g g' : Game) : cosmetic g g' -> state g' = state g.
Proof. intros (ps & n & ->). reflexivity. Qed.

Lemma cosmetic_player (g g' : Game) : cosmetic g g' -> player g' = player g.
Proof. intros (ps & n & ->). reflexivity. Qed.

(** When [hurt] does not return at once, it is [knock_back], a visual
    effect, and [heart_out]. *)
Lemma hurt_run (g : Game) (o : Obstacle.obstacle) (amount : Q) :
  St.mode (state g) = Playing ->
  ~ 0 < Player.invuln (player g) ->
  exists g1,
    cosmetic (exec (knock_back o amount) g) g1
    /\ exec (hurt o amount) g = exec heart_out g1.
Proof.
  intros Hm Hi.
  assert (Hi' : (0 <? Player.invuln (player g)) = false).
  { apply Qltb_ge. apply Qnot_lt_le. exact Hi. }
  unfold hurt, exec, bind at 1 2, gets at 1 2.
  rewrite Hm, Hi'. cbn [Mode_eqb negb].
  unfold bind at 1. destruct (knock_back o amount g) as [[] ga] eqn:Ea.
  unfold bind at 1, gets at 1.
  unfold bind at 1.
  pose proof (featherBurst_cosmetic
    (Player.x (player ga) + Player.w (player ga) * 0.55)
    (Player.y (player ga) + Player.h (player ga) * 0.55) ga) as Hc.
  unfold exec in Hc.
  destruct (featherBurst _ _ ga) as [[] g1]. cbn [snd] in *.
  exists g1. split; [exact Hc | reflexivity].
Qed.

Lemma at_index_store_eq (l : list Q) (i : Z) (v : Q) :
  (Z.to_nat i < length l)%nat -> at_index (store_index l i v) i = v.
Proof.
  intros H. unfold at_index, store_index.
  rewrite list_lookup_insert_eq by exact H. reflexivity.
Qed.

Lemma lookup_store_eq (l : list Q) (i : Z) (v : Q) :
  (Z.to_nat i < length l)%nat -> store_index l i v !! Z.to_nat i = Some v.
Proof. intros H. unfold store_index. apply list_lookup_insert_eq, H. Qed.

Lemma lookup_store_ne (l : list Q) (i j : Z) (v : Q) :
  Z.to_nat i <> Z.to_nat j -> store_index l i v !! Z.to_nat j = l !! Z.to_nat j.
Proof. intros H. unfold store_index. apply list_lookup_insert_ne, H. Qed.

Lemma length_store (l : list Q) (i : Z) (v : Q) :
  length (store_index l i v) = length l.
Proof. unfold store_index. apply length_insert. Qed.

(** What [knock_back] leaves in [state] and in the timers and the
    velocity of the player. *)
Lemma knock_back_effect (g : Game) (o : Obstacle.obstacle) (amount : Q) :
  let g' := exec (knock_back o amount) g in
  let s := state g in
  state g' =
    St.set_shake (Qmax (St.shake s) 0.10)
      (St.set_hearts
         (store_index (St.hearts s) (St.heartIndex s)
            (Qmax 0 (at_index (St.hearts s) (St.heartIndex s) - amount))) s)
  /\ Player.invuln (player g') = 1.0
  /\ Player.vx (player g') =
       320 * (if Player.x (player g) + Player.w (player g) * 0.5
                 <? Obstacle.x o + Obstacle.w o * 0.5 then -1 else 1)
  /\ obstacles g' = obstacles g /\ pickups g' = pickups g /\ eggs g' = eggs g
  /\ spawner g' = spawner g.
Proof.
  unfold knock_back, exec, bind, gets, upd_state, upd_player, modify.
  cbn -[Qmax Qmin clamp Qltb Qleb Qmult].
  destruct (Player.x (player g) + Player.w (player g) * 0.5
            <? Obstacle.x o + Obstacle.w o * 0.5);
    repeat split; reflexivity.
Qed.

(** The three ways [heart_out] can go. *)
Lemma heart_out_alive (g : Game) :
  ~ at_index (St.hearts (state g)) (St.heartIndex (state g)) <= 0 ->
  exec heart_out g = g.
Proof.
  intros H. unfold heart_out, exec, bind, gets.
  apply Qnot_le_lt, Qleb_gt in H. rewrite H. reflexivity.
Qed.

Lemma heart_out_next (g : Game) :
  at_index (St.hearts (state g)) (St.heartIndex (state g)) <= 0 ->
  (St.heartIndex (state g) < St.heartsMax (state g) - 1)%Z ->
  let s := state g in
  let i := St.heartIndex s in
  let g' := exec heart_out g in
  state g' =
    St.set_shake 0.18
      (St.set_heartsSmooth (store_index (St.heartsSmooth s) (i + 1) 100)
         (St.set_hearts (store_index (store_index (St.hearts s) i 0) (i + 1) 100)
            (St.set_heartIndex (i + 1)%Z s)))
  /\ player g' = Player.set_invuln 1.2 (player g)
  /\ obstacles g' = obstacles g /\ pickups g' = pickups g /\ eggs g' = eggs g
  /\ spawner g' = spawner g.
Proof.
  intros H1 H2. unfold heart_out, exec, bind, gets.
  apply Qleb_le in H1. rewrite H1. apply Z.ltb_lt in H2. cbn [when].
  rewrite H2. cbn. repeat split; reflexivity.
Qed.

Lemma heart_out_last (g : Game) :
  at_index (St.hearts (state g)) (St.heartIndex (state g)) <= 0 ->
  ~ (St.heartIndex (state g) < St.heartsMax (state g) - 1)%Z ->
  let s := state g in
  let g' := exec heart_out g in
  state g' = St.set_best (Qmax (St.best s) (floorQ (St.score s))) (St.set_mode Gameover s)
  /\ player g' = player g
  /\ obstacles g' = obstacles g /\ pickups g' = pickups g /\ eggs g' = eggs g
  /\ spawner g' = spawner g.
Proof.
  intros H1 H2. unfold heart_out, exec, bind, gets.
  apply Qleb_le in H1. rewrite H1. apply Z.ltb_nlt in H2. cbn [when].
  rewrite H2. cbn -[Qmax floorQ]. repeat split; reflexivity.
Qed.

(** ** Weakest preconditions *)

Lemma wp_bind {A B : Type} (m : M A) (k : A -> M B) (Q : B -> Game -> Prop) (g : Game) :
  wp m (fun a g' => wp (k a) Q g') g -> wp (bind m k) Q g.
Proof.
  forget_env. unfold wp, bind. destruct (m g) as [a g']. cbn. tauto. Qed.

Lemma wp_mono {A : Type} (m : M A) (Q Q' : A -> Game -> Prop) (g : Game) :
  wp m Q g -> (forall a g', Q a g' -> Q' a g') -> wp m Q' g.
Proof. unfold wp. intros H HQ. apply HQ, H. Qed.

Lemma wp_preserves {A : Type} (P : Game -> Prop) (m : M A) (g : Game) :
  preserves P m -> P g -> wp m (fun _ g' => P g') g.
Proof. intros Hm H. apply Hm, H. Qed.

Lemma exec_bind {A B : Type} (m : M A) (k : A -> M B) (g : Game) :
  exec (bind m k) g = exec (k (fst (m g))) (snd (m g)).
Proof. unfold exec, bind. destruct (m g). reflexivity. Qed.

(** ** A tactic for [preserves]

    [pres leaf] follows the structure of an action down to its primitive
    steps, for which it calls [leaf]; an action it does not know is looked
    up in the hints of [pres] and unfolded if there is none. *)

Create HintDb pres discriminated.

Ltac head_of t :=
  lazymatch t with
  | ?f _ => head_of f
  | _ => t
  end.

Ltac pres leaf :=
  lazymatch goal with
  | |- preserves _ (bind _ _) =>
      apply preserves_bind; [pres leaf | intros ?; pres leaf]
  | |- preserves _ (ret _) => apply preserves_ret
  | |- preserves _ (gets _) => apply preserves_gets
  | |- preserves _ (when ?c _) => apply preserves_when; pres leaf
  | |- preserves _ (repeatM _ _) => apply preserves_repeatM; pres leaf
  | |- preserves _ (modify _) => apply preserves_modify; leaf
  | |- preserves _ (if ?c then _ else _) => destruct c; pres leaf
  | |- preserves _ (match ?x with _ => _ end) => destruct x; pres leaf
  | |- preserves _ Math_random => apply preserves_modify; leaf
  | |- preserves _ fresh_id => apply preserves_modify; leaf
  | |- preserves _ ?m =>
      first
        [ solve [auto with pres]
        | let h := head_of m in unfold h; pres leaf ]
  end.

(** ** Names in words *)

(** The first piece of a string, and the words after it. *)
Definition first_piece (s : JsString.t) : JsString.t := hd [] (pieces s).
Definition later_words (s : JsString.t) : list JsString.t :=
  filter (fun w => w <> []) (tl (pieces s)).

Lemma words_split (s : JsString.t) :
  words s = if decide (first_piece s = []) then later_words s
            else first_piece s :: later_words s.
Proof.
  forget_env. unfold words, first_piece, later_words.
  destruct (pieces s) as [|w ws]; [reflexivity |]. cbn [hd tl].
  rewrite filter_cons. destruct (decide (w = [])) as [E | E].
  - rewrite decide_False by (intros H; apply H, E). reflexivity.
  - rewrite decide_True by exact E. reflexivity.
Qed.

Lemma pieces_space (c : N) (r : JsString.t) :
  JsString.is_space c = true ->
  first_piece (c :: r) = [] /\ later_words (c :: r) = words r.
Proof.
  forget_env. intros E. unfold first_piece, later_words, words. cbn [pieces].
  rewrite E. split; reflexivity.
Qed.

Lemma pieces_letter (c : N) (r : JsString.t) :
  JsString.is_space c = false ->
  first_piece (c :: r) = c :: first_piece r /\ later_words (c :: r) = later_words r.
Proof.
  forget_env. intros E. unfold first_piece, later_words. cbn [pieces].
  rewrite E. destruct (pieces r) as [|w ws] eqn:Ep.
  - destruct r; cbn in Ep; [discriminate |].
    destruct (JsString.is_space n); [discriminate |].
    destruct (pieces r); discriminate.
  - split; reflexivity.
Qed.

Lemma words_space (c : N) (r : JsString.t) :
  JsString.is_space c = true -> words (c :: r) = words r.
Proof.
  forget_env. intros E. rewrite (words_split (c :: r)).
  destruct (pieces_space c r E) as [-> ->]. reflexivity.
Qed.

Lemma words_letter (c : N) (r : JsString.t) :
  JsString.is_space c = false ->
  words (c :: r) = (c :: first_piece r) :: later_words r.
Proof.
  forget_env. intros E. rewrite (words_split (c :: r)).
  destruct (pieces_letter c r E) as [-> ->]. reflexivity.
Qed.

(** Replacing runs of white space keeps the words. *)
Lemma replace_ws_words (s : JsString.t) (b : bool) :
  words (JsString.replace_ws b s) = words s
  /\ (b = false ->
      first_piece (JsString.replace_ws b s) = first_piece s
      /\ later_words (JsString.replace_ws b s) = later_words s).
Proof.
  forget_env.
  revert b. induction s as [|c r IH]; intros b; cbn [JsString.replace_ws].
  - split; [reflexivity | intros _; split; reflexivity].
  - destruct (JsString.is_space c) eqn:E.
    + destruct b.
      * split; [| discriminate]. rewrite (words_space c r E). apply IH.
      * assert (Es : JsString.is_space JsString.space = true) by reflexivity.
        destruct (pieces_space JsString.space (JsString.replace_ws true r) Es)
          as [F1 L1].
        destruct (pieces_space c r E) as [F2 L2].
        destruct (IH true) as [W _].
        split.
        -- rewrite (words_space _ _ Es), (words_space c r E). exact W.
        -- intros _. rewrite F1, F2, L1, L2. split; [reflexivity | exact W].
    + destruct (IH false) as [_ P]. destruct (P eq_refl) as [F L].
      destruct (pieces_letter c (JsString.replace_ws false r) E) as [F1 L1].
      destruct (pieces_letter c r E) as [F2 L2].
      split.
      * rewrite (words_letter _ _ E), (words_letter c r E), F, L. reflexivity.
      * intros _. rewrite F1, F2, L1, L2, F, L. split; reflexivity.
Qed.

(** Trimming keeps the words. *)
Lemma trimStart_words (s : JsString.t) : words (JsString.trimStart s) = words s.
Proof.
  forget_env.
  induction s as [|c r IH]; cbn [JsString.trimStart]; [reflexivity |].
  destruct (JsString.is_space c) eqn:E; [| reflexivity].
  rewrite (words_space c r E). exact IH.
Qed.

Lemma trimEnd_pieces (s : JsString.t) :
  first_piece (JsString.trimEnd s) = first_piece s
  /\ later_words (JsString.trimEnd s) = later_words s.
Proof.
  forget_env.
  induction s as [|c r IH]; cbn [JsString.trimEnd]; [split; reflexivity |].
  destruct IH as [F L].
  assert (W : words (JsString.trimEnd r) = words r).
  { rewrite (words_split (JsString.trimEnd r)), (words_split r), F, L. reflexivity. }
  destruct (JsString.trimEnd r) as [|c2 r2] eqn:Er.
  - destruct (JsString.is_space c) eqn:E.
    + destruct (pieces_space c r E) as [-> ->]. rewrite <- W. split; reflexivity.
    + destruct (pieces_letter c r E) as [-> ->].
      destruct (pieces_letter c [] E) as [-> ->]. rewrite F, L.
      split; reflexivity.
  - destruct (JsString.is_space c) eqn:E.
    + destruct (pieces_space c r E) as [-> ->].
      destruct (pieces_space c (c2 :: r2) E) as [-> ->].
      split; [reflexivity | exact W].
    + destruct (pieces_letter c r E) as [-> ->].
      destruct (pieces_letter c (c2 :: r2) E) as [-> ->].
      rewrite F, L. split; reflexivity.
Qed.

Lemma trim_words (s : JsString.t) :
  words (JsString.trim (JsString.replace_ws false s)) = words s.
Proof.
  forget_env. unfold JsString.trim.
  destruct (trimEnd_pieces (JsString.trimStart (JsString.replace_ws false s)))
    as [F L].
  rewrite (words_split (JsString.trimEnd _)), F, L, <- words_split.
  rewrite trimStart_words. apply replace_ws_words.
Qed.

(** A string with single spaces only and none at its end is its first
    piece and then its later words, each after a space. *)
Lemma join_later_words (s : JsString.t) :
  only_spaces s -> no_double_space s -> ends_clean s ->
  s = first_piece s
      ++ match later_words s with
         | [] => []
         | _ :: _ => JsString.space :: join_words (later_words s)
         end.
Proof.
  forget_env.
  induction s as [|c r IH]; intros Ho Hn He; [reflexivity |].
  assert (Ho' : only_spaces r) by (inversion Ho; assumption).
  assert (Hn' : no_double_space r) by (eapply no_double_space_tail, Hn).
  assert (He' : ends_clean r).
  { intros x Hx. apply He. destruct r; [discriminate | exact Hx]. }
  specialize (IH Ho' Hn' He').
  destruct (JsString.is_space c) eqn:E.
  - destruct (pieces_space c r E) as [-> ->].
    assert (c = JsString.space) by (inversion Ho; auto). subst c.
    destruct r as [|c2 r2].
    { specialize (He JsString.space eq_refl). discriminate He. }
    assert (E2 : JsString.is_space c2 = false).
    { destruct Hn as [Hd _]. rewrite E in Hd. exact Hd. }
    rewrite (words_letter c2 r2 E2).
    destruct (pieces_letter c2 r2 E2) as [F L]. rewrite F, L in IH.
    cbn [app join_words]. f_equal.
    destruct (later_words r2) as [|w ws]; [rewrite app_nil_r in IH |]; exact IH.
  - destruct (pieces_letter c r E) as [-> ->].
    cbn [app]. f_equal. exact IH.
Qed.

Lemma join_words_id (s : JsString.t) :
  only_spaces s -> no_double_space s -> starts_clean s -> ends_clean s ->
  join_words (words s) = s.
Proof.
  forget_env. intros Ho Hn Hs He.
  pose proof (join_later_words s Ho Hn He) as H.
  rewrite words_split. destruct (decide (first_piece s = [])) as [E | E].
  - destruct s as [|c r]; [reflexivity |].
    pose proof (Hs c eq_refl) as Hc.
    destruct (pieces_letter c r Hc) as [F _]. rewrite F in E. discriminate E.
  - etransitivity; [| symmetry; exact H].
    destruct (later_words s); [rewrite app_nil_r |]; reflexivity.
Qed.

(** The string that [normalizeName] cuts is the words of its argument
    with one space between two of them. *)
Lemma trim_in_words (s : JsString.t) :
  JsString.trim (JsString.replace_ws false s) = join_words (words s).
Proof.
  forget_env.
  destruct (trimmed_shape s) as (H1 & H2 & H3 & H4). cbv zeta in *.
  rewrite <- (trim_words s). symmetry. apply join_words_id; assumption.
Qed.

Lemma normalizeName_in_words_eq (s : JsString.t) :
  normalizeName (Text s) = normalizeName_in_words s.
Proof.
  forget_env.
  unfold normalizeName, normalizeName_in_words, JsString.slice0, String_of.
  cbv zeta. rewrite trim_in_words.
  destruct (take 14 (join_words (words s))) as [|c r]; reflexivity.
Qed.

(** ** Where a chunk is placed *)

Ltac obs_leaf :=
  let g := fresh "g" in
  let H := fresh "H" in
  intros g H; exact H.

Ltac ext_leaf :=
  let g := fresh "g" in
  let more := fresh "more" in
  let H := fresh "H" in
  intros g (more & H); unfold extends;
  first
    [ solve [ exists more; exact H ]
    | solve [ eexists; cbn; rewrite H, <- app_assoc; reflexivity ] ].

Lemma pick_obstacles (base : list Obstacle.obstacle) :
  preserves (fun g => obstacles g = base) pick.
Proof. pres obs_leaf. Qed.

Lemma makeWH_obstacles (base : list Obstacle.obstacle) (t : ObstacleType) :
  preserves (fun g => obstacles g = base) (makeWH t).
Proof. pres obs_leaf. Qed.

Lemma spawnObstacle_extends (base : list Obstacle.obstacle) (w h : Q)
    (k : ObstacleKind) (c : string) (x : Q) :
  preserves (extends base) (spawnObstacle w h k c x).
Proof. pres ext_leaf. Qed.

Lemma spawnCorn_extends (base : list Obstacle.obstacle) (x : Q) :
  preserves (extends base) (spawnCorn x).
Proof. pres ext_leaf. Qed.

Lemma spawnBigCorn_extends (base : list Obstacle.obstacle) (x : Q) :
  preserves (extends base) (spawnBigCorn x).
Proof. pres ext_leaf. Qed.

Lemma end_chunk_extends (base : list Obstacle.obstacle) (speedFactor : Q) :
  preserves (extends base) (end_chunk speedFactor).
Proof. pres ext_leaf. Qed.

#[local] Hint Resolve spawnObstacle_extends spawnCorn_extends spawnBigCorn_extends
  end_chunk_extends : pres.

Lemma chunk_x_eq (W : Q) (g : Game) :
  chunk_x W g =
    (match lastEndX g with
     | Some e => Qmax (W + (40 + random (rng g) * (140 - 40))) (e + reqPx g)
     | None => W + (40 + random (rng g) * (140 - 40))
     end, set_rng (S (rng g)) g).
Proof. reflexivity. Qed.

(** A pass that places a chunk puts its first obstacle right after the
    obstacles there were, at least [reqPx] to the right of the end of the
    last of them. *)
Lemma place_chunk_first (W speedFactor : Q) (g : Game) (lastObs : Obstacle.obstacle) :
  last (obstacles g) = Some lastObs ->
  exists o1,
    obstacles (exec (place_chunk W speedFactor) g) !! length (obstacles g) = Some o1
    /\ Obstacle.x lastObs + Obstacle.w lastObs + reqPx g <= Obstacle.x o1.
Proof.
  intros Hlast.
  change (wp (place_chunk W speedFactor)
            (fun _ g' => exists o1,
               obstacles g' !! length (obstacles g) = Some o1
               /\ Obstacle.x lastObs + Obstacle.w lastObs + reqPx g <= Obstacle.x o1) g).
  unfold place_chunk.
  apply wp_bind. unfold wp at 1. cbn [fst snd gets].
  apply wp_bind. unfold wp at 1. cbn [fst snd Math_random].
  apply wp_bind. unfold wp at 1. rewrite chunk_x_eq. cbn [fst snd].
  change (lastEndX (set_rng (S (rng g)) g)) with (lastEndX g).
  change (reqPx (set_rng (S (rng g)) g)) with (reqPx g).
  unfold lastEndX at 1. rewrite Hlast.
  match goal with |- wp _ _ ?g1 => set (ga := g1) end.
  match goal with |- context [Qmax ?a ?b] => set (x1 := Qmax a b) end.
  assert (Hx1 : Obstacle.x lastObs + Obstacle.w lastObs + reqPx g <= x1)
    by apply Q.le_max_r.
  clearbody x1.
  assert (Ha : obstacles ga = obstacles g) by reflexivity. clearbody ga.
  apply wp_bind. eapply wp_mono.
  { apply (wp_preserves (fun g' => obstacles g' = obstacles g));
      [apply pick_obstacles | exact Ha]. }
  intros t1 gb Hb. cbv beta in Hb |- *.
  apply wp_bind. eapply wp_mono.
  { apply (wp_preserves (fun g' => obstacles g' = obstacles g));
      [apply makeWH_obstacles | exact Hb]. }
  intros [[t1' w1] h1] gc Hc. cbv beta iota in Hc |- *.
  apply wp_bind.
  set (o1 := Obstacle.mk (nextId (snd (rand 0 (PI * 2) gc))) x1
               (World.floorY (world gc) - h1) w1 h1 (ty_kind t1') (ty_color t1')
               (fst (rand 0 (PI * 2) gc))).
  assert (Hd : obstacles (snd (spawnObstacle w1 h1 (ty_kind t1') (ty_color t1') x1 gc))
               = obstacles g ++ [o1]).
  { rewrite <- Hc. reflexivity. }
  unfold wp at 1.
  set (gd := snd (spawnObstacle w1 h1 (ty_kind t1') (ty_color t1') x1 gc)) in *.
  clearbody gd. cbv beta.
  eapply wp_mono.
  { apply (wp_preserves (extends (obstacles g ++ [o1]))).
    - pres ext_leaf.
    - exists []. rewrite Hd, app_nil_r. reflexivity. }
  intros _ ge (more & He). cbv beta. exists o1. split; [| exact Hx1].
  rewrite He, <- app_assoc. apply list_lookup_middle. reflexivity.
Qed.

Lemma begin_run_running (speedFactor : Q) (g : Game) :
  0 < Spawner.runChunksLeft (spawner g) -> begin_run speedFactor g = (true, g).
Proof.
  intros H. unfold begin_run, bind, gets.
  apply Qleb_gt in H. rewrite H. reflexivity.
Qed.

(** When no run is under way, [begin_run] either starts one, and then no
    landing gap is owed, or leaves the pools as they are. *)
Lemma begin_run_idle (speedFactor : Q) (g : Game) :
  Spawner.runChunksLeft (spawner g) <= 0 ->
  let r := begin_run speedFactor g in
  obstacles (snd r) = obstacles g
  /\ (fst r = true ->
      Spawner.needLanding (spawner (snd r)) = false
      /\ state (snd r) = state g).
Proof.
  intros H. apply Qleb_le in H. cbv zeta.
  unfold begin_run, bind, gets. rewrite H.
  unfold randi, rand_dbl, rand, Math_random, bind, ret, upd_spawner, modify, when.
  cbn -[Qltb Qleb lerp].
  destruct (random (rng g) <? lerp 0.50 0.72 (St.difficulty (state g)));
    cbn -[Qltb Qleb lerp].
  - repeat split; reflexivity.
  - destruct (random (S (S (rng g))) <? 0.16); cbn -[Qltb Qleb lerp];
      (split; [reflexivity | intros Hb; discriminate Hb]).
Qed.

(** The spacing a pass of the spawner keeps before the chunk it places:
    the landing gap inside a run, the short spacing at the start of one. *)
Lemma spawner_pass_spacing (W : Q) (g : Game) (lastObs o1 : Obstacle.obstacle) :
  spawner_ok g ->
  last (obstacles g) = Some lastObs ->
  obstacles (exec (spawner_pass W) g) !! length (obstacles g) = Some o1 ->
  Obstacle.x lastObs + Obstacle.w lastObs
    + (if 0 <? Spawner.runChunksLeft (spawner g)
       then landingSpacingPx g else minSpacingPx g)
  <= Obstacle.x o1.
Proof.
  intros Hok Hlast Ho1.
  unfold spawner_pass, exec, bind at 1, gets at 1, bind at 1 in Ho1.
  set (sf := lerp 1.00 0.86 (St.difficulty (state g))) in *.
  destruct (0 <? Spawner.runChunksLeft (spawner g)) eqn:E.
  - rewrite begin_run_running in Ho1 by (apply Qltb_lt, E).
    cbn [when] in Ho1.
    destruct (place_chunk_first W sf g lastObs Hlast) as (o & Ho & Hx).
    unfold exec in Ho. rewrite Ho in Ho1. injection Ho1 as <-.
    unfold reqPx in Hx. rewrite Hok, E in Hx. exact Hx.
  - pose proof (begin_run_idle sf g) as Hb. cbv zeta in Hb.
    destruct Hb as [Hobs Hgo]; [apply Qltb_ge, E |].
    destruct (begin_run sf g) as [go g1]. cbn [fst snd] in *.
    destruct go; cbn [when] in Ho1.
    + destruct (Hgo eq_refl) as [Hn Hs].
      rewrite <- Hobs in Hlast, Ho1.
      destruct (place_chunk_first W sf g1 lastObs Hlast) as (o & Ho & Hx).
      unfold exec in Ho. rewrite Ho in Ho1. injection Ho1 as <-.
      unfold reqPx in Hx. rewrite Hn in Hx.
      unfold minSpacingPx in *. rewrite Hs in Hx. exact Hx.
    + cbn [ret snd] in Ho1. rewrite Hobs in Ho1.
      apply lookup_lt_Some in Ho1. lia.
Qed.

(** Inside a run the pass does place a chunk. *)
Lemma spawner_pass_places (W : Q) (g : Game) (lastObs : Obstacle.obstacle) :
  0 < Spawner.runChunksLeft (spawner g) ->
  last (obstacles g) = Some lastObs ->
  exists o1, obstacles (exec (spawner_pass W) g) !! length (obstacles g) = Some o1.
Proof.
  intros Hrun Hlast.
  unfold spawner_pass, exec, bind at 1, gets at 1, bind at 1.
  rewrite begin_run_running by exact Hrun. cbn [when].
  destruct (place_chunk_first W (lerp 1.00 0.86 (St.difficulty (state g))) g
              lastObs Hlast) as (o & Ho & _).
  exists o. exact Ho.
Qed.

(** ** The damage pass *)

(** The loop over the obstacles either changes nothing, because the
    player is invulnerable or no obstacle passes the four tests, or it is
    one call of [hurt], for an obstacle that passes them. *)
Lemma damage_loop_cases (hitbox : Hitbox) (os : list Obstacle.obstacle) (g : Game) :
  (exec (damage_loop hitbox os) g = g
   /\ (0 < Player.invuln (player g) \/ St.mode (state g) <> Playing
       \/ Forall (fun o => qualifies hitbox (player g) o = false) os))
  \/ exists o,
       o ∈ os
       /\ qualifies hitbox (player g) o = true
       /\ ~ 0 < Player.invuln (player g)
       /\ St.mode (state g) = Playing
       /\ exec (damage_loop hitbox os) g = exec (hurt o 12) g.
Proof.
  induction os as [|o rest IH]; cbn [damage_loop].
  - left. split; [reflexivity | right; right; constructor].
  - assert (Hrest :
      qualifies hitbox (player g) o = false ->
      (exec (damage_loop hitbox rest) g = g
       /\ (0 < Player.invuln (player g) \/ St.mode (state g) <> Playing
           \/ Forall (fun o => qualifies hitbox (player g) o = false) (o :: rest)))
      \/ exists o',
           o' ∈ o :: rest
           /\ qualifies hitbox (player g) o' = true
           /\ ~ 0 < Player.invuln (player g)
           /\ St.mode (state g) = Playing
           /\ exec (damage_loop hitbox rest) g = exec (hurt o' 12) g).
    { intros Hq. destruct IH as [[IH Hwhy] | (o' & Hin & IH)].
      - left. split; [exact IH |].
        destruct Hwhy as [Hi | [Hm | Hall]]; [left; exact Hi | right; left; exact Hm |].
        right; right. constructor; assumption.
      - right. exists o'. split; [right; exact Hin | exact IH]. }
    unfold qualifies in Hrest |- *.
    destruct (hits_obstacle hitbox o) eqn:Eh; [| apply Hrest; reflexivity].
    rewrite exec_bind. cbn [gets fst snd].
    destruct (stands_on (player g) o) eqn:Es; [apply Hrest; reflexivity |].
    destruct (aboveTop hitbox o) eqn:Ea; [apply Hrest; reflexivity |].
    destruct (fromFront (player g) o) eqn:Ef; cbn [negb]; [| apply Hrest; reflexivity].
    destruct (Qlt_le_dec 0 (Player.invuln (player g))) as [Hi | Hi].
    { left. unfold exec. rewrite hurt_noop_eq by (right; exact Hi).
      split; [reflexivity | left; exact Hi]. }
    destruct (St.mode (state g)) eqn:Em;
      try (left; unfold exec; rewrite hurt_noop_eq by (left; congruence);
           split; [reflexivity | right; left; congruence]).
    right. exists o. split; [left |].
    rewrite Eh, Es, Ea, Ef. repeat split; try reflexivity. lra.
Qed.

(** The health of the heart that was active, after [hurt] took effect. *)
Lemma hurt_health (g : Game) (o : Obstacle.obstacle) (amount : Q) :
  St.mode (state g) = Playing ->
  ~ 0 < Player.invuln (player g) ->
  (Z.to_nat (St.heartIndex (state g)) < length (St.hearts (state g)))%nat ->
  (0 <= St.heartIndex (state g))%Z ->
  let i := St.heartIndex (state g) in
  let g' := exec (hurt o amount) g in
  at_index (St.hearts (state g')) i
    == Qmax 0 (at_index (St.hearts (state g)) i - amount)
  /\ 0 < Player.invuln (player g')
  /\ Player.vx (player g')
     = 320 * (if Player.x (player g) + Player.w (player g) * 0.5
                 <? Obstacle.x o + Obstacle.w o * 0.5 then -1 else 1).
Proof.
  intros Hm Hi Hin Hnn i g'.
  destruct (hurt_run g o amount Hm Hi) as (g1 & Hc & Hrun).
  destruct (knock_back_effect g o amount) as (Hs & Hinv & Hvx & _).
  cbv zeta in Hs, Hinv, Hvx.
  set (gk := exec (knock_back o amount) g) in *. clearbody gk.
  pose proof (cosmetic_state _ _ Hc) as Hs1. rewrite Hs in Hs1.
  pose proof (cosmetic_player _ _ Hc) as Hp1.
  set (h' := Qmax 0 (at_index (St.hearts (state g)) i - amount)) in *.
  assert (Hat : at_index (St.hearts (state g1)) (St.heartIndex (state g1)) = h').
  { rewrite Hs1. cbn -[Qmax]. apply at_index_store_eq, Hin. }
  assert (Hi1 : St.heartIndex (state g1) = i) by (rewrite Hs1; reflexivity).
  assert (Hmax : St.heartsMax (state g1) = St.heartsMax (state g))
    by (rewrite Hs1; reflexivity).
  subst g'. rewrite Hrun.
  destruct (Qlt_le_dec 0 h') as [Hpos | Hzero].
  - rewrite heart_out_alive by (rewrite Hat; lra).
    rewrite Hp1.
    split; [rewrite <- Hi1, Hat; reflexivity | split; [| exact Hvx]].
    rewrite Hinv. reflexivity.
  - assert (Hz : at_index (St.hearts (state g1)) (St.heartIndex (state g1)) <= 0)
      by (rewrite Hat; exact Hzero).
    assert (Hh0 : h' == 0).
    { apply Qle_antisym; [exact Hzero | apply Q.le_max_l]. }
    destruct (Z.lt_ge_cases i (St.heartsMax (state g) - 1)) as [Hlt | Hge].
    + destruct (heart_out_next g1 Hz) as (Hs2 & Hp2 & _); [rewrite Hi1, Hmax; exact Hlt |].
      abstract
        (cbv zeta in Hs2; rewrite Hs2, Hp2, Hp1;
         cbn [Player.vx Player.invuln Player.set_invuln];
         (split; [| split; [reflexivity | exact Hvx]]);
         rewrite Hi1, Hs1; cbn -[Qmax]; fold i; unfold at_index;
         rewrite lookup_store_ne by lia;
         rewrite lookup_store_eq by (rewrite length_store; exact Hin);
         cbn; rewrite Hh0; reflexivity).
    + destruct (heart_out_last g1 Hz) as (Hs2 & Hp2 & _); [rewrite Hi1, Hmax; lia |].
      cbv zeta in Hs2. rewrite Hs2, Hp2, Hp1.
      split; [| split; [rewrite Hinv; reflexivity | exact Hvx]].
      rewrite Hs1. cbn -[Qmax floorQ].
      fold i. rewrite at_index_store_eq by exact Hin. reflexivity.
Qed.

(** ** Flight and dropping through *)




(** What the drop-through step does, and that the platform loop is not
    run while the drop-through timer is positive. *)
Lemma drop_through_effect (dt : Q) (down : bool) (g : Game) :
  let pl := player g in
  let g' := exec (drop_through dt down) g in
  let trigger := down && Player.onGround pl && bool_decide (is_Some (Player.ground pl)) in
  (trigger = true ->
   Player.drop (player g') = 0.35
   /\ Player.ground (player g') = None
   /\ Player.onGround (player g') = false
   /\ Player.vy (player g') = Qmax (Player.vy pl) 120)
  /\ (trigger = false ->
      g' = set_player (Player.set_drop (Qmax 0 (Player.drop pl - dt)) pl) g).
Proof.
  cbv zeta. unfold drop_through, exec, bind, gets, upd_player, modify.
  cbn -[Qmax].
  destruct (down && Player.onGround (player g)
            && bool_decide (is_Some (Player.ground (player g)))); cbn -[Qmax].
  - split; [intros _; repeat split; reflexivity | intros H; discriminate H].
  - split; [intros H; discriminate H | reflexivity].
Qed.

Lemma no_platform_landing_while_dropping (wasOnGround : bool) (prevY : Q) (g : Game) :
  0 < Player.drop (player g) ->
  land_on_platforms wasOnGround prevY g = (false, g).
Proof.
  intros H. unfold land_on_platforms, bind, gets.
  apply Qleb_gt in H. rewrite H, andb_false_r. reflexivity.
Qed.

(** ** Random integers and bursts of feathers *)

Lemma rand_run (a b : Q) (g : Game) :
  rand a b g = (a + random (rng g) * (b - a), set_rng (S (rng g)) g).
Proof. reflexivity. Qed.

Lemma randi_run (a b : Q) (g : Game) :
  randi a b g
  = (floorQ (dbl (a + dbl (random (rng g) * dbl (dbl (b + 1) - a)))),
     set_rng (S (rng g)) g).
Proof. reflexivity. Qed.

(** A rounding that keeps the order gives equal doubles for equal
    numbers. *)
Lemma dbl_proper (x y : Q) : monotone_rounding -> x == y -> dbl x == dbl y.
Proof.
  intros Hm E. apply Qle_antisym; apply Hm; rewrite E; apply Qle_refl.
Qed.

(** The sum that [randi(a, b)] hands to [Math.floor] lies between [a] and
    [b + 1], both included. *)
Lemma randi_sum_between (a b u : Q) :
  monotone_rounding -> doubles_for a b -> a <= b -> 0 <= u < 1 ->
  a <= dbl (a + dbl (u * dbl (dbl (b + 1) - a))) <= b + 1.
Proof.
  intros Hm (H0 & Ha & Hb & Hc) Hab [Hu0 Hu1]. unfold is_double in *.
  set (c := dbl (dbl (b + 1) - a)).
  assert (Ec : c == b + 1 - a).
  { unfold c. rewrite <- Hc. apply dbl_proper; [exact Hm |]. rewrite Hb. reflexivity. }
  set (y := dbl (u * c)).
  assert (Hy : 0 <= y <= b + 1 - a).
  { unfold y. split.
    - rewrite <- H0. apply Hm. rewrite Ec. nra.
    - rewrite <- Hc. apply Hm. rewrite Ec. nra. }
  split.
  - rewrite <- Ha at 1. apply Hm. lra.
  - rewrite <- Hb. apply Hm. lra.
Qed.

(** With [Math.random()] in its range [randi(a, b)] is an integer between
    [a] and [b + 1]; it is [b + 1] only when the rounded sum is. *)
Lemma randi_bounds (a b : Z) (g : Game) :
  monotone_rounding -> doubles_for (inject_Z a) (inject_Z b) ->
  (a <= b)%Z -> 0 <= random (rng g) < 1 ->
  exists k : Z,
    fst (randi (inject_Z a) (inject_Z b) g) = inject_Z k
    /\ (a <= k <= b + 1)%Z
    /\ ((k <= b)%Z
        <-> dbl (inject_Z a
                 + dbl (random (rng g) * dbl (dbl (inject_Z b + 1) - inject_Z a)))
            < inject_Z b + 1).
Proof.
  intros Hm Hd Hab Hu. rewrite randi_run. cbn [fst]. unfold floorQ.
  eexists. split; [reflexivity |].
  assert (Hab' : inject_Z a <= inject_Z b) by (rewrite <- Zle_Qle; exact Hab).
  destruct (randi_sum_between (inject_Z a) (inject_Z b) (random (rng g)) Hm Hd Hab' Hu)
    as [Hlo Hhi].
  set (x := dbl (inject_Z a
                 + dbl (random (rng g) * dbl (dbl (inject_Z b + 1) - inject_Z a)))) in *.
  clearbody x.
  assert (E1 : inject_Z b + 1 == inject_Z (b + 1)).
  { rewrite inject_Z_plus. reflexivity. }
  split; [split |].
  - rewrite <- (Qfloor_Z a). apply Qfloor_resp_le, Hlo.
  - rewrite <- (Qfloor_Z (b + 1)). apply Qfloor_resp_le. rewrite <- E1. exact Hhi.
  - split.
    + intros Hk. apply Qlt_le_trans with (inject_Z (Qfloor x + 1)).
      * apply Qlt_floor.
      * rewrite E1, <- Zle_Qle. lia.
    + intros Hx.
      assert (H : inject_Z (Qfloor x) < inject_Z (b + 1)).
      { eapply Qle_lt_trans; [apply Qfloor_le | rewrite <- E1; exact Hx]. }
      rewrite <- Zlt_Qlt in H. lia.
Qed.

Lemma feathers_run (x y : Q) (n : nat) (g : Game) :
  let body :=
    (vx <- rand (-240) 240 ;;
     vy <- rand (-520) (-120) ;;
     life <- rand 0.35 0.65 ;;
     rot <- rand 0 (PI * 2) ;;
     vr <- rand (-10) 10 ;;
     push_particle (Particle.mk x y vx vy life 0 Feather (Some rot) (Some vr))) in
  exists new,
    particles (exec (repeatM n body) g) = particles g ++ new
    /\ length new = n
    /\ Forall (feather_at x y) new
    /\ rng (exec (repeatM n body) g) = (rng g + 5 * n)%nat.
Proof.
  cbv zeta. revert g. induction n as [|n IH]; intros g; cbn [repeatM].
  - exists []. cbn. rewrite app_nil_r, Nat.add_0_r. repeat split. constructor.
  - rewrite exec_bind.
    match goal with |- context [exec _ (snd ?step)] => set (g1 := snd step) end.
    assert (H1 : exists p, particles g1 = particles g ++ [p] /\ feather_at x y p
                           /\ rng g1 = (rng g + 5)%nat).
    { eexists. unfold g1. cbn. split; [reflexivity |].
      split; [repeat split; eexists; reflexivity |]. lia. }
    destruct H1 as (p & Hp & Hf & Hr). clearbody g1.
    destruct (IH g1) as (new & Hn & Hl & HF & Hrn).
    exists (p :: new). rewrite Hn, Hp, <- app_assoc. cbn [app length].
    split; [reflexivity |]. split; [lia |]. split; [constructor; assumption |].
    rewrite Hrn, Hr. lia.
Qed.

(** What [featherBurst(x, y)] does to the pool of particles and to the
    sequence of random numbers: as many feathers as [randi(7, 11)] gives,
    one random number for the count and five for each feather. *)
Lemma featherBurst_run (x y : Q) (g : Game) :
  exists new,
    particles (exec (featherBurst x y) g) = particles g ++ new
    /\ length new = passes (fst (randi 7 11 g))
    /\ Forall (feather_at x y) new
    /\ rng (exec (featherBurst x y) g) = (rng g + 1 + 5 * length new)%nat.
Proof.
  unfold featherBurst. rewrite exec_bind. rewrite randi_run. cbn [fst snd].
  match goal with |- context [passes ?q] => set (n := passes q) end.
  destruct (feathers_run x y n (set_rng (S (rng g)) g)) as (new & Hn & Hl & HF & Hrn).
  exists new. rewrite Hn, Hrn, Hl. cbn [particles rng set_rng].
  split; [reflexivity |]. split; [reflexivity |]. split; [exact HF | lia].
Qed.

(** The number of feathers of a burst: 7 to 11, and 12 when the sum of
    [randi] is rounded up to 12. *)
Lemma feather_count (g : Game) :
  monotone_rounding -> doubles_for 7 11 -> 0 <= random (rng g) < 1 ->
  (7 <= passes (fst (randi 7 11 g)) <= 12)%nat
  /\ (passes (fst (randi 7 11 g)) = 12%nat
      <-> dbl (7 + dbl (random (rng g) * dbl (dbl (11 + 1) - 7))) == 12).
Proof.
  intros Hm Hd Hu.
  destruct (randi_bounds 7 11 g Hm Hd ltac:(lia) Hu) as (k & Hk & Hr & Hlt).
  change (inject_Z 7) with 7 in *. change (inject_Z 11) with 11 in *.
  rewrite Hk. unfold passes. rewrite Qceiling_Z.
  split; [lia |].
  destruct (randi_sum_between 7 11 (random (rng g)) Hm Hd ltac:(lra) Hu) as [_ Hhi].
  set (s := dbl (7 + dbl (random (rng g) * dbl (dbl (11 + 1) - 7)))) in *.
  split.
  - intros E. assert (Hk12 : ~ (k <= 11)%Z) by lia.
    apply Qle_antisym; [lra |]. apply Qnot_lt_le. intros Hs. apply Hk12, Hlt. lra.
  - intros E. assert (Hk12 : ~ (k <= 11)%Z).
    { intros Hle. apply Hlt in Hle. lra. }
    lia.
Qed.

(** ** The invariant *)

Lemma Inv_same (g g' : Game) :
  St.hearts (state g') = St.hearts (state g) ->
  St.corn (state g') = St.corn (state g) ->
  St.heartIndex (state g') = St.heartIndex (state g) ->
  St.heartsMax (state g') = St.heartsMax (state g) ->
  pickups g' = pickups g ->
  Inv g -> Inv g'.
Proof.
  forget_env.
  unfold Inv, Bounds, hearts_shape, pickups_ok.
  intros -> -> -> -> ->. tauto.
Qed.

Lemma Inv_set_pickups (g : Game) (ps : list Pickup.pickup) :
  Forall (fun p => Pickup.value p = 1%Z \/ Pickup.value p = 3%Z) ps ->
  Inv g -> Inv (set_pickups ps g).
Proof.
  forget_env. unfold Inv, Bounds, hearts_shape, pickups_ok. cbn. tauto. Qed.

Lemma Inv_set_corn (g : Game) (c : Z) :
  (0 <= c)%Z -> Inv g -> Inv (set_state (St.set_corn c (state g)) g).
Proof.
  forget_env. unfold Inv, Bounds, hearts_shape, pickups_ok. cbn. tauto. Qed.

Lemma Inv_store_heart (g : Game) (i : Z) (v : Q) :
  0 <= v <= 100 ->
  Inv g ->
  Inv (set_state (St.set_hearts (store_index (St.hearts (state g)) i v) (state g)) g).
Proof.
  forget_env.
  unfold Inv, Bounds, hearts_shape, pickups_ok. cbn.
  intros Hv ((Hh & Hc & Hi) & Hs & Hp).
  rewrite length_store. repeat split; try tauto.
  apply Forall_insert; assumption.
Qed.

Lemma at_index_bounds (l : list Q) (i : Z) :
  Forall (fun h => 0 <= h <= 100) l -> 0 <= at_index l i <= 100.
Proof.
  intros H. unfold at_index. destruct (l !! Z.to_nat i) as [h|] eqn:E; cbn.
  - eapply Forall_lookup_1 in H; [exact H | exact E].
  - lra.
Qed.

Lemma shift_while_Forall {A : Type} (P : A -> Prop) (gone : A -> bool) (l : list A) :
  Forall P l -> Forall P (shift_while gone l).
Proof.
  induction 1 as [|a l Ha Hl IH]; cbn [shift_while]; [constructor |].
  destruct (gone a); [exact IH | constructor; assumption].
Qed.

Ltac inv_leaf :=
  let g := fresh "g" in
  let H := fresh "H" in
  intros g H; unfold and_then;
  first
    [ solve [ apply (Inv_same g); [reflexivity .. | exact H] ]
    | solve [ apply Inv_set_pickups; [| exact H];
              apply Forall_app; split; [apply H | repeat constructor; auto] ]
    | solve [ apply Inv_set_corn; [lia | exact H] ] ].

Lemma featherBurst_Inv (x y : Q) : preserves Inv (featherBurst x y).
Proof. pres inv_leaf. Qed.

Lemma dustPuff_Inv (x y : Q) : preserves Inv (dustPuff x y).
Proof. pres inv_leaf. Qed.

Lemma yolkBurst_Inv (x y : Q) : preserves Inv (yolkBurst x y).
Proof. pres inv_leaf. Qed.

#[local] Hint Resolve featherBurst_Inv dustPuff_Inv yolkBurst_Inv : pres.

Lemma spawnStairs_loop_Inv (n : nat) (i liftFrom dir stepRise stepW startX : Q) :
  preserves Inv (spawnStairs_loop n i liftFrom dir stepRise stepW startX).
Proof.
  revert i. induction n as [|n IH]; intros i; cbn [spawnStairs_loop]; pres inv_leaf.
Qed.

Lemma smooth_loop_Inv (n : nat) (i : Z) (title : bool) (dt : Q) :
  preserves Inv (smooth_loop n i title dt).
Proof.
  revert i. induction n as [|n IH]; intros i; cbn [smooth_loop]; pres inv_leaf.
Qed.

#[local] Hint Resolve spawnStairs_loop_Inv smooth_loop_Inv : pres.

Lemma knock_back_Inv (o : Obstacle.obstacle) (amount : Q) :
  0 <= amount -> preserves Inv (knock_back o amount).
Proof.
  intros Ha. unfold knock_back. apply preserves_bind; [| intros _; pres inv_leaf].
  apply preserves_modify. intros g H. apply Inv_store_heart; [| exact H].
  pose proof (at_index_bounds (St.hearts (state g)) (St.heartIndex (state g))
                (proj1 (proj1 H))) as Hb.
  split; [apply Q.le_max_l | apply Q.max_lub; lra].
Qed.

Lemma gameOver_Inv : preserves Inv gameOver.
Proof. pres inv_leaf. Qed.

#[local] Hint Resolve gameOver_Inv : pres.

Lemma heart_out_Inv : preserves Inv heart_out.
Proof.
  forget_env.
  intros g H. change (Inv (exec heart_out g)).
  destruct (Qlt_le_dec 0 (at_index (St.hearts (state g)) (St.heartIndex (state g))))
    as [Hpos | Hzero].
  - rewrite heart_out_alive; [exact H | lra].
  - destruct (Z.lt_ge_cases (St.heartIndex (state g)) (St.heartsMax (state g) - 1))
      as [Hlt | Hge].
    + destruct (heart_out_next g Hzero Hlt) as (Hs & _ & _ & Hp & _).
      cbv zeta in Hs. revert H. unfold Inv, Bounds, hearts_shape, pickups_ok.
      rewrite Hs, Hp. cbn.
      intros ((Hh & Hc & Hi) & Hshape & Hpk).
      rewrite !length_store. repeat split; try tauto; try lia.
      apply Forall_insert; [apply Forall_insert; [exact Hh | lra] | lra].
    + destruct (heart_out_last g Hzero) as (Hs & _ & _ & Hp & _); [lia |].
      cbv zeta in Hs. revert H. unfold Inv, Bounds, hearts_shape, pickups_ok.
      rewrite Hs, Hp. cbn -[Qmax floorQ]. tauto.
Qed.

Lemma hurt_Inv (o : Obstacle.obstacle) (amount : Q) :
  0 <= amount -> preserves Inv (hurt o amount).
Proof.
  intros Ha. pose proof (knock_back_Inv o amount Ha).
  pose proof heart_out_Inv. unfold hurt. pres inv_leaf.
Qed.

Lemma hurt12_Inv (o : Obstacle.obstacle) : preserves Inv (hurt o 12).
Proof. apply hurt_Inv. lra. Qed.

#[local] Hint Resolve hurt12_Inv : pres.

Ltac inv_leaf' :=
  first
    [ inv_leaf
    | let g := fresh "g" in
      intros g; unfold and_then, Inv, Bounds, hearts_shape, pickups_ok;
      cbn -[Qmax Qmin];
      intros ((?Hh & ?Hc & ?Hi) & ?Hs & ?Hp);
      rewrite ?length_store;
      repeat split; auto; try lia;
      repeat (apply Forall_insert; [| lra]); auto ].

Lemma damage_loop_Inv (hitbox : Hitbox) (os : list Obstacle.obstacle) :
  preserves Inv (damage_loop hitbox os).
Proof. induction os as [|o rest IH]; cbn [damage_loop]; pres inv_leaf. Qed.

Lemma platform_loop_Inv (w : bool) (pb b : Q) (ps : list Platform.platform) :
  preserves Inv (platform_loop w pb b ps).
Proof. induction ps as [|p rest IH]; cbn [platform_loop]; pres inv_leaf. Qed.

Lemma obstacle_top_loop_Inv (w : bool) (pb b : Q) (os : list Obstacle.obstacle) :
  preserves Inv (obstacle_top_loop w pb b os).
Proof. induction os as [|o rest IH]; cbn [obstacle_top_loop]; pres inv_leaf. Qed.

Lemma spawner_pass_Inv (W : Q) : preserves Inv (spawner_pass W).
Proof. pres inv_leaf. Qed.

#[local] Hint Resolve damage_loop_Inv platform_loop_Inv obstacle_top_loop_Inv
  spawner_pass_Inv : pres.

Lemma spawner_loop_Inv (n : nat) (W : Q) : preserves Inv (spawner_loop n W).
Proof. induction n as [|n IH]; cbn [spawner_loop]; pres inv_leaf. Qed.

#[local] Hint Resolve spawner_loop_Inv : pres.

Lemma or1_pos (v : Z) : v = 1%Z \/ v = 3%Z -> (0 < or1 v)%Z.
Proof. intros [-> | ->]; reflexivity. Qed.

Lemma collect_spec (hitbox : Hitbox) (p p' : Pickup.pickup) (g g' : Game) :
  collect hitbox p g = (p', g') ->
  Pickup.value p = 1%Z \/ Pickup.value p = 3%Z ->
  Inv g ->
  (Pickup.value p' = 1%Z \/ Pickup.value p' = 3%Z) /\ Inv g'.
Proof.
  intros E Hv H. unfold collect in E.
  destruct (Pickup.taken p); [injection E as <- <-; split; assumption |].
  destruct (hits_circle _ _ _ _); [| injection E as <- <-; split; assumption].
  unfold bind, upd_state, modify, ret in E.
  match type of E with context [featherBurst ?x ?y ?g0] =>
    pose proof (featherBurst_Inv x y g0) as Hf;
    destruct (featherBurst x y g0) as [[] g1] end.
  injection E as <- <-. cbn [fst snd] in *. split; [exact Hv |].
  apply Hf. cbn [Pickup.value Pickup.set_taken].
  apply (Inv_same (set_state (St.set_corn (St.corn (state g) + or1 (Pickup.value p))
                                (state g)) g)); try reflexivity.
  apply Inv_set_corn; [| exact H].
  pose proof (or1_pos _ Hv). destruct H as ((_ & Hc & _) & _). lia.
Qed.

Lemma collect_loop_spec (hitbox : Hitbox) (ps ps' : list Pickup.pickup) (g g' : Game) :
  collect_loop hitbox ps g = (ps', g') ->
  Forall (fun p => Pickup.value p = 1%Z \/ Pickup.value p = 3%Z) ps ->
  Inv g ->
  Forall (fun p => Pickup.value p = 1%Z \/ Pickup.value p = 3%Z) ps' /\ Inv g'.
Proof.
  intros E Hps. revert g ps' g' E.
  induction Hps as [|p rest Hp Hrest IH]; intros g ps' g' E H.
  - injection E as <- <-. split; [constructor | exact H].
  - cbn [collect_loop] in E. unfold bind, ret in E.
    destruct (collect hitbox p g) as [p1 g1] eqn:E1.
    destruct (collect_loop hitbox rest g1) as [rest1 g2] eqn:E2.
    injection E as <- <-.
    destruct (collect_spec _ _ _ _ _ E1 Hp H) as [Hv Hg].
    destruct (IH _ _ _ E2 Hg) as [Hr Hg2].
    split; [constructor; assumption | exact Hg2].
Qed.

Lemma collect_pickups_Inv (hitbox : Hitbox) : preserves Inv (collect_pickups hitbox).
Proof.
  intros g H. unfold collect_pickups, bind, gets, modify.
  destruct (collect_loop hitbox (pickups g) g) as [ps' g1] eqn:E.
  destruct (collect_loop_spec _ _ _ _ _ E (proj2 (proj2 H)) H) as [Hr Hg].
  apply Inv_set_pickups; assumption.
Qed.

Lemma smash_loop_Inv (hitbox : Hitbox) (es : list Egg.egg) :
  preserves Inv (smash_loop hitbox es).
Proof. induction es as [|e rest IH]; cbn [smash_loop]; pres inv_leaf. Qed.

#[local] Hint Resolve collect_pickups_Inv smash_loop_Inv : pres.

Lemma smash_eggs_Inv (hitbox : Hitbox) : preserves Inv (smash_eggs hitbox).
Proof. pres inv_leaf. Qed.

Lemma update_pickups_Inv (dt : Q) : preserves Inv (update_pickups dt).
Proof.
  forget_env.
  unfold update_pickups.
  apply preserves_bind; [apply preserves_gets | intros s].
  apply preserves_bind; [| intros _]; apply preserves_modify; intros g H;
    (apply Inv_set_pickups; [| exact H]).
  - apply Forall_map. eapply Forall_impl; [apply H |]. cbn. tauto.
  - apply shift_while_Forall, H.
Qed.

#[local] Hint Resolve smash_eggs_Inv update_pickups_Inv : pres.

Lemma resetRun_Inv (env : Env) : preserves Inv (resetRun env).
Proof. unfold resetRun. pres inv_leaf'. Qed.

#[local] Hint Resolve resetRun_Inv : pres.

Lemma update_Inv (env : Env) (dt : Q) : preserves Inv (update env dt).
Proof. unfold update. pres inv_leaf. Qed.

#[local] Hint Resolve update_Inv : pres.

Lemma keys_add_Inv (k : string) : preserves Inv (keys_add k).
Proof.
  apply preserves_modify. intros g H.
  destruct (has (keys g) k); [exact H |].
  apply (Inv_same g); [reflexivity .. | exact H].
Qed.

#[local] Hint Resolve keys_add_Inv : pres.

Lemma handle_Inv (env : Env) (ev : Event) : preserves Inv (handle env ev).
Proof. destruct ev; cbn [handle]; pres inv_leaf. Qed.

Lemma initial_Inv (best : Q) (name : JsString.t) : Inv (initial best name).
Proof.
  unfold Inv, Bounds, hearts_shape, pickups_ok. cbn.
  repeat split; try lia; repeat constructor; lra.
Qed.

Lemma reachable_Inv (g : Game) : reachable g -> Inv g.
Proof.
  induction 1 as [best name | env ev g Hr IH].
  - apply initial_Inv.
  - apply handle_Inv, IH.
Qed.

(** ** The flag of the obstacle spawner *)

Lemma spawner_ok_same (g g' : Game) :
  Spawner.needLanding (spawner g') = Spawner.needLanding (spawner g) ->
  Spawner.runChunksLeft (spawner g') = Spawner.runChunksLeft (spawner g) ->
  spawner_ok g -> spawner_ok g'.
Proof.
  forget_env. unfold spawner_ok. intros -> ->. tauto. Qed.

Ltac sp_leaf :=
  let g := fresh "g" in
  let H := fresh "H" in
  intros g H; unfold and_then;
  first
    [ solve [ apply (spawner_ok_same g); [reflexivity | reflexivity | exact H] ]
    | solve [ reflexivity ] ].

Lemma end_chunk_spawner_ok (speedFactor : Q) (g : Game) :
  spawner_ok (exec (end_chunk speedFactor) g).
Proof.
  unfold end_chunk, exec, bind, upd_spawner, modify, gets. cbn -[Qltb].
  destruct (0 <? Spawner.runChunksLeft (spawner g) - 1) eqn:E;
    unfold spawner_ok; cbn -[Qltb]; rewrite E; reflexivity.
Qed.

Lemma begin_run_spawner_ok (speedFactor : Q) (g : Game) :
  spawner_ok g ->
  let g' := snd (begin_run speedFactor g) in
  (fst (begin_run speedFactor g) = false -> spawner_ok g')
  /\ (fst (begin_run speedFactor g) = true ->
      Spawner.needLanding (spawner g') =
        (if Spawner.runChunksLeft (spawner g) <=? 0 then false
         else Spawner.needLanding (spawner g))).
Proof.
  intros H. unfold begin_run, bind, gets. cbn [fst snd].
  destruct (Spawner.runChunksLeft (spawner g) <=? 0) eqn:E.
  2:{ cbn. split; intros Hb; [discriminate Hb | reflexivity]. }
  assert (Hn : (0 <? Spawner.runChunksLeft (spawner g)) = false).
  { apply Qltb_ge, Qleb_le, E. }
  unfold randi, rand_dbl, rand, Math_random, bind, ret, upd_spawner, modify, when.
  cbn -[Qltb Qleb lerp].
  destruct (random (rng g) <? lerp 0.50 0.72 (St.difficulty (state g)));
    cbn -[Qltb Qleb lerp].
  - split; intros Hb; [discriminate Hb | reflexivity].
  - destruct (random (S (S (rng g))) <? 0.16); cbn -[Qltb Qleb lerp];
      (split; intros Hb; [| discriminate Hb]);
      unfold spawner_ok; cbn -[Qltb Qleb lerp]; rewrite Hn; reflexivity.
Qed.

Lemma wp_bind_last {A B : Type} (m : M A) (k : A -> M B) (Q : B -> Game -> Prop)
    (g : Game) :
  (forall a g', wp (k a) Q g') -> wp (bind m k) Q g.
Proof. intros H. apply wp_bind. unfold wp at 1. apply H. Qed.

Lemma place_chunk_spawner_ok (W speedFactor : Q) (g : Game) :
  spawner_ok (exec (place_chunk W speedFactor) g).
Proof.
  change (wp (place_chunk W speedFactor) (fun _ g' => spawner_ok g') g).
  unfold place_chunk.
  repeat
    match goal with
    | |- wp (bind _ _) _ _ => apply wp_bind_last; intros ? ?; cbv beta
    | |- wp (match ?x with _ => _ end) _ _ => destruct x
    end.
  apply end_chunk_spawner_ok.
Qed.

Lemma spawner_pass_spawner_ok (W : Q) : preserves spawner_ok (spawner_pass W).
Proof.
  intros g H. unfold spawner_pass, bind at 1, gets at 1, bind at 1.
  pose proof (begin_run_spawner_ok
                (lerp 1.00 0.86 (St.difficulty (state g))) g H) as [Hf Ht].
  cbv zeta in Hf, Ht.
  destruct (begin_run (lerp 1.00 0.86 (St.difficulty (state g))) g) as [go g1].
  cbn [fst snd] in *. destruct go; cbn [when].
  - apply place_chunk_spawner_ok.
  - apply Hf. reflexivity.
Qed.

#[local] Hint Resolve spawner_pass_spawner_ok : pres.

Lemma spawner_loop_spawner_ok (n : nat) (W : Q) :
  preserves spawner_ok (spawner_loop n W).
Proof. induction n as [|n IH]; cbn [spawner_loop]; pres sp_leaf. Qed.

#[local] Hint Resolve spawner_loop_spawner_ok : pres.

Lemma featherBurst_spawner_ok (x y : Q) : preserves spawner_ok (featherBurst x y).
Proof. pres sp_leaf. Qed.

Lemma dustPuff_spawner_ok (x y : Q) : preserves spawner_ok (dustPuff x y).
Proof. pres sp_leaf. Qed.

Lemma yolkBurst_spawner_ok (x y : Q) : preserves spawner_ok (yolkBurst x y).
Proof. pres sp_leaf. Qed.

#[local] Hint Resolve featherBurst_spawner_ok dustPuff_spawner_ok
  yolkBurst_spawner_ok : pres.

Lemma spawnStairs_loop_spawner_ok (n : nat) (i liftFrom dir stepRise stepW startX : Q) :
  preserves spawner_ok (spawnStairs_loop n i liftFrom dir stepRise stepW startX).
Proof.
  revert i. induction n as [|n IH]; intros i; cbn [spawnStairs_loop]; pres sp_leaf.
Qed.

Lemma smooth_loop_spawner_ok (n : nat) (i : Z) (title : bool) (dt : Q) :
  preserves spawner_ok (smooth_loop n i title dt).
Proof.
  revert i. induction n as [|n IH]; intros i; cbn [smooth_loop]; pres sp_leaf.
Qed.

#[local] Hint Resolve spawnStairs_loop_spawner_ok smooth_loop_spawner_ok : pres.

Lemma damage_loop_spawner_ok (hitbox : Hitbox) (os : list Obstacle.obstacle) :
  preserves spawner_ok (damage_loop hitbox os).
Proof. induction os as [|o rest IH]; cbn [damage_loop]; pres sp_leaf. Qed.

Lemma platform_loop_spawner_ok (w : bool) (pb b : Q) (ps : list Platform.platform) :
  preserves spawner_ok (platform_loop w pb b ps).
Proof. induction ps as [|p rest IH]; cbn [platform_loop]; pres sp_leaf. Qed.

Lemma obstacle_top_loop_spawner_ok (w : bool) (pb b : Q) (os : list Obstacle.obstacle) :
  preserves spawner_ok (obstacle_top_loop w pb b os).
Proof. induction os as [|o rest IH]; cbn [obstacle_top_loop]; pres sp_leaf. Qed.

Lemma collect_loop_spawner_ok (hitbox : Hitbox) (ps : list Pickup.pickup) :
  preserves spawner_ok (collect_loop hitbox ps).
Proof. induction ps as [|p rest IH]; cbn [collect_loop]; pres sp_leaf. Qed.

Lemma smash_loop_spawner_ok (hitbox : Hitbox) (es : list Egg.egg) :
  preserves spawner_ok (smash_loop hitbox es).
Proof. induction es as [|e rest IH]; cbn [smash_loop]; pres sp_leaf. Qed.

#[local] Hint Resolve damage_loop_spawner_ok platform_loop_spawner_ok
  obstacle_top_loop_spawner_ok collect_loop_spawner_ok smash_loop_spawner_ok : pres.

Lemma update_spawner_ok (env : Env) (dt : Q) : preserves spawner_ok (update env dt).
Proof. unfold update. pres sp_leaf. Qed.

#[local] Hint Resolve update_spawner_ok : pres.

Lemma keys_add_spawner_ok (k : string) : preserves spawner_ok (keys_add k).
Proof.
  apply preserves_modify. intros g H.
  destruct (has (keys g) k); [exact H |].
  apply (spawner_ok_same g); [reflexivity | reflexivity | exact H].
Qed.

#[local] Hint Resolve keys_add_spawner_ok : pres.

Lemma handle_spawner_ok (env : Env) (ev : Event) :
  preserves spawner_ok (handle env ev).
Proof. destruct ev; cbn [handle]; pres sp_leaf. Qed.

Lemma reachable_spawner_ok (g : Game) : reachable g -> spawner_ok g.
Proof.
  induction 1 as [best name | env ev g Hr IH].
  - reflexivity.
  - apply handle_spawner_ok, IH.
Qed.

(** ** The fuel over a whole tick *)

Lemma fuel_in_same (S : Q -> Q -> Prop) (fuelMax delay : Q) (g g' : Game) :
  St.flyFuel (state g') = St.flyFuel (state g) ->
  St.flyRefuelCd (state g') = St.flyRefuelCd (state g) ->
  St.flyFuelMax (state g') = St.flyFuelMax (state g) ->
  St.flyRefuelDelay (state g') = St.flyRefuelDelay (state g) ->
  fuel_in S fuelMax delay g -> fuel_in S fuelMax delay g'.
Proof.
  forget_env. unfold fuel_in. intros -> -> -> ->. tauto.
Qed.

Ltac fuel_leaf :=
  let g := fresh "g" in
  let H := fresh "H" in
  intros g H; unfold and_then;
  solve [ apply (fuel_in_same _ _ _ g); [reflexivity .. | exact H] ].

Section Fuel.

Variable S : Q -> Q -> Prop.
Variables fuelMax delay : Q.

Local Abbreviation keeps := (preserves (fuel_in S fuelMax delay)).

Lemma featherBurst_fuel (x y : Q) : keeps (featherBurst x y).
Proof. pres fuel_leaf. Qed.

Lemma dustPuff_fuel (x y : Q) : keeps (dustPuff x y).
Proof. pres fuel_leaf. Qed.

Lemma yolkBurst_fuel (x y : Q) : keeps (yolkBurst x y).
Proof. pres fuel_leaf. Qed.

Hint Resolve featherBurst_fuel dustPuff_fuel yolkBurst_fuel : pres.

Lemma spawnStairs_loop_fuel (n : nat) (i liftFrom dir stepRise stepW startX : Q) :
  keeps (spawnStairs_loop n i liftFrom dir stepRise stepW startX).
Proof.
  revert i. induction n as [|n IH]; intros i; cbn [spawnStairs_loop]; pres fuel_leaf.
Qed.

Lemma smooth_loop_fuel (n : nat) (i : Z) (title : bool) (dt : Q) :
  keeps (smooth_loop n i title dt).
Proof.
  revert i. induction n as [|n IH]; intros i; cbn [smooth_loop]; pres fuel_leaf.
Qed.

Hint Resolve spawnStairs_loop_fuel smooth_loop_fuel : pres.

Lemma spawner_loop_fuel (n : nat) (W : Q) : keeps (spawner_loop n W).
Proof. induction n as [|n IH]; cbn [spawner_loop]; pres fuel_leaf. Qed.

Lemma damage_loop_fuel (hitbox : Hitbox) (os : list Obstacle.obstacle) :
  keeps (damage_loop hitbox os).
Proof. induction os as [|o rest IH]; cbn [damage_loop]; pres fuel_leaf. Qed.

Lemma platform_loop_fuel (w : bool) (pb b : Q) (ps : list Platform.platform) :
  keeps (platform_loop w pb b ps).
Proof. induction ps as [|p rest IH]; cbn [platform_loop]; pres fuel_leaf. Qed.

Lemma obstacle_top_loop_fuel (w : bool) (pb b : Q) (os : list Obstacle.obstacle) :
  keeps (obstacle_top_loop w pb b os).
Proof. induction os as [|o rest IH]; cbn [obstacle_top_loop]; pres fuel_leaf. Qed.

Lemma collect_loop_fuel (hitbox : Hitbox) (ps : list Pickup.pickup) :
  keeps (collect_loop hitbox ps).
Proof. induction ps as [|p rest IH]; cbn [collect_loop]; pres fuel_leaf. Qed.

Lemma smash_loop_fuel (hitbox : Hitbox) (es : list Egg.egg) :
  keeps (smash_loop hitbox es).
Proof. induction es as [|e rest IH]; cbn [smash_loop]; pres fuel_leaf. Qed.

Hint Resolve spawner_loop_fuel damage_loop_fuel platform_loop_fuel
  obstacle_top_loop_fuel collect_loop_fuel smash_loop_fuel : pres.




End Fuel.






(** * The claims *)

(** C1.  Whenever the obstacle spawner owes a landing gap, at any
    difficulty, the chunk it places next starts at least
    [state.speed * (2 * |world.jumpVel| / world.gravity) + reactionBuffer]
    to the right of the end of the last obstacle, where the reaction buffer
    is [lerp(220, 140, difficulty)].  In particular, at difficulty 0 with
    speed 360, jump velocity -760 and gravity 2400, the jump travel is 228,
    the buffer is 220, and the chunk starts at least 228 + 220 after the
    last obstacle, so more than 228 after it. *)
Theorem landing_gap_enforced (W : Q) (g : Game) (lastObs : Obstacle.obstacle) :
  spawner_ok g ->
  Spawner.needLanding (spawner g) = true ->
  last (obstacles g) = Some lastObs ->
  exists o1,
    obstacles (exec (spawner_pass W) g) !! length (obstacles g) = Some o1
    /\ Obstacle.x lastObs + Obstacle.w lastObs
       + (St.speed (state g)
            * (2 * Qabs (World.jumpVel (world g)) / World.gravity (world g))
          + lerp 220 140 (St.difficulty (state g)))
       <= Obstacle.x o1
    /\ (St.difficulty (state g) == 0 -> St.speed (state g) == 360 ->
        World.jumpVel (world g) == -760 -> World.gravity (world g) == 2400 ->
        Obstacle.x lastObs + Obstacle.w lastObs + (228 + 220) <= Obstacle.x o1
        /\ Obstacle.x lastObs + Obstacle.w lastObs + 228 < Obstacle.x o1).
Proof.
  intros Hok Hneed Hlast.
  assert (Hrun : 0 < Spawner.runChunksLeft (spawner g)).
  { apply Qltb_lt. rewrite <- Hok. exact Hneed. }
  destruct (spawner_pass_places W g lastObs Hrun Hlast) as (o1 & Ho1).
  pose proof (spawner_pass_spacing W g lastObs o1 Hok Hlast Ho1) as Hx.
  apply Qltb_lt in Hrun. rewrite Hrun in Hx.
  assert (Hgap : Obstacle.x lastObs + Obstacle.w lastObs
                 + (St.speed (state g)
                    * (2 * Qabs (World.jumpVel (world g)) / World.gravity (world g))
                    + lerp 220 140 (St.difficulty (state g)))
                 <= Obstacle.x o1).
  { eapply Qle_trans; [| exact Hx].
    apply Qplus_le_r. unfold landingSpacingPx. apply Q.le_max_r. }
  exists o1. split; [exact Ho1 | split; [exact Hgap |]].
  intros Hd Hs Hj Hgr.
  assert (E : St.speed (state g)
              * (2 * Qabs (World.jumpVel (world g)) / World.gravity (world g))
              + lerp 220 140 (St.difficulty (state g)) == 228 + 220).
  { unfold lerp. rewrite Hd, Hs, Hj, Hgr. reflexivity. }
  rewrite E in Hgap. split; [exact Hgap | lra].
Qed.

(** C2, as the code has it.  Before a chunk that continues a run already
    under way (between the chunks of one run) the spawner owes a landing
    gap and keeps the kinematic landing spacing; before the first chunk of
    a run (between the end of one run and the start of the next) it keeps
    only the short minimum spacing.  After the pass the landing gap is
    owed exactly when the run goes on. *)
Theorem chunk_spacing_by_run (W : Q) (g : Game) (lastObs o1 : Obstacle.obstacle) :
  spawner_ok g ->
  last (obstacles g) = Some lastObs ->
  obstacles (exec (spawner_pass W) g) !! length (obstacles g) = Some o1 ->
  (0 < Spawner.runChunksLeft (spawner g) ->
   Spawner.needLanding (spawner g) = true
   /\ Obstacle.x lastObs + Obstacle.w lastObs + landingSpacingPx g <= Obstacle.x o1)
  /\ (Spawner.runChunksLeft (spawner g) <= 0 ->
      Obstacle.x lastObs + Obstacle.w lastObs + minSpacingPx g <= Obstacle.x o1)
  /\ spawner_ok (exec (spawner_pass W) g).
Proof.
  intros Hok Hlast Ho1.
  pose proof (spawner_pass_spacing W g lastObs o1 Hok Hlast Ho1) as Hx.
  split; [| split].
  - intros Hrun. apply Qltb_lt in Hrun. rewrite Hrun in Hx.
    split; [rewrite Hok; exact Hrun | exact Hx].
  - intros Hidle. apply Qltb_ge in Hidle. rewrite Hidle in Hx. exact Hx.
  - apply spawner_pass_spawner_ok, Hok.
Qed.

(** C3.  The property [Inv] (the health of every heart is between 0 and
    100, the corn counter is not negative, the index of the active heart
    is at least 0 and less than [heartsMax], the array of hearts has
    [heartsMax] entries and every pickup is worth 1 or 3) holds in every
    state the game reaches, and it is kept by damage ([hurt] and the whole
    damage pass), by the collection of pickups, by the collection of
    hazards, and by a whole tick. *)
Theorem health_corn_bounds :
  (forall g, reachable g -> Inv g)
  /\ (forall g, Inv g -> Bounds g)
  /\ (forall g o, Inv g -> Inv (exec (hurt o 12) g))
  /\ (forall g hitbox, Inv g -> Inv (exec (damage_pass hitbox) g))
  /\ (forall g hitbox, Inv g -> Inv (exec (collect_pickups hitbox) g))
  /\ (forall g hitbox, Inv g -> Inv (exec (smash_eggs hitbox) g))
  /\ (forall g env dt, Inv g -> Inv (exec (update env dt) g)).
Proof.
  split; [exact reachable_Inv |].
  split; [intros g H; apply H |].
  split; [intros g o; apply hurt12_Inv |].
  split.
  { intros g hitbox. assert (H : preserves Inv (damage_pass hitbox))
      by (unfold damage_pass; pres inv_leaf). apply H. }
  split; [intros g hitbox; apply collect_pickups_Inv |].
  split; [intros g hitbox; apply smash_eggs_Inv |].
  intros g env dt. apply update_Inv.
Qed.

(** C4.  When [hurt] takes effect and brings the health of the active heart
    to 0: [heartsMax] is unchanged; if the heart is not the last one, it is
    left at 0, the index of the active heart grows by exactly 1, the new
    active heart is at 100 and the mode is still ['playing']; if it is the
    last one, the mode becomes ['gameover'] and the best score becomes the
    larger of the best score and the floor of the score. *)
Theorem hurt_empties_heart (g : Game) (o : Obstacle.obstacle) (amount : Q) :
  St.mode (state g) = Playing ->
  ~ 0 < Player.invuln (player g) ->
  Z.of_nat (length (St.hearts (state g))) = St.heartsMax (state g) ->
  (0 <= St.heartIndex (state g) < St.heartsMax (state g))%Z ->
  at_index (St.hearts (state g)) (St.heartIndex (state g)) - amount <= 0 ->
  let i := St.heartIndex (state g) in
  let g' := exec (hurt o amount) g in
  St.heartsMax (state g') = St.heartsMax (state g)
  /\ ((i < St.heartsMax (state g) - 1)%Z ->
      St.hearts (state g') !! Z.to_nat i = Some 0
      /\ St.heartIndex (state g') = (i + 1)%Z
      /\ St.hearts (state g') !! Z.to_nat (i + 1) = Some 100
      /\ St.mode (state g') = Playing)
  /\ (~ (i < St.heartsMax (state g) - 1)%Z ->
      St.mode (state g') = Gameover
      /\ St.best (state g') = Qmax (St.best (state g)) (floorQ (St.score (state g)))).
Proof.
  intros Hm Hi Hlen Hidx Hzero i g'.
  destruct (hurt_run g o amount Hm Hi) as (g1 & Hc & Hrun).
  destruct (knock_back_effect g o amount) as (Hs & _).
  apply cosmetic_state in Hc. cbv zeta in Hs. rewrite Hs in Hc. clear Hs.
  assert (Hin : (Z.to_nat i < length (St.hearts (state g)))%nat) by (subst i; lia).
  assert (Hh : at_index (St.hearts (state g1)) (St.heartIndex (state g1)) <= 0).
  { rewrite Hc. cbn -[Qmax]. fold i. rewrite at_index_store_eq by exact Hin.
    apply Q.max_lub; [lra | exact Hzero]. }
  assert (Hi1 : St.heartIndex (state g1) = i) by (rewrite Hc; reflexivity).
  assert (Hmax : St.heartsMax (state g1) = St.heartsMax (state g))
    by (rewrite Hc; reflexivity).
  subst g'. rewrite Hrun.
  destruct (Z.lt_ge_cases i (St.heartsMax (state g) - 1)) as [Hlt | Hge].
  - destruct (heart_out_next g1 Hh) as (Hs & _); [rewrite Hi1, Hmax; exact Hlt |].
    cbv zeta in Hs. rewrite Hs, Hi1, Hc. cbn -[Qmax].
    split; [reflexivity | split; [| intros; lia]].
    intros _. fold i. repeat split.
    + rewrite lookup_store_ne by lia. apply lookup_store_eq.
      rewrite length_store. exact Hin.
    + apply lookup_store_eq. rewrite !length_store. lia.
    + exact Hm.
  - destruct (heart_out_last g1 Hh) as (Hs & _); [rewrite Hi1, Hmax; lia |].
    cbv zeta in Hs. rewrite Hs, Hc. cbn -[Qmax floorQ].
    split; [reflexivity | split; [intros; lia |]].
    intros _. split; reflexivity.
Qed.

(** C5, as the code has it.  In the damage pass of a tick the state either
    stays as it is (the player is invulnerable, or no obstacle passes the
    tests), or exactly one obstacle inflicts damage, through one call of
    [hurt]: an obstacle the inner hitbox overlaps, while the player is not
    invulnerable, does not stand on that very obstacle, the bottom of the
    hitbox is below the top of the obstacle (by more than 4), and the
    horizontal centre of the player is at or left of that of the obstacle.
    Then the health of the active heart becomes [max(0, health - 12)], so
    it drops by exactly 12 when it was at least 12; the invulnerability
    timer is positive; and the horizontal velocity points away from the
    centre of the obstacle. *)
Theorem front_damage (g : Game) :
  (0 <= St.heartIndex (state g))%Z ->
  (Z.to_nat (St.heartIndex (state g)) < length (St.hearts (state g)))%nat ->
  let hitbox := hitbox_of g in
  let pl := player g in
  let i := St.heartIndex (state g) in
  let health := at_index (St.hearts (state g)) i in
  let g' := exec (damage_pass hitbox) g in
  let health' := at_index (St.hearts (state g')) i in
  (g' = g
   /\ (0 < Player.invuln pl \/ St.mode (state g) <> Playing
       \/ forall o, o ∈ obstacles g -> qualifies hitbox pl o = false))
  \/ exists o,
       o ∈ obstacles g
       /\ hits_obstacle hitbox o = true
       /\ ~ 0 < Player.invuln pl
       /\ ~ (ground_is_obstacle (Player.ground pl) o = true /\ Player.onGround pl = true)
       /\ Obstacle.y o + 4 < hb_y hitbox + hb_h hitbox
       /\ Player.x pl + Player.w pl * 0.5 <= Obstacle.x o + Obstacle.w o * 0.5
       /\ g' = exec (hurt o 12) g
       /\ health' == Qmax 0 (health - 12)
       /\ (12 <= health -> health' == health - 12)
       /\ 0 < Player.invuln (player g')
       /\ (Player.x pl + Player.w pl * 0.5 < Obstacle.x o + Obstacle.w o * 0.5 ->
           Player.vx (player g') < 0)
       /\ (Player.x pl + Player.w pl * 0.5 == Obstacle.x o + Obstacle.w o * 0.5 ->
           0 < Player.vx (player g')).
Proof.
  intros Hnn Hin hitbox pl i health g' health'.
  assert (Hpass : exec (damage_pass hitbox) g
                  = exec (damage_loop hitbox (obstacles g)) g) by reflexivity.
  subst health' g'. rewrite Hpass. clear Hpass.
  destruct (damage_loop_cases hitbox (obstacles g) g)
    as [[Hsame Hwhy] | (o & Ho & Hq & Hinv & Hmode & Hrun)].
  { left. split; [exact Hsame |].
    destruct Hwhy as [Hi | [Hm | Hall]]; [left; exact Hi | right; left; exact Hm |].
    right; right. intros o Ho. rewrite Forall_forall in Hall. apply Hall, Ho. }
  right. exists o.
  unfold qualifies in Hq. rewrite !andb_true_iff, !negb_true_iff in Hq.
  destruct Hq as (((Hhit & Hst) & Hab) & Hfr).
  destruct (hurt_health g o 12 Hmode Hinv Hin Hnn) as (Hh & Hi' & Hvx).
  cbv zeta in Hh, Hi', Hvx. rewrite Hrun.
  fold i in Hh. fold health in Hh. fold pl in Hvx.
  split; [exact Ho | split; [exact Hhit | split; [exact Hinv |]]].
  split.
  { intros [H1 H2]. unfold stands_on in Hst. fold pl in Hst.
    rewrite H1, H2 in Hst. discriminate Hst. }
  split.
  { unfold aboveTop in Hab. apply Qleb_gt in Hab. exact Hab. }
  assert (Hfront : Player.x pl + Player.w pl * 0.5
                   <= Obstacle.x o + Obstacle.w o * 0.5).
  { unfold fromFront in Hfr. apply Qleb_le in Hfr. exact Hfr. }
  split; [exact Hfront | split; [reflexivity | split; [exact Hh |]]].
  split.
  { intros Hge. rewrite Hh. apply Q.max_r. lra. }
  split; [exact Hi' |].
  split.
  - intros Hlt. apply Qltb_lt in Hlt. rewrite Hvx, Hlt. reflexivity.
  - intros Heq.
    assert (Hge : (Player.x pl + Player.w pl * 0.5
                   <? Obstacle.x o + Obstacle.w o * 0.5) = false)
      by (apply Qltb_ge; lra).
    rewrite Hvx, Hge. reflexivity.
Qed.

(** C6.  Calling [hurt] while the invulnerability timer of the player is
    positive, or while the mode is not ['playing'], changes nothing at all:
    the whole state after the call (health, corn, position, velocity, all
    timers, every pool) is the state before it. *)
Theorem hurt_invulnerable_noop (g : Game) (o : Obstacle.obstacle) (amount : Q) :
  0 < Player.invuln (player g) \/ St.mode (state g) <> Playing ->
  exec (hurt o amount) g = g.
Proof.
  forget_env.
  intros H. unfold exec. rewrite hurt_noop_eq; [reflexivity | tauto].
Qed.

(** C7, as the code has it.  Collecting an untaken pickup of value [v]
    (1 or 3, never 0) marks it taken, adds exactly [v] to the corn counter
    and exactly [60 * v] to the score; apart from that the state changes
    only by the visual effect: [featherBurst] adds feathers at the place of
    the pickup to the end of the particle pool, as many as [randi(7, 11)]
    gives, and draws one random number for their count and five for each
    of them.  With [Math.random()] in its range that is 7 to 12 feathers:
    12 when the rounding of the sum in [randi] reaches 12. *)
Theorem collect_effect (hitbox : Hitbox) (p : Pickup.pickup) (g : Game) :
  Pickup.taken p = false ->
  hits_circle hitbox (Pickup.x p) (Pickup.y p) (Pickup.r p) = true ->
  Pickup.value p <> 0%Z ->
  let v := Pickup.value p in
  let p' := fst (collect hitbox p g) in
  let g' := snd (collect hitbox p g) in
  p' = Pickup.set_taken true p
  /\ St.corn (state g') = (St.corn (state g) + v)%Z
  /\ St.score (state g') = St.score (state g) + 60 * inject_Z v
  /\ cosmetic
       (set_state
          (St.set_score (St.score (state g) + 60 * inject_Z v)
             (St.set_corn (St.corn (state g) + v)%Z (state g))) g)
       g'
  /\ exists new,
       particles g' = particles g ++ new
       /\ Forall (feather_at (Pickup.x p) (Pickup.y p)) new
       /\ length new = passes (fst (randi 7 11 g))
       /\ rng g' = (rng g + 1 + 5 * length new)%nat
       /\ (monotone_rounding -> doubles_for 7 11 -> 0 <= random (rng g) < 1 ->
           (7 <= length new <= 12)%nat).
Proof.
  intros Ht Hh Hv v p' g'.
  assert (Hor : or1 (Pickup.value (Pickup.set_taken true p)) = v).
  { cbn. unfold or1. destruct (Z.eqb_spec (Pickup.value p) 0); [contradiction |].
    reflexivity. }
  destruct (collect hitbox p g) as [p1 g1] eqn:E. subst p' g'. cbn [fst snd].
  unfold collect in E. rewrite Ht, Hh, Hor in E.
  unfold bind, upd_state, modify, ret in E.
  match type of E with context [featherBurst ?x ?y ?g0] =>
    pose proof (featherBurst_cosmetic x y g0) as Hc; unfold exec in Hc;
    pose proof (featherBurst_run x y g0) as Hrun; unfold exec in Hrun;
    assert (Hp0 : particles g0 = particles g) by (destruct g; reflexivity);
    assert (Hr0 : rng g0 = rng g) by (destruct g; reflexivity);
    assert (Hn0 : fst (randi 7 11 g0) = fst (randi 7 11 g))
      by (rewrite !randi_run; cbn [fst]; rewrite Hr0; reflexivity);
    rewrite Hp0, Hr0, Hn0 in Hrun;
    destruct (featherBurst x y g0) as [[] gf] end.
  injection E as <- <-. cbn [fst snd] in Hc, Hrun.
  pose proof (cosmetic_state _ _ Hc) as Hs.
  split; [reflexivity |]. rewrite Hs. cbn.
  split; [reflexivity | split; [reflexivity | split; [exact Hc |]]].
  destruct Hrun as (new & Hnew & Hlen & HF & Hrng).
  exists new. split; [exact Hnew |]. split; [exact HF |]. split; [exact Hlen |].
  split; [exact Hrng |].
  intros Hm Hd Hu. rewrite Hlen. apply (feather_count g Hm Hd Hu).
Qed.


(** C9, at the input where the code departs from it.  A player that stands
    on an obstacle, with the down action held, is dropped as it would be
    from a platform: the drop-through timer starts at 0.35, the supporting
    reference is cleared and the player is no longer grounded. *)
Theorem drop_through_on_obstacle (g : Game) (o : Obstacle.obstacle) (dt : Q) :
  let g0 :=
    set_player
      (Player.set_ground (Some (OnObstacle o)) (Player.set_onGround true (player g))) g in
  let g' := exec (drop_through dt true) g0 in
  Player.ground (player g0) = Some (OnObstacle o)
  /\ Player.drop (player g') = 0.35
  /\ Player.ground (player g') = None
  /\ Player.onGround (player g') = false.
Proof. cbv zeta. repeat split; reflexivity. Qed.

(** C10, as the code has it.  [normalizeName] throws for a value that
    [String] cannot convert, and only for such a value.  For every other
    value, with [str] the value as a string (the empty string for [null]
    and [undefined]), it returns a string of at least one and at most 14
    code units: the words of [str], put together with one space between
    two of them, cut after 14 code units (the cut can leave a space at the
    end), or the name ['Nugget'] when [str] has no word. *)
Theorem normalizeName_spec :
  normalizeName_of_value (Known Nullish) = Some JsString.Nugget
  /\ (forall str : JsString.t,
        normalizeName_of_value (Known (Text str)) = Some (normalizeName_in_words str)
        /\ normalizeName_of_value (Other (Some str))
           = Some (normalizeName_in_words str))
  /\ (forall v : JsValue, normalizeName_of_value v = None <-> v = Other None)
  /\ (forall a : NameArg, normalizeName_of_value (Known a) = Some (normalizeName a))
  /\ (forall str : JsString.t,
        let s := join_words (words str) in
        let r := normalizeName_in_words str in
        (1 <= length r <= 14)%nat
        /\ r = (if decide (s = []) then JsString.Nugget else take 14 s)
        /\ (only_spaces s /\ no_double_space s /\ starts_clean s /\ ends_clean s)
        /\ (only_spaces r /\ no_double_space r /\ starts_clean r))
  /\ normalizeName_of_value
       (Known (Text (JsString.literal "  Captain" ++ [9%N; 10%N]
                     ++ JsString.literal "Cluck   the Third ")))
     = Some (JsString.literal "Captain Cluck ").
Proof.
  forget_env.
  assert (Hcode : forall a, normalizeName_of_value (Known a) = Some (normalizeName a))
    by (intros a; reflexivity).
  assert (Hother : forall str, normalizeName_of_value (Other (Some str))
                               = Some (normalizeName (Text str)))
    by (intros str; reflexivity).
  split; [reflexivity |].
  split.
  { intros str. rewrite Hcode, Hother, normalizeName_in_words_eq. split; reflexivity. }
  split.
  { intros [a | [str |]].
    - rewrite Hcode. split; intros H; discriminate H.
    - rewrite Hother. split; intros H; discriminate H.
    - split; reflexivity. }
  split; [exact Hcode |].
  split; [| vm_compute; reflexivity].
  intros str s r.
  pose proof (trimmed_shape str) as Hs. cbv zeta in Hs.
  rewrite trim_in_words in Hs. fold s in Hs.
  assert (Hr : r = if decide (s = []) then JsString.Nugget else take 14 s).
  { subst r. unfold normalizeName_in_words. cbv zeta. fold s.
    destruct s as [|c s']; [reflexivity |].
    cbn [take]. destruct (decide (c :: take 13 s' = [])); [discriminate |].
    destruct (decide (c :: s' = [])); [discriminate | reflexivity]. }
  split; [| split; [exact Hr | split; [exact Hs |]]].
  - rewrite Hr. destruct (decide (s = [])) as [E | E].
    + cbn. lia.
    + rewrite length_take. destruct s; [congruence | cbn [length]; lia].
  - rewrite Hr. destruct (decide (s = [])) as [E | E].
    + split; [| split].
      * repeat constructor; discriminate.
      * cbn. tauto.
      * intros c Hc. cbn in Hc. injection Hc as <-. reflexivity.
    + destruct Hs as (H1 & H2 & H3 & _). split; [| split].
      * apply Forall_take, H1.
      * apply take_no_double, H2.
      * apply take_starts_clean, H3.
Qed.

(** * More properties of the code *)

(** ** The numeric helpers *)

Lemma clamp_between (v a b : Q) : a <= b -> a <= clamp v a b <= b.
Proof.
  intros H. unfold clamp. split; [apply Q.le_max_l |].
  apply Q.max_lub; [exact H | apply Q.le_min_l].
Qed.

Lemma clamp_inside (v a b : Q) : a <= v <= b -> clamp v a b == v.
Proof.
  intros [Ha Hb]. unfold clamp.
  rewrite (Q.min_r b v) by exact Hb. apply Q.max_r, Ha.
Qed.

Lemma lerp_between (a b t : Q) : a <= b -> 0 <= t <= 1 -> a <= lerp a b t <= b.
Proof. intros Hab [H0 H1]. unfold lerp. split; nra. Qed.

(** X1.  [clamp(v, a, b)] is never below [a]; when the bounds are in
    order it is not above [b] either, and it is [v] itself when [v] lies
    between them; when the bounds are crossed ([b < a]) it is [a],
    whatever [v] is. *)
Theorem clamp_spec (v a b : Q) :
  a <= clamp v a b
  /\ (a <= b -> clamp v a b <= b)
  /\ (a <= v <= b -> clamp v a b == v)
  /\ (b < a -> clamp v a b == a).
Proof.
  split; [apply Q.le_max_l |].
  split; [intros H; apply clamp_between, H |].
  split; [apply clamp_inside |].
  intros H. unfold clamp. apply Q.max_l.
  eapply Qle_trans; [apply Q.le_min_l | apply Qlt_le_weak, H].
Qed.

(** X2.  The overlap test [aabb] does not depend on the order of the
    two boxes, and it is strict: boxes that only touch along an edge, the
    right side of one on the left side of the other or the bottom of one
    on the top of the other, do not overlap. *)
Theorem aabb_symmetric_strict (ax ay aw ah bx by' bw bh : Q) :
  aabb ax ay aw ah bx by' bw bh = aabb bx by' bw bh ax ay aw ah
  /\ (ax + aw <= bx -> aabb ax ay aw ah bx by' bw bh = false)
  /\ (ay + ah <= by' -> aabb ax ay aw ah bx by' bw bh = false).
Proof.
  unfold aabb. split; [| split]; intros.
  - destruct (ax <? bx + bw), (bx <? ax + aw), (ay <? by' + bh), (by' <? ay + ah);
      reflexivity.
  - assert (E : (bx <? ax + aw) = false) by (apply Qltb_ge; assumption).
    rewrite E, andb_false_r. reflexivity.
  - assert (E : (by' <? ay + ah) = false) by (apply Qltb_ge; assumption).
    rewrite E, andb_false_r. reflexivity.
Qed.

(** ** Random integers *)

(** X3.  With [Math.random()] in its range, [0 <= u < 1], a rounding that
    keeps the order, and [a], [b + 1] and [b + 1 - a] doubles, [randi(a, b)]
    for integers [a <= b] is an integer between [a] and [b + 1], and the
    call draws exactly one random number.  The result is [b + 1], one more
    than the name of the function promises, exactly when the sum
    [a + u * (b + 1 - a)] is rounded up to [b + 1]. *)
Theorem randi_range (a b : Z) (g : Game) :
  monotone_rounding -> doubles_for (inject_Z a) (inject_Z b) ->
  (a <= b)%Z -> 0 <= random (rng g) < 1 ->
  exists k : Z,
    randi (inject_Z a) (inject_Z b) g = (inject_Z k, set_rng (S (rng g)) g)
    /\ (a <= k <= b + 1)%Z
    /\ ((k <= b)%Z
        <-> dbl (inject_Z a
                 + dbl (random (rng g) * dbl (dbl (inject_Z b + 1) - inject_Z a)))
            < inject_Z b + 1).
Proof.
  intros Hm Hd Hab Hu.
  destruct (randi_bounds a b g Hm Hd Hab Hu) as (k & Hk & Hr & Hlt).
  exists k. split; [| split; [exact Hr | exact Hlt]].
  rewrite randi_run in *. cbn [fst] in Hk. rewrite Hk. reflexivity.
Qed.

(** ** The step of a frame *)

Lemma frame_caps : 1 / 20 == 1 # 20 /\ 1 / 15 == 1 # 15.
Proof. split; reflexivity. Qed.

Lemma frame_dt_range (elapsedMs : Q) (g : Game) :
  0 <= frame_dt elapsedMs g <= 1 / 15.
Proof.
  forget_env.
  unfold frame_dt. destruct frame_caps as [E20 E15].
  assert (H : 0 <= clamp (elapsedMs / 1000) 0 (1 / 20) <= 1 / 20)
    by (apply clamp_between; lra).
  destruct (Mode_eqb (St.mode (state g)) Playing).
  - apply clamp_between. lra.
  - lra.
Qed.

(** X4.  The step [dt] that [frame] hands to [update] is never negative
    and never more than 1/15 of a second, whatever time has passed since
    the last frame and whatever the time scale is; outside a run it is at
    most 1/20; and it is 0 when no time has passed or the clock went back. *)
Theorem frame_dt_bounds (elapsedMs : Q) (g : Game) :
  0 <= frame_dt elapsedMs g <= 1 / 15
  /\ (St.mode (state g) <> Playing -> frame_dt elapsedMs g <= 1 / 20)
  /\ (elapsedMs <= 0 -> frame_dt elapsedMs g == 0).
Proof.
  forget_env.
  split; [apply frame_dt_range |]. unfold frame_dt.
  destruct frame_caps as [E20 E15].
  assert (H : 0 <= clamp (elapsedMs / 1000) 0 (1 / 20) <= 1 / 20)
    by (apply clamp_between; lra).
  split.
  - intros Hm. destruct (St.mode (state g)); cbn [Mode_eqb]; try lra. congruence.
  - intros He.
    assert (H0 : clamp (elapsedMs / 1000) 0 (1 / 20) == 0).
    { unfold clamp. apply Q.max_l.
      eapply Qle_trans; [apply Q.le_min_r |].
      apply Qle_shift_div_r; lra. }
    destruct (Mode_eqb (St.mode (state g)) Playing); [| exact H0].
    set (X := clamp (elapsedMs / 1000) 0 (1 / 20)) in *. clearbody X.
    apply Qle_antisym; [| apply clamp_between; lra].
    unfold clamp. apply Q.max_lub; [lra |].
    eapply Qle_trans; [apply Q.le_min_r | nra].
Qed.

(** ** The canvas *)

(** X5.  After [fitCanvas] the canvas is at least 320 by 240 and its
    sides are whole numbers of pixels, whatever rectangle and pixel ratio
    the page reports; the pixel ratio counts for at most 2; and a second
    call with the same rectangle leaves the canvas as it is. *)
Theorem fitCanvas_size (rect_width rect_height : Q) (devicePixelRatio : option Q)
    (c : Canvas) :
  let c' := fitCanvas rect_width rect_height devicePixelRatio c in
  320 <= cv_width c' /\ 240 <= cv_height c'
  /\ (exists n m : Z, cv_width c' == inject_Z n /\ cv_height c' == inject_Z m)
  /\ (0 <= rect_width -> cv_width c' <= Qmax 320 (2 * rect_width))
  /\ (0 <= rect_height -> cv_height c' <= Qmax 240 (2 * rect_height))
  /\ fitCanvas rect_width rect_height devicePixelRatio c' = c'.
Proof.
  forget_env.
  cbv zeta. unfold fitCanvas.
  set (dpr := Qmax 1 (Qmin 2 (dpr_or1 devicePixelRatio))).
  assert (Hdpr : 1 <= dpr <= 2) by (apply clamp_between; lra).
  clearbody dpr.
  set (w := Qmax 320 (floorQ (rect_width * dpr))).
  set (h := Qmax 240 (floorQ (rect_height * dpr))).
  assert (Hw : 320 <= w) by apply Q.le_max_l.
  assert (Hh : 240 <= h) by apply Q.le_max_l.
  assert (Hwi : exists n : Z, w == inject_Z n).
  { exists (Z.max 320 (Qfloor (rect_width * dpr))). unfold w, floorQ.
    destruct (Q.max_spec 320 (inject_Z (Qfloor (rect_width * dpr)))) as [[L ->] | [L ->]].
    - rewrite Z.max_r; [reflexivity |].
      change 320 with (inject_Z 320) in L. rewrite <- Zlt_Qlt in L. lia.
    - rewrite Z.max_l; [reflexivity |].
      change 320 with (inject_Z 320) in L. rewrite <- Zle_Qle in L. lia. }
  assert (Hhi : exists m : Z, h == inject_Z m).
  { exists (Z.max 240 (Qfloor (rect_height * dpr))). unfold h, floorQ.
    destruct (Q.max_spec 240 (inject_Z (Qfloor (rect_height * dpr)))) as [[L ->] | [L ->]].
    - rewrite Z.max_r; [reflexivity |].
      change 240 with (inject_Z 240) in L. rewrite <- Zlt_Qlt in L. lia.
    - rewrite Z.max_l; [reflexivity |].
      change 240 with (inject_Z 240) in L. rewrite <- Zle_Qle in L. lia. }
  assert (Hwu : 0 <= rect_width -> w <= Qmax 320 (2 * rect_width)).
  { intros H0. unfold w. apply Q.max_le_compat_l.
    eapply Qle_trans; [apply Qfloor_le | nra]. }
  assert (Hhu : 0 <= rect_height -> h <= Qmax 240 (2 * rect_height)).
  { intros H0. unfold h. apply Q.max_le_compat_l.
    eapply Qle_trans; [apply Qfloor_le | nra]. }
  clearbody w h.
  assert (Hsame : forall c0 : Canvas,
            cv_width c0 == w -> cv_height c0 == h ->
            (if negb (Qeq_bool (cv_width c0) w) || negb (Qeq_bool (cv_height c0) h)
             then mkCanvas w h else c0) = c0).
  { intros c0 E1 E2. apply Qeq_bool_iff in E1, E2. rewrite E1, E2. reflexivity. }
  assert (Hgoal : forall c0 : Canvas,
            cv_width c0 == w -> cv_height c0 == h ->
            320 <= cv_width c0 /\ 240 <= cv_height c0
            /\ (exists n m : Z, cv_width c0 == inject_Z n /\ cv_height c0 == inject_Z m)
            /\ (0 <= rect_width -> cv_width c0 <= Qmax 320 (2 * rect_width))
            /\ (0 <= rect_height -> cv_height c0 <= Qmax 240 (2 * rect_height))
            /\ (if negb (Qeq_bool (cv_width c0) w) || negb (Qeq_bool (cv_height c0) h)
                then mkCanvas w h else c0) = c0).
  { intros c0 E1 E2. destruct Hwi as (n & Hn), Hhi as (m & Hm).
    split; [rewrite E1; exact Hw |]. split; [rewrite E2; exact Hh |].
    split; [exists n, m; rewrite E1, E2; split; assumption |].
    split; [intros H0; rewrite E1; apply Hwu, H0 |].
    split; [intros H0; rewrite E2; apply Hhu, H0 |].
    apply Hsame; assumption. }
  destruct (negb (Qeq_bool (cv_width c) w) || negb (Qeq_bool (cv_height c) h)) eqn:E.
  - apply (Hgoal (mkCanvas w h)); reflexivity.
  - apply orb_false_elim in E. destruct E as [E1 E2].
    apply negb_false_iff, Qeq_bool_iff in E1, E2.
    apply Hgoal; assumption.
Qed.

(** ** The heart gauges *)

Lemma gauge_height (hp01 : Q) :
  let h := Qmax 0 (roundQ (24 * clamp hp01 0 1)) in
  0 <= h <= 24 /\ (exists n : Z, h == inject_Z n)
  /\ (1 <= hp01 -> h == 24) /\ (hp01 <= 0 -> h == 0).
Proof.
  cbv zeta. unfold roundQ.
  assert (Hhp : 0 <= clamp hp01 0 1 <= 1) by (apply clamp_between; lra).
  set (hp := clamp hp01 0 1) in *.
  assert (Hlo : (0 <= Qfloor (24 * hp + 0.5))%Z).
  { apply Z.le_trans with (Qfloor 0); [discriminate | apply Qfloor_resp_le; lra]. }
  assert (Hhi : (Qfloor (24 * hp + 0.5) <= 24)%Z).
  { apply Z.le_trans with (Qfloor 24.5); [apply Qfloor_resp_le; lra | discriminate]. }
  assert (Hmax : Qmax 0 (inject_Z (Qfloor (24 * hp + 0.5)))
                 == inject_Z (Qfloor (24 * hp + 0.5))).
  { apply Q.max_r. change 0 with (inject_Z 0). rewrite <- Zle_Qle. exact Hlo. }
  split; [| split; [eexists; exact Hmax | split]].
  - rewrite Hmax. change 0 with (inject_Z 0). change 24 with (inject_Z 24).
    rewrite <- !Zle_Qle. split; assumption.
  - intros H1. rewrite Hmax. assert (E : hp == 1).
    { apply Qle_antisym; [lra |].
      unfold hp, clamp. eapply Qle_trans; [| apply Q.le_max_r]. apply Q.min_glb; lra. }
    assert (E' : 24 * hp + 0.5 == 24.5) by (rewrite E; reflexivity).
    rewrite E'. reflexivity.
  - intros H0. rewrite Hmax. assert (E : hp == 0).
    { apply Qle_antisym; [| lra]. unfold hp, clamp. apply Q.max_lub; [lra |].
      eapply Qle_trans; [apply Q.le_min_r | exact H0]. }
    assert (E' : 24 * hp + 0.5 == 0.5) by (rewrite E; reflexivity).
    rewrite E'. reflexivity.
Qed.

(** X6.  Whatever value [setHeartFill] is given, the clip rectangle of
    the heart it addresses stays inside its frame of 24 units: a whole
    height between 0 and 24, with [y] the rest of the frame; full from a
    value of 1 on and empty from 0 down; the opacity of the fill is
    between 0.1 and 1.  An element the page does not have stays missing,
    and the gauge of the other heart is not touched.  Any index other
    than 0 addresses the second heart. *)
Theorem setHeartFill_gauge (idx : Z) (hp01 : Q) (u : Ui) :
  let u' := setHeartFill idx hp01 u in
  (forall r, rect_of idx u' = Some r ->
     0 <= hr_height r <= 24
     /\ hr_y r = 24 - hr_height r
     /\ 0 <= hr_y r <= 24
     /\ (exists n : Z, hr_height r == inject_Z n)
     /\ (1 <= hp01 -> hr_height r == 24)
     /\ (hp01 <= 0 -> hr_height r == 0))
  /\ (forall o, fill_of idx u' = Some o -> 0.1 <= o <= 1)
  /\ (rect_of idx u = None -> rect_of idx u' = None)
  /\ (fill_of idx u = None -> fill_of idx u' = None)
  /\ (forall j, Z.eqb j 0 = negb (Z.eqb idx 0) ->
        rect_of j u' = rect_of j u /\ fill_of j u' = fill_of j u)
  /\ (idx <> 0%Z -> setHeartFill idx hp01 u = setHeartFill 1 hp01 u).
Proof.
  forget_env.
  cbv zeta.
  pose proof (gauge_height hp01) as Hh. cbv zeta in Hh.
  assert (Hop : 0.1 <= lerp 0.10 1.0 (clamp hp01 0 1) <= 1).
  { assert (Hhp : 0 <= clamp hp01 0 1 <= 1) by (apply clamp_between; lra).
    unfold lerp. lra. }
  unfold setHeartFill, fill_of, rect_of, set_fill, set_rect.
  set (h := Qmax 0 (roundQ (24 * clamp hp01 0 1))) in *. clearbody h.
  set (o := lerp 0.10 1.0 (clamp hp01 0 1)) in *. clearbody o.
  destruct Hh as (Hh1 & Hh2 & Hh3 & Hh4).
  assert (Hr : forall r, Some (mkHeartRect (24 - h) h) = Some r ->
            0 <= hr_height r <= 24 /\ hr_y r = 24 - hr_height r
            /\ 0 <= hr_y r <= 24 /\ (exists n : Z, hr_height r == inject_Z n)
            /\ (1 <= hp01 -> hr_height r == 24) /\ (hp01 <= 0 -> hr_height r == 0)).
  { intros r [= <-]. cbn. repeat split; try tauto; lra. }
  assert (Ho : forall o', Some o = Some o' -> 0.1 <= o' <= 1).
  { intros o' [= <-]. exact Hop. }
  destruct u as [r1 f1 r2 f2].
  split; [intros r Hr' | split; [intros o' Ho' | split; [intros Hn | split;
    [intros Hn | split; [intros j Hj | intros Hidx]]]]].
  - apply Hr. destruct (Z.eqb idx 0), r1, f1, r2, f2; cbn in Hr' |- *;
      first [discriminate Hr' | exact Hr'].
  - apply Ho. destruct (Z.eqb idx 0), r1, f1, r2, f2; cbn in Ho' |- *;
      first [discriminate Ho' | exact Ho'].
  - destruct (Z.eqb idx 0), r1, f1, r2, f2; cbn in Hn |- *;
      first [discriminate Hn | reflexivity].
  - destruct (Z.eqb idx 0), r1, f1, r2, f2; cbn in Hn |- *;
      first [discriminate Hn | reflexivity].
  - destruct (Z.eqb idx 0), (Z.eqb j 0); try discriminate Hj;
      destruct r1, f1, r2, f2; cbn; split; reflexivity.
  - destruct (Z.eqb_spec idx 0) as [E | _]; [contradiction |].
    change (Z.eqb 1 0) with false. reflexivity.
Qed.

(** ** The keyboard *)

Lemma has_app (ks : list string) (k k' : string) :
  has (ks ++ [k]) k' = has ks k' || String.eqb k' k.
Proof. unfold has. rewrite existsb_app. cbn. rewrite orb_false_r. reflexivity. Qed.

Lemma has_filter (ks : list string) (k k' : string) :
  has (filter (fun x => x <> k) ks) k' = has ks k' && negb (String.eqb k' k).
Proof.
  unfold has. induction ks as [|a r IH]; [reflexivity |].
  rewrite filter_cons. destruct (decide (a <> k)) as [Hne | He].
  - cbn [existsb]. rewrite IH.
    destruct (String.eqb_spec k' a), (String.eqb_spec k' k),
      (existsb (String.eqb k') r); cbn; try reflexivity; congruence.
  - assert (a = k) by (destruct (decide (a = k)); [assumption | contradiction]).
    subst a. rewrite IH. cbn [existsb].
    destruct (String.eqb_spec k' k), (existsb (String.eqb k') r); reflexivity.
Qed.

Lemma keys_add_run (k : string) (g : Game) :
  state (snd (keys_add k g)) = state g
  /\ forall k', has (keys (snd (keys_add k g))) k' = has (keys g) k' || String.eqb k' k.
Proof.
  forget_env.
  unfold keys_add, modify. cbn [snd].
  destruct (has (keys g) k) eqn:E; cbn; split; try reflexivity; intros k'.
  - destruct (String.eqb_spec k' k) as [-> | _];
      [rewrite E; reflexivity | rewrite orb_false_r; reflexivity].
  - apply has_app.
Qed.

Ltac same_leaf :=
  let g := fresh "g" in
  let H := fresh "H" in
  intros g H; exact H.

Lemma resetRun_keeps_mode (env : Env) (m : Mode) :
  preserves (fun g => St.mode (state g) = m) (resetRun env).
Proof. unfold resetRun. pres same_leaf. Qed.

Lemma resetRun_keeps_keys (env : Env) (ks : list string) :
  preserves (fun g => keys g = ks) (resetRun env).
Proof. unfold resetRun. pres same_leaf. Qed.

Lemma startGame_mode (env : Env) (g : Game) :
  St.mode (state (snd (startGame env g))) = Playing.
Proof.
  change (St.mode (state (exec (startGame env) g)) = Playing).
  unfold startGame. rewrite !exec_bind. reflexivity.
Qed.

Lemma startGame_keeps_keys (env : Env) (ks : list string) :
  preserves (fun g => keys g = ks) (startGame env).
Proof.
  pose proof (resetRun_keeps_keys env ks). unfold startGame. pres same_leaf.
Qed.

(** The mode a key leads to. *)
Definition mode_after_key (k : string) (m : Mode) : Mode :=
  if String.eqb k "Enter"
  then match m with Title | Gameover => Playing | _ => m end
  else if String.eqb k "p" || String.eqb k "P"
  then match m with Playing => Paused | Paused => Playing | _ => m end
  else if String.eqb k "r" || String.eqb k "R"
  then Playing
  else m.

Ltac decide_keys :=
  repeat match goal with
         | |- context [String.eqb ?a ?b] =>
             destruct (String.eqb_spec a b); try discriminate; try congruence; subst
         end.

(** X7.  What a key does to the mode: Enter starts a run from the title
    screen and after a game over and does nothing to the mode otherwise;
    P toggles between playing and paused and does nothing on the title
    screen or after a game over; R always leads to playing; no other key
    changes the mode.  No key leads to the title screen or to game over. *)
Theorem keyDown_mode (env : Env) (k : string) (isTyping : bool) (g : Game) :
  St.mode (state (exec (keyDown env k isTyping) g))
  = mode_after_key k (St.mode (state g)).
Proof.
  unfold mode_after_key, keyDown.
  repeat (rewrite exec_bind; cbn [gets fst snd]).
  destruct (keys_add_run k g) as [H1 _].
  set (g1 := snd (keys_add k g)) in *. clearbody g1.
  decide_keys; rewrite ?H1; destruct (St.mode (state g)) eqn:Em; destruct isTyping;
    repeat (cbn -[startGame resetRun]; rewrite ?H1, ?Em, ?startGame_mode);
    try reflexivity.
  all: try (apply resetRun_keeps_mode; cbn; rewrite ?H1, ?Em; reflexivity).
  all: apply startGame_mode.
Qed.

Lemma keyDown_keys (env : Env) (k : string) (isTyping : bool) (g : Game) :
  k <> "p"%string -> k <> "P"%string ->
  keys (exec (keyDown env k isTyping) g) = keys (snd (keys_add k g)).
Proof.
  intros Hp HP. unfold keyDown.
  repeat (rewrite exec_bind; cbn [gets fst snd]).
  set (g1 := snd (keys_add k g)) in *. clearbody g1.
  pose proof (startGame_keeps_keys env (keys g1)) as Hs.
  pose proof (resetRun_keeps_keys env (keys g1)) as Hr.
  decide_keys; destruct (St.mode (state g1)) eqn:Em; destruct isTyping;
    repeat (cbn -[startGame resetRun]; rewrite ?Em);
    try reflexivity.
  all: match goal with
       | |- context [startGame] => apply Hs
       | |- context [resetRun] => apply Hr
       end; reflexivity.
Qed.

(** X8.  The set [keys] follows the keyboard: releasing a key removes
    that key and no other, and changes nothing else in the game; pressing
    a key other than P adds that key and keeps the others, also when the
    key starts or restarts a run. *)
Theorem keys_follow_keyboard (env : Env) (k k' : string) (isTyping : bool) (g : Game) :
  exec (keyUp k) g = set_keys (keys (exec (keyUp k) g)) g
  /\ has (keys (exec (keyUp k) g)) k' = has (keys g) k' && negb (String.eqb k' k)
  /\ (k <> "p"%string -> k <> "P"%string ->
      has (keys (exec (keyDown env k isTyping) g)) k'
      = has (keys g) k' || String.eqb k' k).
Proof.
  split; [reflexivity |]. split; [apply has_filter |].
  intros Hp HP. rewrite keyDown_keys by assumption. apply keys_add_run.
Qed.

Lemma keys_add_shape (k : string) (g : Game) :
  exists ks, snd (keys_add k g) = set_keys ks g.
Proof.
  forget_env.
  unfold keys_add, modify. cbn [snd]. destruct (has (keys g) k).
  - exists (keys g). destruct g; reflexivity.
  - eexists. reflexivity.
Qed.



(** ** A frame outside a run *)

Lemma smooth_loop_shape (n : nat) (i : Z) (title : bool) (dt : Q) (g : Game) :
  exists hs',
    snd (smooth_loop n i title dt g) = set_state (St.set_heartsSmooth hs' (state g)) g
    /\ length hs' = length (St.heartsSmooth (state g)).
Proof.
  revert i g. induction n as [|n IH]; intros i g; cbn [smooth_loop].
  - exists (St.heartsSmooth (state g)). split; [| reflexivity].
    destruct g as [s]; destruct s; reflexivity.
  - unfold bind, upd_state, modify. cbn [fst snd].
    match goal with |- context [smooth_loop n ?j title dt ?g1] =>
      destruct (IH j g1) as (hs' & E & L) end.
    exists hs'. rewrite E. cbn. split; [reflexivity |].
    rewrite L. apply length_store.
Qed.

(** X10.  Outside a run (on the title screen, while paused, after a game
    over) [update] only advances the clock and the blink timer, reads the
    bounds of the world from the canvas again and smooths the displayed
    health; everything else (the player, the pools, the spawners, score,
    corn, best, the hearts, the keys, the random numbers drawn) is exactly
    as before. *)
Theorem update_outside_run (env : Env) (dt : Q) (g : Game) :
  St.mode (state g) <> Playing ->
  exists hs',
    exec (update env dt) g
    = set_state
        (St.set_heartsSmooth hs'
           (St.set_hintBlink (St.hintBlink (state g) + dt)
              (St.set_t (St.t (state g) + dt) (St.set_dt dt (state g)))))
        (set_world
           (World.set_rightBound (floorQ (canvas_width env * 0.62))
              (World.set_leftBound (floorQ (canvas_width env * 0.08))
                 (World.set_floorY (floorQ (canvas_height env * 0.78)) (world g))))
           g)
    /\ length hs' = length (St.heartsSmooth (state g)).
Proof.
  intros Hm. unfold update. rewrite exec_bind. cbv beta.
  rewrite exec_bind. cbn [gets fst snd].
  assert (Hs : St.mode (state (snd (tick_header env dt g))) = St.mode (state g))
    by reflexivity.
  assert (Hn : negb (Mode_eqb (St.mode (state (snd (tick_header env dt g)))) Playing)
               = true).
  { rewrite Hs. destruct (St.mode (state g)); try reflexivity. congruence. }
  rewrite Hn. unfold idle. rewrite exec_bind. cbv beta. rewrite exec_bind.
  cbn [gets fst snd]. unfold smooth_hearts. rewrite exec_bind. cbn [gets fst snd].
  unfold exec.
  match goal with |- context [smooth_loop ?n ?i ?t dt ?g1] =>
    destruct (smooth_loop_shape n i t dt g1) as (hs' & E & L) end.
  exists hs'. rewrite E. split; [| exact L].
  destruct g as [s]; destruct s; reflexivity.
Qed.

(** ** Jumping *)

(** A jump is due: one was asked for in this tick or less than [dt]
    short of 0.12 seconds ago, and the player is on the ground or left it
    less than [dt] short of 0.10 seconds ago. *)
Definition jump_fires (dt : Q) (jump : bool) (g : Game) : bool :=
  (jump || (dt <? Player.jumpBuffered (player g)))
  && (Player.onGround (player g) || (dt <? Player.coyote (player g))).

Lemma Qmax0_pos (x dt : Q) : (0 <? Qmax 0 (x - dt)) = (dt <? x).
Proof.
  destruct (dt <? x) eqn:E.
  - apply Qltb_lt in E. apply Qltb_lt.
    eapply Qlt_le_trans; [| apply Q.le_max_r]. lra.
  - apply Qltb_ge in E. apply Qltb_ge. apply Q.max_lub; lra.
Qed.

(** X11.  Jump buffering and coyote time: [update] makes the player jump
    exactly when a jump is due ([jump_fires]); the jump gives the player
    the jump velocity of the world, takes it off the ground and uses up
    both the buffer and the coyote time, so a second jump needs the ground
    again; when no jump is due the step leaves the vertical velocity and
    the grounding alone and draws no feathers.  In particular there is no
    jump in the air once the coyote time has run out. *)
Theorem jump_step_spec (dt : Q) (jump : bool) (g : Game) :
  let g' := exec (jump_step dt jump) g in
  (jump_fires dt jump g = true ->
   Player.vy (player g') = World.jumpVel (world g)
   /\ Player.onGround (player g') = false
   /\ Player.coyote (player g') = 0
   /\ Player.jumpBuffered (player g') = 0)
  /\ (jump_fires dt jump g = false ->
      Player.vy (player g') = Player.vy (player g)
      /\ Player.onGround (player g') = Player.onGround (player g)
      /\ particles g' = particles g /\ rng g' = rng g)
  /\ (Player.onGround (player g) = false -> Player.coyote (player g) <= dt ->
      jump_fires dt jump g = false).
Proof.
  cbv zeta. unfold jump_step.
  repeat (rewrite exec_bind; cbn [gets fst snd]).
  match goal with |- context [exec (when _ _) ?gg] => set (g3 := gg) end.
  assert (H3 : Player.jumpBuffered (player g3)
               = (if jump then 0.12 else Qmax 0 (Player.jumpBuffered (player g) - dt))
               /\ Player.coyote (player g3)
                  = (if Player.onGround (player g) then 0.10
                     else Qmax 0 (Player.coyote (player g) - dt))
               /\ Player.vy (player g3) = Player.vy (player g)
               /\ Player.onGround (player g3) = Player.onGround (player g)
               /\ particles g3 = particles g /\ rng g3 = rng g /\ world g3 = world g).
  { unfold g3. destruct jump, (Player.onGround (player g)) eqn:Eg;
      cbn -[Qmax]; rewrite ?Eg; cbn -[Qmax]; rewrite ?Eg; repeat split; reflexivity. }
  clearbody g3. destruct H3 as (Hjb & Hco & Hvy & Hog & Hpa & Hrn & Hwd).
  assert (Hc : (0 <? Player.jumpBuffered (player g3)) && (0 <? Player.coyote (player g3))
               = jump_fires dt jump g).
  { rewrite Hjb, Hco. unfold jump_fires.
    destruct jump, (Player.onGround (player g)); cbn [orb];
      rewrite ?Qmax0_pos; reflexivity. }
  rewrite Hc.
  split; [| split].
  - intros Hf. rewrite Hf. cbn [when].
    repeat (rewrite exec_bind; cbn [gets fst snd]).
    match goal with |- context [exec (featherBurst ?x ?y) ?gg] =>
      pose proof (featherBurst_cosmetic x y gg) as Hcos;
      apply cosmetic_player in Hcos; rewrite Hcos end.
    cbn. rewrite Hwd. repeat split; reflexivity.
  - intros Hf. rewrite Hf. cbn [when exec ret snd].
    rewrite Hvy, Hog, Hpa, Hrn. repeat split; reflexivity.
  - intros Hg Hc'. unfold jump_fires. rewrite Hg. cbn [orb].
    assert (E : (dt <? Player.coyote (player g)) = false) by (apply Qltb_ge; exact Hc').
    rewrite E. apply andb_false_r.
Qed.

(** ** Bursts of particles *)

(** X12.  With [Math.random()] in its range and a rounding that keeps
    the order, [featherBurst(x, y)] adds between 7 and 12 particles to the
    end of the pool, 12 exactly when the sum of [randi(7, 11)] is rounded
    up to 12; all are feathers that start at [(x, y)] with age 0 and a
    rotation; it draws one random number for their count and five for
    each of them, and changes nothing else in the game. *)
Theorem featherBurst_count (x y : Q) (g : Game) :
  monotone_rounding -> doubles_for 7 11 -> 0 <= random (rng g) < 1 ->
  exists new,
    particles (exec (featherBurst x y) g) = particles g ++ new
    /\ (7 <= length new <= 12)%nat
    /\ (length new = 12%nat
        <-> dbl (7 + dbl (random (rng g) * dbl (dbl (11 + 1) - 7))) == 12)
    /\ Forall (feather_at x y) new
    /\ rng (exec (featherBurst x y) g) = (rng g + 1 + 5 * length new)%nat
    /\ cosmetic g (exec (featherBurst x y) g).
Proof.
  intros Hm Hd Hu.
  destruct (featherBurst_run x y g) as (new & Hnew & Hlen & HF & Hrng).
  destruct (feather_count g Hm Hd Hu) as [Hc Hedge].
  exists new. rewrite Hlen.
  split; [exact Hnew |]. split; [exact Hc |]. split; [exact Hedge |].
  split; [exact HF |]. split; [rewrite <- Hlen; exact Hrng |].
  apply featherBurst_cosmetic.
Qed.

(** ** Stairs *)

(** The [j]-th step of a flight of stairs that starts at [startX]. *)
Definition stair_step (g : Game) (liftFrom dir startX : Q) (j : nat)
    (p : Platform.platform) : Prop :=
  Platform.x p == startX + inject_Z (Z.of_nat j) * 78
  /\ Platform.y p
     == World.floorY (world g)
        - roundQ (liftFrom + dir * 16 * (inject_Z (Z.of_nat j) + 1))
  /\ Platform.w p = 78 /\ Platform.h p = 18 /\ Platform.kind p = Step.

Lemma roundQ_comp (a b : Q) : a == b -> roundQ a = roundQ b.
Proof. intros E. unfold roundQ. rewrite E. reflexivity. Qed.

Lemma spawnStairs_loop_run (n : nat) (i : nat) (liftFrom dir startX : Q) (g : Game)
    (iq : Q) :
  iq == inject_Z (Z.of_nat i) ->
  exists new,
    snd (spawnStairs_loop n iq liftFrom dir 16 78 startX g)
    = set_nextId (nextId g + n)%nat (set_platforms (platforms g ++ new) g)
    /\ length new = n
    /\ forall j p, new !! j = Some p -> stair_step g liftFrom dir startX (i + j) p.
Proof.
  revert i iq g. induction n as [|n IH]; intros i iq g Hi; cbn [spawnStairs_loop].
  - exists []. cbn. rewrite app_nil_r, Nat.add_0_r. split; [| split; [reflexivity |]].
    + destruct g; reflexivity.
    + intros j p Hj. discriminate Hj.
  - change (snd (?m g)) with (exec m g). rewrite exec_bind. cbn [gets fst snd].
    rewrite exec_bind.
    match goal with |- context [exec _ (snd ?step)] => set (g1 := snd step) end.
    unfold exec.
    assert (Hi' : iq + 1 == inject_Z (Z.of_nat (S i))).
    { rewrite Nat2Z.inj_succ, <- Z.add_1_r, inject_Z_plus, Hi. reflexivity. }
    destruct (IH (S i) (iq + 1) g1 Hi') as (new & E & L & Hs).
    pose (p0 := Platform.mk (nextId g) (startX + iq * 78)
                  (World.floorY (world g) - roundQ (liftFrom + dir * 16 * (iq + 1)))
                  78 18 Step 0).
    assert (Hg1 : g1 = set_nextId (S (nextId g)) (set_platforms (platforms g ++ [p0]) g))
      by reflexivity.
    exists (p0 :: new). rewrite E, Hg1. cbn [length].
    split; [| split; [lia |]].
    + cbn. rewrite <- app_assoc. cbn [app].
      replace (S (nextId g + n)) with (nextId g + S n)%nat by lia. reflexivity.
    + intros [|j] p Hj.
      * cbn in Hj. injection Hj as <-. rewrite Nat.add_0_r.
        unfold stair_step, p0. cbn.
        split; [rewrite Hi; reflexivity |].
        split; [| repeat split].
        rewrite (roundQ_comp _ (liftFrom + dir * 16 * (inject_Z (Z.of_nat i) + 1)));
          [reflexivity | rewrite Hi; reflexivity].
      * cbn in Hj. replace (i + S j)%nat with (S i + j)%nat by lia.
        specialize (Hs j p Hj). rewrite Hg1 in Hs. exact Hs.
Qed.

Lemma clamp_3_7 (c : Z) : clamp (inject_Z c) 3 7 == inject_Z (Z.max 3 (Z.min 7 c)).
Proof.
  unfold clamp.
  destruct (Q.min_spec 7 (inject_Z c)) as [[L E] | [L E]];
    destruct (Q.max_spec 3 (Qmin 7 (inject_Z c))) as [[L' E'] | [L' E']];
    rewrite E', ?E; rewrite E in L';
    change 7 with (inject_Z 7) in *; change 3 with (inject_Z 3) in *;
    rewrite <- ?Zlt_Qlt, <- ?Zle_Qle in *;
    apply inject_Z_injective; lia.
Qed.

(** X13.  [spawnStairs] between two levels of equal lift adds nothing
    and gives back [startX].  Otherwise it adds a flight of [k] steps with
    [k] = [clamp(ceil(|delta| / 16), 3, 7)], so between 3 and 7: each is a
    platform of kind step, 78 wide and 18 high; the [j]-th sits at
    [startX + j * 78], so each begins where the one before it ends, at a
    height that rises or falls by 16 a step; and the result is the [x]
    where the last step ends.  Nothing but the pool of platforms (and the
    count of objects made) changes. *)
Theorem spawnStairs_spec (levelFrom levelTo startX : Q) (g : Game) :
  let lift := fun l : Q => if Qeq_bool l 1 then World.plateauLift (world g) else 0 in
  let delta := lift levelTo - lift levelFrom in
  let r := spawnStairs levelFrom levelTo startX g in
  (delta == 0 -> r = (startX, g))
  /\ (~ delta == 0 ->
      exists (k : nat) (new : list Platform.platform),
        (3 <= k <= 7)%nat
        /\ inject_Z (Z.of_nat k) == clamp (ceilQ (Qabs delta / 16)) 3 7
        /\ fst r == startX + inject_Z (Z.of_nat k) * 78
        /\ snd r = set_nextId (nextId g + k)%nat (set_platforms (platforms g ++ new) g)
        /\ length new = k
        /\ forall j p, new !! j = Some p ->
             stair_step g (lift levelFrom) (signQ delta) startX j p).
Proof.
  cbv zeta.
  set (liftFrom := if Qeq_bool levelFrom 1 then World.plateauLift (world g) else 0).
  set (liftTo := if Qeq_bool levelTo 1 then World.plateauLift (world g) else 0).
  set (delta := liftTo - liftFrom).
  set (steps := clamp (ceilQ (Qabs delta / 16)) 3 7).
  assert (Hrun : spawnStairs levelFrom levelTo startX g
                 = if Qeq_bool delta 0 then (startX, g)
                   else (startX + steps * 78,
                         snd (spawnStairs_loop (passes steps) 0 liftFrom (signQ delta)
                                16 78 startX g))).
  { unfold spawnStairs, bind, gets, ret. cbv beta iota zeta.
    fold liftFrom liftTo. fold delta. fold steps.
    destruct (Qeq_bool delta 0); [reflexivity |].
    destruct (spawnStairs_loop _ _ _ _ _ _ _ g) as [[] g1]. reflexivity. }
  rewrite Hrun. clear Hrun.
  destruct (Qeq_bool delta 0) eqn:Ed.
  - split; [reflexivity |]. intros Hn. exfalso. apply Hn, Qeq_bool_iff, Ed.
  - split; [intros H0; apply Qeq_bool_iff in H0; congruence | intros _].
    set (c := Qceiling (Qabs delta / 16)).
    assert (Hs : steps == inject_Z (Z.max 3 (Z.min 7 c))) by apply clamp_3_7.
    assert (Hk : passes steps = Z.to_nat (Z.max 3 (Z.min 7 c))).
    { unfold passes. rewrite Hs, Qceiling_Z. reflexivity. }
    exists (passes steps).
    destruct (spawnStairs_loop_run (passes steps) 0 liftFrom (signQ delta) startX g 0)
      as (new & E & L & Hst); [reflexivity |].
    exists new. cbn [fst snd].
    assert (Hki : inject_Z (Z.of_nat (passes steps)) == steps).
    { rewrite Hk, Z2Nat.id by lia. symmetry. exact Hs. }
    split; [rewrite Hk; lia |]. split; [exact Hki |].
    split; [rewrite Hki; reflexivity |]. split; [exact E |]. split; [exact L |].
    intros j p Hj. apply (Hst j p Hj).
Qed.

(** ** How many obstacles a tick can add *)

(** The pool of obstacles is [base] with at most [n] more after it. *)
Definition atmost (base : list Obstacle.obstacle) (n : nat) (g : Game) : Prop :=
  exists more, obstacles g = base ++ more /\ (length more <= n)%nat.

(** The action adds at most [k] obstacles at the end of the pool and
    leaves the ones there are. *)
Definition grows {A : Type} (k : nat) (m : M A) : Prop :=
  forall base n g, atmost base n g -> atmost base (n + k) (snd (m g)).

Lemma grows_bind {A B : Type} (a b : nat) (m : M A) (k : A -> M B) :
  grows a m -> (forall x, grows b (k x)) -> grows (a + b) (bind m k).
Proof.
  intros Hm Hk base n g H. unfold bind.
  specialize (Hm base n g H). destruct (m g) as [x g1]. cbn [snd] in Hm.
  specialize (Hk x base (n + a)%nat g1 Hm).
  replace (n + (a + b))%nat with (n + a + b)%nat by lia. exact Hk.
Qed.

Lemma grows_le {A : Type} (a b : nat) (m : M A) :
  (a <= b)%nat -> grows a m -> grows b m.
Proof.
  intros Hab Hm base n g H. destruct (Hm base n g H) as (more & E & L).
  exists more. split; [exact E | lia].
Qed.

Lemma grows_0 {A : Type} (m : M A) :
  (forall base n, preserves (atmost base n) m) -> grows 0 m.
Proof. intros H base n g Hg. rewrite Nat.add_0_r. apply H, Hg. Qed.

Lemma grows_spawnObstacle (w h : Q) (k : ObstacleKind) (c : string) (x : Q) :
  grows 1 (spawnObstacle w h k c x).
Proof.
  intros base n g (more & E & L). eexists. cbn. rewrite E, <- app_assoc.
  split; [reflexivity |]. rewrite length_app. cbn. lia.
Qed.

Ltac still := apply grows_0; intros ? ?; pres same_leaf.

Lemma grows_place_chunk (W speedFactor : Q) : grows 2 (place_chunk W speedFactor).
Proof.
  unfold place_chunk.
  apply (grows_bind 0 2); [still | intros s].
  apply (grows_bind 0 2); [still | intros u].
  apply (grows_bind 0 2); [still | intros x1].
  apply (grows_bind 0 2); [still | intros t1].
  apply (grows_bind 0 2); [still | intros [[t1' w1] h1]].
  apply (grows_bind 1 1); [apply grows_spawnObstacle | intros _].
  apply (grows_bind 1 0); [| intros chunkEndX; still].
  match goal with |- grows _ (if ?c then _ else _) => destruct c end;
    [| apply (grows_le 0); [lia | still]].
  apply (grows_bind 0 1); [still | intros gap].
  apply (grows_bind 0 1); [still | intros t2].
  apply (grows_bind 0 1); [still | intros [[t2' w2] h2]].
  apply (grows_bind 1 0); [apply grows_spawnObstacle | intros _; still].
Qed.

Lemma grows_spawner_pass (W : Q) : grows 2 (spawner_pass W).
Proof.
  unfold spawner_pass.
  apply (grows_bind 0 2); [still | intros s].
  apply (grows_bind 0 2); [still | intros go].
  destruct go; cbn [when]; [apply grows_place_chunk | apply (grows_le 0); [lia | still]].
Qed.

Lemma grows_spawner_loop (n : nat) (W : Q) : grows (2 * n) (spawner_loop n W).
Proof.
  induction n as [|n IH]; cbn [spawner_loop]; [still |].
  apply (grows_bind 0 (2 * S n)); [still | intros sp].
  destruct (Spawner.cd sp <=? 0); cbn [when]; [| apply (grows_le 0); [lia | still]].
  replace (2 * S n)%nat with (2 + 2 * n)%nat by lia.
  apply grows_bind; [apply grows_spawner_pass | intros _; exact IH].
Qed.

(** X18.  The obstacle spawner of one tick keeps every obstacle of the
    pool in place and adds at most 12 at its end (six passes of at most
    two), however far the countdown has run behind; and while the
    countdown has not run out it adds none and only counts down. *)
Theorem spawn_obstacles_bounded (env : Env) (dt : Q) (g : Game) :
  (exists more,
     obstacles (exec (spawn_obstacles env dt) g) = obstacles g ++ more
     /\ (length more <= 12)%nat)
  /\ (0 < Spawner.cd (spawner g) - dt ->
      exec (spawn_obstacles env dt) g
      = set_spawner (Spawner.set_cd (Spawner.cd (spawner g) - dt) (spawner g)) g).
Proof.
  split.
  - assert (H : grows 12 (spawn_obstacles env dt)).
    { unfold spawn_obstacles. apply (grows_bind 0 12); [still | intros _].
      apply (grows_spawner_loop 6). }
    apply (H (obstacles g) 0%nat g). exists []. rewrite app_nil_r. split; [reflexivity | cbn; lia].
  - intros Hcd. unfold spawn_obstacles. rewrite exec_bind. cbn [fst snd].
    unfold upd_spawner, modify. cbn [snd spawner_loop].
    unfold exec, bind, gets. cbn [fst snd spawner set_spawner Spawner.cd Spawner.set_cd].
    apply Qleb_gt in Hcd. rewrite Hcd. reflexivity.
Qed.

(** ** Scrolling the pools *)

Lemma shift_while_spec {A : Type} (gone : A -> bool) (l : list A) :
  exists pre,
    l = pre ++ shift_while gone l
    /\ Forall (fun e => gone e = true) pre
    /\ forall e, head (shift_while gone l) = Some e -> gone e = false.
Proof.
  induction l as [|a r (pre & E & F & H)]; cbn [shift_while].
  - exists []. split; [reflexivity | split; [constructor | intros e He; discriminate He]].
  - destruct (gone a) eqn:Ea.
    + exists (a :: pre). split; [cbn; congruence |].
      split; [constructor; assumption | exact H].
    + exists []. split; [reflexivity |]. split; [constructor |].
      intros e [= <-]. exact Ea.
Qed.

(** The three loops of [update] that end in [while (..) pool.shift()]:
    how each entry moves, and when it counts as gone. *)
Definition moved_obstacle (dx : Q) (o : Obstacle.obstacle) : Obstacle.obstacle :=
  Obstacle.set_x (Obstacle.x o - dx) o.
Definition moved_platform (dx : Q) (p : Platform.platform) : Platform.platform :=
  Platform.set_x (Platform.x p - dx) p.
Definition moved_pickup (dx dt : Q) (p : Pickup.pickup) : Pickup.pickup :=
  Pickup.set_t (Pickup.t p + dt) (Pickup.set_x (Pickup.x p - dx) p).

(** X14.  The pools of obstacles, platforms and pickups scroll left by
    [speed * dt], and entries that have left the screen are dropped from
    the front only: what is left is the moved pool without a first
    stretch of entries that are all beyond the left margin (their right
    edge left of -40 for obstacles, of -60 for platforms and pickups), and
    the first entry that is left, if there is one, is not beyond it.
    Entries behind it are kept whether they are on screen or not. *)
Theorem scroll_drops_front (dt : Q) (g : Game) :
  let dx := St.speed (state g) * dt in
  (exists gone,
     map (moved_obstacle dx) (obstacles g)
     = gone ++ obstacles (exec (update_obstacles dt) g)
     /\ Forall (fun o => Obstacle.x o + Obstacle.w o < -40) gone
     /\ forall o, head (obstacles (exec (update_obstacles dt) g)) = Some o ->
          -40 <= Obstacle.x o + Obstacle.w o)
  /\ (exists gone,
        map (moved_platform dx) (platforms g)
        = gone ++ platforms (exec (update_platforms dt) g)
        /\ Forall (fun p => Platform.x p + Platform.w p < -60) gone
        /\ forall p, head (platforms (exec (update_platforms dt) g)) = Some p ->
             -60 <= Platform.x p + Platform.w p)
  /\ (exists gone,
        map (moved_pickup dx dt) (pickups g)
        = gone ++ pickups (exec (update_pickups dt) g)
        /\ Forall (fun p => Pickup.x p + Pickup.r p < -60) gone
        /\ forall p, head (pickups (exec (update_pickups dt) g)) = Some p ->
             -60 <= Pickup.x p + Pickup.r p).
Proof.
  forget_env.
  cbv zeta. split; [| split].
  - destruct (shift_while_spec (fun o => Obstacle.x o + Obstacle.w o <? -40)
                (map (moved_obstacle (St.speed (state g) * dt)) (obstacles g)))
      as (pre & E & F & H).
    exists pre. split; [exact E |]. split.
    + eapply Forall_impl; [exact F |]. intros o Ho. apply Qltb_lt, Ho.
    + intros o Ho. apply Qltb_ge. apply H. exact Ho.
  - destruct (shift_while_spec (fun p => Platform.x p + Platform.w p <? -60)
                (map (moved_platform (St.speed (state g) * dt)) (platforms g)))
      as (pre & E & F & H).
    exists pre. split; [exact E |]. split.
    + eapply Forall_impl; [exact F |]. intros o Ho. apply Qltb_lt, Ho.
    + intros o Ho. apply Qltb_ge. apply H. exact Ho.
  - destruct (shift_while_spec (fun p => Pickup.x p + Pickup.r p <? -60)
                (map (moved_pickup (St.speed (state g) * dt) dt) (pickups g)))
      as (pre & E & F & H).
    exists pre. split; [exact E |]. split.
    + eapply Forall_impl; [exact F |]. intros o Ho. apply Qltb_lt, Ho.
    + intros o Ho. apply Qltb_ge. apply H. exact Ho.
Qed.

(** How an egg and a particle age in a tick. *)
Definition aged_egg (dx dt : Q) (e : Egg.egg) : Egg.egg :=
  let e := Egg.set_x (Egg.x e - dx) e in
  let e := Egg.set_t (Egg.t e + dt) e in
  if Egg.smashed e then Egg.set_smashT (Egg.smashT e + dt) e else e.

(** X15.  Eggs and particles are swept over the whole pool, not from the
    front only.  After [update_eggs] the eggs are exactly the moved eggs
    that are not beyond the left margin and have not been smashed for more
    than 0.6 seconds, in their old order; after [update_particles] no
    particle has reached the end of its life, the pool is no longer than
    before, and every particle left is one of the old ones, [dt] older. *)
Theorem sweep_removes_all (dt : Q) (g : Game) :
  let dx := St.speed (state g) * dt in
  (forall e, e ∈ eggs (exec (update_eggs dt) g)
     <-> e ∈ map (aged_egg dx dt) (eggs g)
         /\ -60 <= Egg.x e + Egg.r e
         /\ (Egg.smashed e = true -> Egg.smashT e <= 0.60))
  /\ eggs (exec (update_eggs dt) g) `sublist_of` map (aged_egg dx dt) (eggs g)
  /\ Forall (fun p => Particle.t p < Particle.life p)
       (particles (exec (update_particles dt) g))
  /\ (length (particles (exec (update_particles dt) g)) <= length (particles g))%nat
  /\ (forall p, p ∈ particles (exec (update_particles dt) g) ->
        exists p0, p0 ∈ particles g
          /\ Particle.t p = Particle.t p0 + dt /\ Particle.life p = Particle.life p0
          /\ Particle.kind p = Particle.kind p0).
Proof.
  forget_env.
  cbv zeta. unfold update_eggs, update_particles, exec, bind, gets, modify, splice_all.
  cbn [fst snd eggs set_eggs particles set_particles].
  split; [| split; [| split; [| split]]].
  - intros e. rewrite list_elem_of_filter. unfold aged_egg.
    split.
    + intros [Hk He]. split; [exact He |].
      apply orb_false_elim in Hk. destruct Hk as [H1 H2].
      split; [apply Qltb_ge, H1 |]. intros Hs. rewrite Hs in H2. cbn in H2.
      apply Qltb_ge, H2.
    + intros (He & H1 & H2). split; [| exact He].
      apply orb_false_intro; [apply Qltb_ge, H1 |].
      destruct (Egg.smashed e); [| reflexivity]. cbn. apply Qltb_ge, H2. reflexivity.
  - apply sublist_filter.
  - apply Forall_forall. intros p Hp.
    apply list_elem_of_filter in Hp. destruct Hp as [Hk _]. apply Qleb_gt, Hk.
  - etransitivity; [apply length_filter |]. rewrite length_map. reflexivity.
  - intros p Hp. apply list_elem_of_filter in Hp. destruct Hp as [_ Hp].
    apply list_elem_of_fmap in Hp. destruct Hp as (p0 & -> & Hp0).
    exists p0. split; [exact Hp0 |].
    destruct p0 as [x y vx vy life t k [rot|] [vr|]]; cbn; repeat split; reflexivity.
Qed.

(** ** Collecting pickups and smashing eggs *)

(** The pickup is collected by a pass with this hitbox: it has not been
    taken and its box overlaps the hitbox. *)
Definition collects (hitbox : Hitbox) (p : Pickup.pickup) : bool :=
  negb (Pickup.taken p)
  && hits_circle hitbox (Pickup.x p) (Pickup.y p) (Pickup.r p).

(** The corn a pass over [ps] brings. *)
Fixpoint corn_of (hitbox : Hitbox) (ps : list Pickup.pickup) : Z :=
  match ps with
  | [] => 0
  | p :: rest =>
      ((if collects hitbox p then or1 (Pickup.value p) else 0) + corn_of hitbox rest)%Z
  end.

Definition after_pass (hitbox : Hitbox) (p : Pickup.pickup) : Pickup.pickup :=
  if collects hitbox p then Pickup.set_taken true p else p.

Lemma collect_run (hitbox : Hitbox) (p : Pickup.pickup) (g : Game) :
  fst (collect hitbox p g) = after_pass hitbox p
  /\ (collects hitbox p = false -> snd (collect hitbox p g) = g)
  /\ St.corn (state (snd (collect hitbox p g)))
     = (St.corn (state g) + (if collects hitbox p then or1 (Pickup.value p) else 0))%Z
  /\ St.score (state (snd (collect hitbox p g)))
     == St.score (state g)
        + 60 * inject_Z (if collects hitbox p then or1 (Pickup.value p) else 0).
Proof.
  unfold collect, after_pass, collects.
  destruct (Pickup.taken p) eqn:Et; cbn [negb andb].
  { cbn. split; [reflexivity | split; [reflexivity | split; [lia |]]].
    change (inject_Z 0) with 0. ring. }
  destruct (hits_circle hitbox (Pickup.x p) (Pickup.y p) (Pickup.r p)) eqn:Eh.
  2:{ cbn. split; [reflexivity | split; [reflexivity | split; [lia |]]].
      change (inject_Z 0) with 0. ring. }
  unfold bind, upd_state, modify, ret. cbn [fst snd].
  match goal with |- context [featherBurst ?x ?y ?g0] =>
    pose proof (featherBurst_cosmetic x y g0) as Hc; unfold exec in Hc;
    destruct (featherBurst x y g0) as [[] g1] end.
  cbn [fst snd] in *. apply cosmetic_state in Hc. rewrite Hc. cbn.
  split; [reflexivity | split; [intros H; discriminate H | split; reflexivity]].
Qed.

Lemma collect_loop_run (hitbox : Hitbox) (ps : list Pickup.pickup) (g : Game) :
  fst (collect_loop hitbox ps g) = map (after_pass hitbox) ps
  /\ St.corn (state (snd (collect_loop hitbox ps g)))
     = (St.corn (state g) + corn_of hitbox ps)%Z
  /\ St.score (state (snd (collect_loop hitbox ps g)))
     == St.score (state g) + 60 * inject_Z (corn_of hitbox ps)
  /\ (Forall (fun p => collects hitbox p = false) ps ->
      snd (collect_loop hitbox ps g) = g).
Proof.
  revert g. induction ps as [|p rest IH]; intros g; cbn [collect_loop corn_of map].
  - cbn. split; [reflexivity | split; [lia | split; [| reflexivity]]].
    change (inject_Z 0) with 0. ring.
  - unfold bind, ret.
    destruct (collect_run hitbox p g) as (H1 & H2 & H3 & H4).
    destruct (collect hitbox p g) as [p1 g1]. cbn [fst snd] in *.
    destruct (IH g1) as (K1 & K2 & K3 & K4).
    destruct (collect_loop hitbox rest g1) as [rest1 g2]. cbn [fst snd] in *.
    split; [congruence |]. split; [lia |]. split.
    + rewrite K3, H4, inject_Z_plus. ring.
    + intros HF. inversion HF as [|? ? Hp Hr]; subst.
      rewrite (K4 Hr). apply H2, Hp.
Qed.

Lemma after_pass_settled (hitbox : Hitbox) (p : Pickup.pickup) :
  collects hitbox (after_pass hitbox p) = false.
Proof.
  forget_env.
  unfold after_pass. destruct (collects hitbox p) eqn:E; [reflexivity | exact E].
Qed.

Lemma after_pass_id (hitbox : Hitbox) (ps : list Pickup.pickup) :
  Forall (fun p => collects hitbox p = false) ps -> map (after_pass hitbox) ps = ps.
Proof.
  induction 1 as [|p rest Hp Hr IH]; cbn [map]; [reflexivity |].
  rewrite IH. unfold after_pass. rewrite Hp. reflexivity.
Qed.

(** X16.  One pass of [update] over the pickups marks exactly the
    pickups that were not taken and overlap the hitbox, adds the sum of
    their values to the corn counter and 60 times that sum to the score,
    and leaves the other pickups as they are.  No pickup is counted twice:
    a second pass right after the first changes nothing at all. *)
Theorem collect_pickups_once (hitbox : Hitbox) (g : Game) :
  let g' := exec (collect_pickups hitbox) g in
  pickups g' = map (after_pass hitbox) (pickups g)
  /\ St.corn (state g') = (St.corn (state g) + corn_of hitbox (pickups g))%Z
  /\ St.score (state g')
     == St.score (state g) + 60 * inject_Z (corn_of hitbox (pickups g))
  /\ exec (collect_pickups hitbox) g' = g'.
Proof.
  cbv zeta.
  assert (Hrun : forall g0, exec (collect_pickups hitbox) g0
            = set_pickups (fst (collect_loop hitbox (pickups g0) g0))
                (snd (collect_loop hitbox (pickups g0) g0))).
  { intros g0. unfold collect_pickups, exec, bind, gets, modify. cbn [fst snd].
    destruct (collect_loop hitbox (pickups g0) g0). reflexivity. }
  rewrite !Hrun.
  destruct (collect_loop_run hitbox (pickups g) g) as (H1 & H2 & H3 & _).
  set (g1 := snd (collect_loop hitbox (pickups g) g)) in *. clearbody g1.
  rewrite H1. cbn [pickups set_pickups state].
  split; [reflexivity | split; [exact H2 | split; [exact H3 |]]].
  assert (HF : Forall (fun p => collects hitbox p = false)
                 (map (after_pass hitbox) (pickups g))).
  { apply Forall_map. apply Forall_forall. intros p _. apply after_pass_settled. }
  destruct (collect_loop_run hitbox (map (after_pass hitbox) (pickups g))
              (set_pickups (map (after_pass hitbox) (pickups g)) g1))
    as (K1 & _ & _ & K4).
  rewrite K1, (K4 HF), (after_pass_id _ _ HF). reflexivity.
Qed.

Lemma yolkBurst_cosmetic (x y : Q) (g : Game) : cosmetic g (exec (yolkBurst x y) g).
Proof.
  assert (H : preserves (cosmetic g) (yolkBurst x y)).
  { unfold yolkBurst.
    apply preserves_bind; [apply cosmetic_preserved, randi_cosmetic | intros n].
    apply preserves_repeatM.
    repeat (apply preserves_bind; [apply cosmetic_preserved, rand_cosmetic | intros ?]).
    apply cosmetic_preserved, push_particle_cosmetic. }
  apply H, cosmetic_refl.
Qed.

(** The egg is smashed by a pass with this hitbox. *)
Definition smashes (hitbox : Hitbox) (e : Egg.egg) : bool :=
  negb (Egg.smashed e) && hits_circle hitbox (Egg.x e) (Egg.y e) (Egg.r e).

Definition after_smash (hitbox : Hitbox) (e : Egg.egg) : Egg.egg :=
  if smashes hitbox e then Egg.set_smashT 0 (Egg.set_smashed true e) else e.

(** [n] times [corn = Math.max(0, corn - 1)]. *)
Fixpoint lose_corn (n : nat) (corn : Z) : Z :=
  match n with
  | O => corn
  | S n' => lose_corn n' (Z.max 0 (corn - 1))
  end.

Lemma lose_corn_eq (n : nat) (corn : Z) :
  (0 <= corn)%Z -> lose_corn n corn = Z.max 0 (corn - Z.of_nat n).
Proof.
  revert corn. induction n as [|n IH]; intros corn H; cbn [lose_corn]; [lia |].
  rewrite IH by lia. lia.
Qed.

Lemma smash_run (hitbox : Hitbox) (e : Egg.egg) (g : Game) :
  fst (smash hitbox e g) = after_smash hitbox e
  /\ (smashes hitbox e = false -> snd (smash hitbox e g) = g)
  /\ St.corn (state (snd (smash hitbox e g)))
     = (if smashes hitbox e then Z.max 0 (St.corn (state g) - 1) else St.corn (state g))
  /\ St.score (state (snd (smash hitbox e g))) = St.score (state g).
Proof.
  unfold smash, after_smash, smashes.
  destruct (Egg.smashed e) eqn:Et; cbn [negb andb].
  { cbn. repeat split; reflexivity. }
  destruct (hits_circle hitbox (Egg.x e) (Egg.y e) (Egg.r e)) eqn:Eh.
  2:{ cbn. repeat split; reflexivity. }
  unfold bind, upd_state, modify, ret. cbn [fst snd].
  match goal with |- context [yolkBurst ?x ?y ?g0] =>
    pose proof (yolkBurst_cosmetic x y g0) as Hc; unfold exec in Hc;
    destruct (yolkBurst x y g0) as [[] g1] end.
  cbn [fst snd] in *. apply cosmetic_state in Hc. rewrite Hc. cbn.
  split; [reflexivity | split; [intros H; discriminate H | split; reflexivity]].
Qed.

Lemma smash_loop_run (hitbox : Hitbox) (es : list Egg.egg) (g : Game) :
  fst (smash_loop hitbox es g) = map (after_smash hitbox) es
  /\ St.corn (state (snd (smash_loop hitbox es g)))
     = lose_corn (length (filter (fun e => smashes hitbox e = true) es))
         (St.corn (state g))
  /\ St.score (state (snd (smash_loop hitbox es g))) = St.score (state g)
  /\ (Forall (fun e => smashes hitbox e = false) es ->
      snd (smash_loop hitbox es g) = g).
Proof.
  revert g. induction es as [|e rest IH]; intros g; cbn [smash_loop map].
  - cbn. repeat split; reflexivity.
  - unfold bind, ret.
    destruct (smash_run hitbox e g) as (H1 & H2 & H3 & H4).
    destruct (smash hitbox e g) as [e1 g1]. cbn [fst snd] in *.
    destruct (IH g1) as (K1 & K2 & K3 & K4).
    destruct (smash_loop hitbox rest g1) as [rest1 g2]. cbn [fst snd] in *.
    split; [congruence |]. split; [| split; [congruence |]].
    + rewrite K2, H3, filter_cons.
      destruct (smashes hitbox e) eqn:E.
      * rewrite decide_True by reflexivity. reflexivity.
      * rewrite decide_False by discriminate. reflexivity.
    + intros HF. inversion HF as [|? ? Hp Hr]; subst.
      rewrite (K4 Hr). apply H2, Hp.
Qed.

Lemma after_smash_settled (hitbox : Hitbox) (e : Egg.egg) :
  smashes hitbox (after_smash hitbox e) = false.
Proof.
  forget_env.
  unfold after_smash. destruct (smashes hitbox e) eqn:E; [reflexivity | exact E].
Qed.

Lemma after_smash_id (hitbox : Hitbox) (es : list Egg.egg) :
  Forall (fun e => smashes hitbox e = false) es -> map (after_smash hitbox) es = es.
Proof.
  induction 1 as [|e rest He Hr IH]; cbn [map]; [reflexivity |].
  rewrite IH. unfold after_smash. rewrite He. reflexivity.
Qed.

(** X17.  One pass of [update] over the eggs smashes exactly the eggs
    that were whole and overlap the hitbox, and starts their smash timer
    at 0.  Each of them costs one corn, but the counter stops at 0: with
    [n] eggs smashed it goes from [corn] to [max(0, corn - n)].  The score
    is not touched.  No egg is smashed twice: a second pass right after
    the first changes nothing at all. *)
Theorem smash_eggs_once (hitbox : Hitbox) (g : Game) :
  let g' := exec (smash_eggs hitbox) g in
  let n := length (filter (fun e => smashes hitbox e = true) (eggs g)) in
  eggs g' = map (after_smash hitbox) (eggs g)
  /\ St.corn (state g') = lose_corn n (St.corn (state g))
  /\ ((0 <= St.corn (state g))%Z ->
      St.corn (state g') = Z.max 0 (St.corn (state g) - Z.of_nat n))
  /\ St.score (state g') = St.score (state g)
  /\ exec (smash_eggs hitbox) g' = g'.
Proof.
  cbv zeta.
  assert (Hrun : forall g0, exec (smash_eggs hitbox) g0
            = set_eggs (fst (smash_loop hitbox (eggs g0) g0))
                (snd (smash_loop hitbox (eggs g0) g0))).
  { intros g0. unfold smash_eggs, exec, bind, gets, modify. cbn [fst snd].
    destruct (smash_loop hitbox (eggs g0) g0). reflexivity. }
  rewrite !Hrun.
  destruct (smash_loop_run hitbox (eggs g) g) as (H1 & H2 & H3 & _).
  set (g1 := snd (smash_loop hitbox (eggs g) g)) in *. clearbody g1.
  rewrite H1. cbn [eggs set_eggs state].
  split; [reflexivity | split; [exact H2 | split; [| split; [exact H3 |]]]].
  { intros Hc. rewrite H2. apply lose_corn_eq, Hc. }
  assert (HF : Forall (fun e => smashes hitbox e = false)
                 (map (after_smash hitbox) (eggs g))).
  { apply Forall_map. apply Forall_forall. intros e _. apply after_smash_settled. }
  destruct (smash_loop_run hitbox (map (after_smash hitbox) (eggs g))
              (set_eggs (map (after_smash hitbox) (eggs g)) g1))
    as (K1 & _ & _ & K4).
  rewrite K1, (K4 HF), (after_smash_id _ _ HF). reflexivity.
Qed.

(** ** Names that have been normalized *)

(** The shape of every name [normalizeName] returns. *)
Definition shaped (s : JsString.t) : Prop :=
  only_spaces s /\ no_double_space s /\ starts_clean s
  /\ s <> [] /\ (length s <= 14)%nat.

Lemma replace_ws_id (b : bool) (s : JsString.t) :
  only_spaces s -> no_double_space s -> (b = true -> starts_clean s) ->
  JsString.replace_ws b s = s.
Proof.
  revert b. induction s as [|c r IH]; intros b Ho Hn Hb; cbn [JsString.replace_ws];
    [reflexivity |].
  assert (Ho' : only_spaces r) by (inversion Ho; assumption).
  assert (Hn' : no_double_space r) by (eapply no_double_space_tail, Hn).
  destruct (JsString.is_space c) eqn:E.
  - destruct b.
    + specialize (Hb eq_refl c eq_refl). congruence.
    + assert (c = JsString.space) by (inversion Ho; auto). subst c.
      rewrite IH; [reflexivity | assumption | assumption |].
      intros _ x Hx. destruct r as [|c2 r2]; [discriminate |].
      cbn in Hx. injection Hx as <-. destruct Hn as [Hd _].
      rewrite E in Hd. exact Hd.
  - rewrite IH; [reflexivity | assumption | assumption | discriminate].
Qed.

Lemma trimStart_id (s : JsString.t) : starts_clean s -> JsString.trimStart s = s.
Proof.
  intros H. destruct s as [|c r]; [reflexivity |]. cbn [JsString.trimStart].
  rewrite (H c eq_refl). reflexivity.
Qed.

Lemma trimEnd_cases (s : JsString.t) :
  only_spaces s -> no_double_space s ->
  JsString.trimEnd s = s \/ s = JsString.trimEnd s ++ [JsString.space].
Proof.
  induction s as [|c r IH]; intros Ho Hn; [left; reflexivity |].
  assert (Ho' : only_spaces r) by (inversion Ho; assumption).
  assert (Hn' : no_double_space r) by (eapply no_double_space_tail, Hn).
  specialize (IH Ho' Hn'). cbn [JsString.trimEnd].
  destruct (JsString.trimEnd r) as [|c2 r2] eqn:Er.
  - assert (Hr : r = [] \/ r = [JsString.space]) by (destruct IH; [left | right]; auto).
    destruct Hr as [-> | ->].
    + destruct (JsString.is_space c) eqn:E; [| left; reflexivity].
      right. assert (c = JsString.space) by (inversion Ho; auto). subst c. reflexivity.
    + destruct Hn as [Hd _]. change (JsString.is_space JsString.space) with true in Hd.
      rewrite andb_true_r in Hd. rewrite Hd. right. reflexivity.
  - destruct IH as [IH | IH]; [left; congruence | right].
    rewrite IH at 1. reflexivity.
Qed.

Lemma trimEnd_nonempty (s : JsString.t) :
  starts_clean s -> s <> [] -> JsString.trimEnd s <> [].
Proof.
  intros Hs Hne. destruct s as [|c r]; [contradiction |]. cbn [JsString.trimEnd].
  destruct (JsString.trimEnd r); [| discriminate].
  rewrite (Hs c eq_refl). discriminate.
Qed.

Lemma trimEnd_length (s : JsString.t) : (length (JsString.trimEnd s) <= length s)%nat.
Proof.
  induction s as [|c r IH]; [reflexivity |]. cbn [JsString.trimEnd].
  destruct (JsString.trimEnd r) as [|c2 r2].
  - destruct (JsString.is_space c); cbn; lia.
  - cbn in *. lia.
Qed.

Lemma trimEnd_id (s : JsString.t) :
  only_spaces s -> no_double_space s -> ends_clean s -> JsString.trimEnd s = s.
Proof.
  intros Ho Hn He. destruct (trimEnd_cases s Ho Hn) as [E | E]; [exact E |].
  exfalso. specialize (He JsString.space).
  rewrite E, last_snoc in He. specialize (He eq_refl). discriminate He.
Qed.

Lemma normalizeName_shaped (s : JsString.t) :
  shaped s -> normalizeName (Text s) = JsString.trimEnd s.
Proof.
  intros (Ho & Hn & Hs & Hne & Hl). unfold normalizeName, String_of, JsString.trim.
  rewrite replace_ws_id by (assumption || discriminate).
  rewrite trimStart_id by assumption.
  unfold JsString.slice0. rewrite take_ge by (pose proof (trimEnd_length s); lia).
  pose proof (trimEnd_nonempty s Hs Hne) as Hne'.
  destruct (JsString.trimEnd s); [contradiction | reflexivity].
Qed.

Lemma normalizeName_shape (v : NameArg) : shaped (normalizeName v).
Proof.
  unfold normalizeName.
  destruct (trimmed_shape (String_of v)) as (Ho & Hn & Hs & He). cbv zeta in *.
  set (s := JsString.trim (JsString.replace_ws false (String_of v))) in *. clearbody s.
  unfold JsString.slice0.
  destruct (take 14 s) as [|c r] eqn:Et; cbn [length].
  - unfold shaped. split; [| split; [| split; [| split]]].
    + repeat constructor; discriminate.
    + cbn. repeat split; reflexivity.
    + intros x [= <-]. reflexivity.
    + discriminate.
    + cbn. lia.
  - rewrite <- Et. split; [| split; [| split; [| split]]].
    + apply Forall_take, Ho.
    + apply take_no_double, Hn.
    + apply take_starts_clean, Hs.
    + rewrite Et. discriminate.
    + rewrite length_take. lia.
Qed.

Lemma trimEnd_shaped (s : JsString.t) :
  shaped s -> shaped (JsString.trimEnd s) /\ ends_clean (JsString.trimEnd s).
Proof.
  intros (Ho & Hn & Hs & Hne & Hl).
  destruct (trimEnd_keeps s Ho Hn) as (K1 & K2 & K3).
  split; [| exact K3].
  split; [exact K1 | split; [exact K2 | split; [apply trimEnd_starts_clean, Hs |]]].
  split; [apply trimEnd_nonempty; assumption |].
  pose proof (trimEnd_length s). lia.
Qed.

(** X19.  A name that [normalizeName] returned and that is normalized
    once more (as the stored name is when the page loads) loses its last
    character if that is a space, which happens when the cut at 14 falls
    right after a space, and is unchanged otherwise; the result of the
    second call is then stable.  So [normalizeName] is not idempotent, but
    it is from the second call on, and a name that does not end in a space
    is read back as it was stored. *)
Theorem normalizeName_again (v : NameArg) :
  let n := normalizeName v in
  let n' := normalizeName (Text n) in
  n' = JsString.trimEnd n
  /\ (n' = n \/ n = n' ++ [JsString.space])
  /\ (ends_clean n -> n' = n)
  /\ normalizeName (Text n') = n'
  /\ exists w, normalizeName (Text (normalizeName w)) <> normalizeName w.
Proof.
  forget_env.
  cbv zeta. pose proof (normalizeName_shape v) as Hsh.
  set (n := normalizeName v) in *. clearbody n.
  rewrite (normalizeName_shaped n Hsh).
  destruct (trimEnd_shaped n Hsh) as (Hsh' & He').
  destruct Hsh as (Ho & Hn & Hs & Hne & Hl).
  split; [reflexivity |].
  split; [destruct (trimEnd_cases n Ho Hn) as [E | E]; [left | right]; exact E |].
  split; [intros He; apply trimEnd_id; assumption |].
  split.
  - rewrite (normalizeName_shaped _ Hsh').
    destruct Hsh' as (Ho' & Hn' & _). apply trimEnd_id; assumption.
  - exists (Text (JsString.literal "aaaaaaaaaaaaa b")). vm_compute. intros H. discriminate H.
Qed.

(** ** A random name *)

Lemma pool_fixed :
  Forall (fun n => normalizeName (Text (JsString.literal n)) = JsString.literal n)
    name_pool.
Proof. repeat constructor. Qed.

(** X20.  [randomName] always leaves one of the twelve names of its pool
    in [state.name], unchanged by the normalization, whatever number
    [Math.random] gives (an index past the end gives the default name,
    which is in the pool as well); it draws one random number and changes
    nothing else in the game. *)
Theorem randomName_in_pool (g : Game) :
  St.name (state (exec randomName g)) ∈ map JsString.literal name_pool
  /\ exec randomName g
     = set_state (St.set_name (St.name (state (exec randomName g))) (state g))
         (set_rng (S (rng g)) g).
Proof.
  unfold randomName. rewrite exec_bind, randi_run. cbn [fst snd].
  split; [| reflexivity].
  unfold setName, exec, upd_state, modify. cbn [snd state set_state set_rng St.name St.set_name].
  destruct (name_pool !! _) as [n|] eqn:E.
  - apply list_elem_of_lookup_2 in E.
    pose proof pool_fixed as Hf. rewrite Forall_forall in Hf.
    rewrite (Hf n E). apply list_elem_of_fmap. exists n. split; [reflexivity | exact E].
  - apply list_elem_of_fmap. exists "Nugget"%string. split; [reflexivity |].
    apply list_elem_of_here.
Qed.

(** ** What holds in every state of the game *)

(** The scale of time that goes with a time mode. *)
Definition scale_of (m : TimeMode) : Q :=
  match m with
  | Slow => 0.55
  | Normal => 1.0
  | Fast => 1.6
  end.

(** The scale of time is the one of the time mode. *)
Definition Clock (g : Game) : Prop :=
  St.timeScale (state g) = scale_of (St.timeMode (state g)).

(** The difficulty is between 0 and 1 and the speed follows it. *)
Definition Pace (g : Game) : Prop :=
  0 <= St.difficulty (state g) <= 1
  /\ St.speed (state g) == lerp 360 620 (St.difficulty (state g)).

(** The player is not faster than 360 to either side. *)
Definition Stride (g : Game) : Prop :=
  -360 <= Player.vx (player g) <= 360.

(** The fuel of flight is between empty and full, with its constants. *)
Definition Fuel (g : Game) : Prop :=
  St.flyFuelMax (state g) = 5.0
  /\ St.flyRefuelDelay (state g) = 0.75
  /\ 0 <= St.flyFuel (state g) <= 5
  /\ 0 <= St.flyRefuelCd (state g) <= 0.75.

(** The timers are within the values the code sets them to. *)
Definition Timers (g : Game) : Prop :=
  0 <= Player.invuln (player g) <= 1.2
  /\ 0 <= Player.drop (player g) <= 0.35
  /\ 0 <= Player.coyote (player g) <= 0.10
  /\ 0 <= Player.jumpBuffered (player g) <= 0.12
  /\ 0 <= St.shake (state g) <= 0.18
  /\ 0 <= Player.flyHold (player g).

(** The constants of the world and the size of the player. *)
Definition Fixed (g : Game) : Prop :=
  World.gravity (world g) = 2400
  /\ World.jumpVel (world g) = -760
  /\ World.plateauLift (world g) = 96
  /\ Player.w (player g) = 54
  /\ Player.h (player g) = 44.

Definition Rest (c b : Q) (g : Game) : Prop :=
  Clock g /\ Pace g /\ Stride g /\ Fuel g /\ Timers g /\ Fixed g
  /\ c <= St.score (state g) /\ b <= St.best (state g).

(** All of it, with the bounds of [Inv]; the score is at least [c] and
    the best score at least [b]. *)
Definition Steady (c b : Q) (g : Game) : Prop := Inv g /\ Rest c b g.

Ltac max_fact a b :=
  let m := fresh "m" in
  let E := fresh "E" in
  destruct (Q.max_spec a b) as [[? E] | [? E]];
  set (m := Qmax a b) in *; clearbody m.

Ltac min_fact a b :=
  let m := fresh "m" in
  let E := fresh "E" in
  destruct (Q.min_spec a b) as [[? E] | [? E]];
  set (m := Qmin a b) in *; clearbody m.

Ltac max_facts :=
  repeat match goal with
         | |- context [Qmax ?a ?b] => max_fact a b
         | |- context [Qmin ?a ?b] => min_fact a b
         | H : context [Qmax ?a ?b] |- _ => max_fact a b
         | H : context [Qmin ?a ?b] |- _ => min_fact a b
         end.

Ltac rest_heavy HR :=
  unfold Rest, Clock, Pace, Stride, Fuel, Timers, Fixed in HR |- *;
  cbn -[Qmax Qmin lerp clamp Qle Qlt Qeq Qplus Qminus Qmult Qopp floorQ] in HR |- *;
  repeat match goal with |- context [if ?c then _ else _] => destruct c end;
  cbn -[Qmax Qmin lerp clamp Qle Qlt Qeq Qplus Qminus Qmult Qopp floorQ] in HR |- *;
  let HF1 := fresh "HF1" in
  let HF2 := fresh "HF2" in
  destruct HR as (? & (? & ?) & ? & (HF1 & HF2 & ? & ?) & (? & ? & ? & ? & ? & ?)
                  & (? & ? & ? & ? & ?) & ? & ?);
  rewrite ?HF1, ?HF2;
  repeat match goal with |- _ /\ _ => split end;
  try assumption; try reflexivity;
  unfold lerp, clamp in *; max_facts; first [lra | nra].

Ltac rest_leaf :=
  let g := fresh "g" in
  let HR := fresh "HR" in
  intros g HR; first [exact HR | rest_heavy HR].

Ltac steady_leaf :=
  let g := fresh "g" in
  let HI := fresh "HI" in
  let HR := fresh "HR" in
  intros g [HI HR]; split;
  [ clear HR; revert g HI; inv_leaf'
  | clear HI; first [exact HR | rest_heavy HR] ].

Section Steady.

Variables c b : Q.

Local Abbreviation keeps := (preserves (Steady c b)).

Lemma featherBurst_steady (x y : Q) : keeps (featherBurst x y).
Proof. pres steady_leaf. Qed.

Lemma dustPuff_steady (x y : Q) : keeps (dustPuff x y).
Proof. pres steady_leaf. Qed.

Lemma yolkBurst_steady (x y : Q) : keeps (yolkBurst x y).
Proof. pres steady_leaf. Qed.

Hint Resolve featherBurst_steady dustPuff_steady yolkBurst_steady : pres.

Lemma spawnStairs_loop_steady (n : nat) (i liftFrom dir stepRise stepW startX : Q) :
  keeps (spawnStairs_loop n i liftFrom dir stepRise stepW startX).
Proof.
  revert i. induction n as [|n IH]; intros i; cbn [spawnStairs_loop]; pres steady_leaf.
Qed.

Lemma smooth_loop_steady (n : nat) (i : Z) (title : bool) (dt : Q) :
  keeps (smooth_loop n i title dt).
Proof.
  revert i. induction n as [|n IH]; intros i; cbn [smooth_loop]; pres steady_leaf.
Qed.

Hint Resolve spawnStairs_loop_steady smooth_loop_steady : pres.

Lemma spawner_loop_steady (n : nat) (W : Q) : keeps (spawner_loop n W).
Proof. induction n as [|n IH]; cbn [spawner_loop]; pres steady_leaf. Qed.

Lemma platform_loop_steady (w : bool) (pb bt : Q) (ps : list Platform.platform) :
  keeps (platform_loop w pb bt ps).
Proof. induction ps as [|p rest IH]; cbn [platform_loop]; pres steady_leaf. Qed.

Lemma obstacle_top_loop_steady (w : bool) (pb bt : Q) (os : list Obstacle.obstacle) :
  keeps (obstacle_top_loop w pb bt os).
Proof. induction os as [|o rest IH]; cbn [obstacle_top_loop]; pres steady_leaf. Qed.

Lemma smash_loop_steady (hitbox : Hitbox) (es : list Egg.egg) :
  keeps (smash_loop hitbox es).
Proof. induction es as [|e rest IH]; cbn [smash_loop]; pres steady_leaf. Qed.

Hint Resolve spawner_loop_steady platform_loop_steady obstacle_top_loop_steady
  smash_loop_steady : pres.

Lemma steady_split {A : Type} (m : M A) :
  preserves Inv m -> preserves (Rest c b) m -> keeps m.
Proof. intros H1 H2 g [HI HR]. split; [apply H1, HI | apply H2, HR]. Qed.

Lemma hurt12_steady (o : Obstacle.obstacle) : keeps (hurt o 12).
Proof.
  apply steady_split; [apply hurt12_Inv |].
  unfold hurt, knock_back, heart_out. pres rest_leaf.
Qed.

Hint Resolve hurt12_steady : pres.

Lemma damage_loop_steady (hitbox : Hitbox) (os : list Obstacle.obstacle) :
  keeps (damage_loop hitbox os).
Proof. induction os as [|o rest IH]; cbn [damage_loop]; pres steady_leaf. Qed.

Lemma update_pickups_steady (dt : Q) : keeps (update_pickups dt).
Proof.
  apply steady_split; [apply update_pickups_Inv |].
  unfold update_pickups. pres rest_leaf.
Qed.

Hint Resolve damage_loop_steady update_pickups_steady : pres.

Lemma ramp_steady (dt : Q) : 0 <= dt -> keeps (ramp dt).
Proof.
  intros Hdt. apply steady_split; [unfold ramp; pres inv_leaf |].
  unfold ramp.
  assert (Hs : preserves (Rest c b) (smooth_hearts false dt)).
  { unfold smooth_hearts.
    apply preserves_bind; [apply preserves_gets | intros s].
    generalize (Z.to_nat (St.heartsMax s)) 0%Z. intros n.
    induction n as [|n IH]; intros i; cbn [smooth_loop]; pres rest_leaf. }
  intros g HR. change (Rest c b (exec
    (upd_state (fun s => St.set_difficulty (clamp (St.difficulty s + dt * 0.035) 0 1) s) ;;
     upd_state (fun s => St.set_speed (lerp 360 620 (St.difficulty s)) s) ;;
     upd_state (fun s => St.set_score (St.score s + dt * (20 + St.speed s * 0.02)) s) ;;
     upd_player (fun p => Player.set_invuln (Qmax 0 (Player.invuln p - dt)) p) ;;
     smooth_hearts false dt) g)).
  repeat (rewrite exec_bind; cbn [fst snd]).
  apply Hs. unfold upd_state, upd_player, modify. cbn [snd]. rest_heavy HR.
Qed.

Lemma move_steady (dt : Q) (left right : bool) : keeps (move dt left right).
Proof.
  apply steady_split; [unfold move; pres inv_leaf |].
  intros g HR. unfold move, bind, when, upd_player, modify, ret.
  destruct left, right; cbn [fst snd negb andb]; rest_heavy HR.
Qed.

Hint Resolve ramp_steady move_steady : pres.

Lemma collect_rest (hitbox : Hitbox) (p : Pickup.pickup) :
  Pickup.value p = 1%Z \/ Pickup.value p = 3%Z ->
  preserves (Rest c b) (collect hitbox p).
Proof.
  intros Hv. unfold collect.
  destruct (Pickup.taken p); [apply preserves_ret |].
  destruct (hits_circle _ _ _ _); [| apply preserves_ret].
  apply preserves_bind; [pres rest_leaf | intros _].
  apply preserves_bind; [| intros _; pres rest_leaf].
  apply preserves_modify. intros g HR.
  assert (Hp : 0 <= 60 * inject_Z (or1 (Pickup.value (Pickup.set_taken true p)))).
  { destruct Hv as [E | E]; cbn [Pickup.value Pickup.set_taken]; rewrite E;
      vm_compute; intros H; discriminate H. }
  set (gain := 60 * inject_Z (or1 (Pickup.value (Pickup.set_taken true p)))) in *.
  clearbody gain. rest_heavy HR.
Qed.

Lemma collect_loop_rest (hitbox : Hitbox) (ps : list Pickup.pickup) :
  Forall (fun p => Pickup.value p = 1%Z \/ Pickup.value p = 3%Z) ps ->
  preserves (Rest c b) (collect_loop hitbox ps).
Proof.
  induction 1 as [|p rest Hp Hr IH]; cbn [collect_loop]; [apply preserves_ret |].
  pose proof (collect_rest hitbox p Hp). pres rest_leaf.
Qed.

Lemma collect_pickups_steady (hitbox : Hitbox) : keeps (collect_pickups hitbox).
Proof.
  intros g [HI HR]. split; [apply collect_pickups_Inv, HI |].
  unfold collect_pickups, bind, gets, modify.
  pose proof (collect_loop_rest hitbox (pickups g) (proj2 (proj2 HI)) g HR) as H.
  destruct (collect_loop hitbox (pickups g) g) as [ps' g1]. exact H.
Qed.

Hint Resolve collect_pickups_steady : pres.

Lemma update_steady (env : Env) (dt : Q) : 0 <= dt -> keeps (update env dt).
Proof.
  intros Hdt. pose proof (ramp_steady dt Hdt). unfold update. pres steady_leaf.
Qed.

Hint Resolve update_steady : pres.

Lemma resetRun_steady (env : Env) : c <= 0 -> keeps (resetRun env).
Proof.
  intros Hc. apply steady_split; [apply resetRun_Inv |].
  unfold resetRun. pres rest_leaf.
Qed.

Lemma keys_add_steady (k : string) : keeps (keys_add k).
Proof.
  apply steady_split; [apply keys_add_Inv |].
  apply preserves_modify. intros g HR. destruct (has (keys g) k); exact HR.
Qed.

Hint Resolve resetRun_steady keys_add_steady : pres.

Lemma frame_steady (env : Env) (elapsedMs : Q) : keeps (frame env elapsedMs).
Proof.
  intros g H. unfold frame, bind, gets.
  apply update_steady; [apply frame_dt_range | exact H].
Qed.

Hint Resolve frame_steady : pres.

Lemma handle_steady (env : Env) (ev : Event) : c <= 0 -> keeps (handle env ev).
Proof.
  intros Hc. pose proof (resetRun_steady env Hc).
  destruct ev; cbn [handle]; pres steady_leaf.
Qed.

End Steady.

Lemma Steady_weaken (c b c' b' : Q) (g : Game) :
  Steady c b g -> c' <= St.score (state g) -> b' <= St.best (state g) ->
  Steady c' b' g.
Proof.
  forget_env.
  unfold Steady, Rest. tauto.
Qed.

Lemma initial_steady (best : Q) (name : JsString.t) :
  Steady 0 best (initial best name).
Proof.
  split; [apply initial_Inv |].
  unfold Rest, Clock, Pace, Stride, Fuel, Timers, Fixed, lerp. cbn.
  repeat match goal with |- _ /\ _ => split end; try reflexivity; lra.
Qed.

(** Every state the game reaches is steady, with a score that is not
    negative. *)
Lemma reachable_steady (g : Game) :
  reachable g -> Steady 0 (St.best (state g)) g.
Proof.
  induction 1 as [best name | env ev g Hr IH].
  - apply initial_steady.
  - pose proof (handle_steady 0 (St.best (state g)) env ev (Qle_refl 0) g IH) as H.
    apply (Steady_weaken _ _ _ _ _ H); [apply H | apply Qle_refl].
Qed.

(** ** The hearts *)

(** There are two hearts; the one before the active heart is empty and
    the one after it is full; the active heart holds between 0 and 100,
    and more than 0 unless the game is over. *)
Definition Hearts (g : Game) : Prop :=
  exists h0 h1,
    St.hearts (state g) = [h0; h1]
    /\ St.heartsMax (state g) = 2%Z
    /\ ((St.heartIndex (state g) = 0%Z /\ h1 == 100 /\ 0 <= h0 <= 100
         /\ (St.mode (state g) <> Gameover -> 0 < h0))
        \/ (St.heartIndex (state g) = 1%Z /\ h0 == 0 /\ 0 <= h1 <= 100
            /\ (St.mode (state g) <> Gameover -> 0 < h1))).

Lemma Hearts_over (g : Game) :
  Hearts g -> Hearts (set_state (St.set_mode Gameover (state g)) g).
Proof.
  forget_env.
  intros (h0 & h1 & E & M & H). exists h0, h1. cbn.
  split; [exact E | split; [exact M |]].
  destruct H as [(I & A & B & _) | (I & A & B & _)]; [left | right];
    (split; [exact I | split; [exact A | split; [exact B |]]]);
    intros Hn; contradiction.
Qed.

Ltac hearts_leaf :=
  let g := fresh "g" in
  let H := fresh "H" in
  intros g H; first [exact H | apply Hearts_over; exact H].

Lemma hurt12_hearts (o : Obstacle.obstacle) : preserves Hearts (hurt o 12).
Proof.
  intros g H. change (Hearts (exec (hurt o 12) g)).
  destruct (Mode_eqb (St.mode (state g)) Playing) eqn:Em.
  2:{ unfold exec. rewrite hurt_noop_eq; [exact H |].
      left. intros E. rewrite E in Em. discriminate Em. }
  assert (Hm : St.mode (state g) = Playing)
    by (destruct (St.mode (state g)); try discriminate Em; reflexivity).
  destruct (Qlt_le_dec 0 (Player.invuln (player g))) as [Hi | Hi].
  { unfold exec. rewrite hurt_noop_eq; [exact H | right; exact Hi]. }
  destruct (hurt_run g o 12 Hm (Qle_not_lt _ _ Hi)) as (g1 & Hc & ->).
  apply cosmetic_state in Hc.
  destruct (knock_back_effect g o 12) as (Hs & _). cbv zeta in Hs. rewrite Hs in Hc.
  clear Hs. destruct H as (h0 & h1 & E & M & H).
  destruct H as [(I & A & B & _) | (I & A & B & _)].
  - (* the first heart is active *)
    rewrite E, I in Hc.
    change (at_index [h0; h1] 0) with h0 in Hc.
    change (store_index [h0; h1] 0 (Qmax 0 (h0 - 12))) with [Qmax 0 (h0 - 12); h1] in Hc.
    destruct (Qlt_le_dec 0 (Qmax 0 (h0 - 12))) as [Hp | Hz].
    + rewrite heart_out_alive.
      * exists (Qmax 0 (h0 - 12)), h1. rewrite Hc. cbn -[Qmax].
        split; [reflexivity | split; [exact M |]]. left.
        split; [exact I | split; [exact A | split; [| intros _; exact Hp]]].
        split; [apply Q.le_max_l | apply Q.max_lub; lra].
      * rewrite Hc. cbn -[Qmax]. rewrite I. change (at_index _ 0) with (Qmax 0 (h0 - 12)).
        lra.
    + destruct (heart_out_next g1) as (Hn & _).
      * rewrite Hc. cbn -[Qmax]. rewrite I. exact Hz.
      * rewrite Hc. cbn -[Qmax]. rewrite I, M. lia.
      * cbv zeta in Hn. exists 0, 100. rewrite Hn, Hc. cbn -[Qmax]. rewrite I.
        split; [reflexivity | split; [exact M |]]. right.
        split; [reflexivity | split; [reflexivity | split; [lra | intros _; lra]]].
  - (* the second heart is active *)
    rewrite E, I in Hc.
    change (at_index [h0; h1] 1) with h1 in Hc.
    change (store_index [h0; h1] 1 (Qmax 0 (h1 - 12))) with [h0; Qmax 0 (h1 - 12)] in Hc.
    assert (Hb : 0 <= Qmax 0 (h1 - 12) <= 100)
      by (split; [apply Q.le_max_l | apply Q.max_lub; lra]).
    destruct (Qlt_le_dec 0 (Qmax 0 (h1 - 12))) as [Hp | Hz].
    + rewrite heart_out_alive.
      * exists h0, (Qmax 0 (h1 - 12)). rewrite Hc. cbn -[Qmax].
        split; [reflexivity | split; [exact M |]]. right.
        split; [exact I | split; [exact A | split; [exact Hb | intros _; exact Hp]]].
      * rewrite Hc. cbn -[Qmax]. rewrite I. change (at_index _ 1) with (Qmax 0 (h1 - 12)).
        lra.
    + destruct (heart_out_last g1) as (Hn & _).
      * rewrite Hc. cbn -[Qmax]. rewrite I. exact Hz.
      * rewrite Hc. cbn -[Qmax]. rewrite I, M. lia.
      * cbv zeta in Hn. exists h0, (Qmax 0 (h1 - 12)). rewrite Hn, Hc. cbn -[Qmax floorQ].
        split; [reflexivity | split; [exact M |]]. right.
        split; [exact I | split; [exact A | split; [exact Hb |]]].
        intros Hne. contradiction.
Qed.

#[local] Hint Resolve hurt12_hearts : pres.

Lemma featherBurst_hearts (x y : Q) : preserves Hearts (featherBurst x y).
Proof. pres hearts_leaf. Qed.

Lemma dustPuff_hearts (x y : Q) : preserves Hearts (dustPuff x y).
Proof. pres hearts_leaf. Qed.

Lemma yolkBurst_hearts (x y : Q) : preserves Hearts (yolkBurst x y).
Proof. pres hearts_leaf. Qed.

#[local] Hint Resolve featherBurst_hearts dustPuff_hearts yolkBurst_hearts : pres.

Lemma spawnStairs_loop_hearts (n : nat) (i liftFrom dir stepRise stepW startX : Q) :
  preserves Hearts (spawnStairs_loop n i liftFrom dir stepRise stepW startX).
Proof.
  revert i. induction n as [|n IH]; intros i; cbn [spawnStairs_loop]; pres hearts_leaf.
Qed.

Lemma smooth_loop_hearts (n : nat) (i : Z) (title : bool) (dt : Q) :
  preserves Hearts (smooth_loop n i title dt).
Proof.
  revert i. induction n as [|n IH]; intros i; cbn [smooth_loop]; pres hearts_leaf.
Qed.

#[local] Hint Resolve spawnStairs_loop_hearts smooth_loop_hearts : pres.

Lemma spawner_loop_hearts (n : nat) (W : Q) : preserves Hearts (spawner_loop n W).
Proof. induction n as [|n IH]; cbn [spawner_loop]; pres hearts_leaf. Qed.

Lemma damage_loop_hearts (hitbox : Hitbox) (os : list Obstacle.obstacle) :
  preserves Hearts (damage_loop hitbox os).
Proof. induction os as [|o rest IH]; cbn [damage_loop]; pres hearts_leaf. Qed.

Lemma platform_loop_hearts (w : bool) (pb bt : Q) (ps : list Platform.platform) :
  preserves Hearts (platform_loop w pb bt ps).
Proof. induction ps as [|p rest IH]; cbn [platform_loop]; pres hearts_leaf. Qed.

Lemma obstacle_top_loop_hearts (w : bool) (pb bt : Q) (os : list Obstacle.obstacle) :
  preserves Hearts (obstacle_top_loop w pb bt os).
Proof. induction os as [|o rest IH]; cbn [obstacle_top_loop]; pres hearts_leaf. Qed.

Lemma collect_loop_hearts (hitbox : Hitbox) (ps : list Pickup.pickup) :
  preserves Hearts (collect_loop hitbox ps).
Proof. induction ps as [|p rest IH]; cbn [collect_loop]; pres hearts_leaf. Qed.

Lemma smash_loop_hearts (hitbox : Hitbox) (es : list Egg.egg) :
  preserves Hearts (smash_loop hitbox es).
Proof. induction es as [|e rest IH]; cbn [smash_loop]; pres hearts_leaf. Qed.

#[local] Hint Resolve spawner_loop_hearts damage_loop_hearts platform_loop_hearts
  obstacle_top_loop_hearts collect_loop_hearts smash_loop_hearts : pres.

Lemma update_hearts (env : Env) (dt : Q) : preserves Hearts (update env dt).
Proof. unfold update. pres hearts_leaf. Qed.

(** A new run starts with both hearts full. *)
Definition two_hearts (m : Mode) (g : Game) : Prop :=
  (exists a b', St.hearts (state g) = [a; b'])
  /\ St.heartsMax (state g) = 2%Z /\ St.mode (state g) = m.

Definition full_hearts (m : Mode) (g : Game) : Prop :=
  St.hearts (state g) = [100; 100] /\ St.heartIndex (state g) = 0%Z
  /\ St.heartsMax (state g) = 2%Z /\ St.mode (state g) = m.

Lemma wp_bind_run {A B : Type} (m : M A) (k : A -> M B) (Q : B -> Game -> Prop)
    (g : Game) :
  wp (k (fst (m g))) Q (snd (m g)) -> wp (bind m k) Q g.
Proof. intros H. apply wp_bind. exact H. Qed.

Lemma resetRun_hearts (env : Env) (g : Game) :
  Hearts g -> wp (resetRun env) (fun _ g' => full_hearts (St.mode (state g)) g') g.
Proof.
  intros (h0 & h1 & E & M & _).
  set (m := St.mode (state g)).
  assert (H0 : two_hearts m g)
    by (split; [exists h0, h1; exact E | split; [exact M | reflexivity]]).
  clearbody m. clear E M.
  unfold resetRun.
  do 15 (apply wp_bind; eapply wp_mono;
         [apply (wp_preserves (two_hearts m)); [pres same_leaf | eassumption]
         | intros ? ? ?; cbv beta in * ]).
  do 3 (apply wp_bind_run; cbv beta).
  match goal with |- wp _ _ ?gg => assert (HF : full_hearts m gg) end.
  { match goal with H : two_hearts m ?g0 |- _ =>
      destruct H as ((x0 & y0 & Ea) & Ma & Mo) end.
    unfold full_hearts, upd_state, modify, and_then. cbn. rewrite Ea.
    repeat split; assumption. }
  apply (wp_preserves (full_hearts m)); [pres same_leaf | exact HF].
Qed.

Lemma full_hearts_Hearts (m : Mode) (g : Game) : full_hearts m g -> Hearts g.
Proof.
  forget_env.
  intros (E & I & M & _). exists 100, 100.
  split; [exact E | split; [exact M |]]. left.
  split; [exact I | split; [reflexivity | split; [lra | intros _; lra]]].
Qed.

Lemma resetRun_keeps_hearts (env : Env) (g : Game) :
  Hearts g -> Hearts (exec (resetRun env) g).
Proof.
  intros H. apply (full_hearts_Hearts (St.mode (state g))).
  exact (resetRun_hearts env g H).
Qed.

Lemma startGame_hearts (env : Env) (g : Game) :
  Hearts g -> Hearts (exec (startGame env) g).
Proof.
  intros H. change (wp (startGame env) (fun _ g' => Hearts g') g).
  unfold startGame.
  apply wp_bind. eapply wp_mono.
  { apply (wp_preserves Hearts); [destruct (nameInput env); pres hearts_leaf | exact H]. }
  intros ? g1 H1. cbv beta in H1 |- *.
  apply wp_bind. eapply wp_mono.
  { exact (resetRun_hearts env g1 H1). }
  intros ? g2 H2. cbv beta in H2 |- *.
  apply (full_hearts_Hearts Playing). destruct H2 as (E & I & M & _).
  repeat split; assumption.
Qed.

Lemma Hearts_mode (m : Mode) (g : Game) :
  Hearts g -> St.mode (state g) <> Gameover ->
  Hearts (set_state (St.set_mode m (state g)) g).
Proof.
  forget_env.
  intros (h0 & h1 & E & M & H) Hm. exists h0, h1. cbn.
  split; [exact E | split; [exact M |]].
  destruct H as [(I & A & B & C) | (I & A & B & C)]; [left | right];
    (split; [exact I | split; [exact A | split; [exact B | intros _; apply C, Hm]]]).
Qed.

Lemma keyDown_hearts (env : Env) (k : string) (isTyping : bool) (g : Game) :
  Hearts g -> Hearts (exec (keyDown env k isTyping) g).
Proof.
  intros H. unfold keyDown.
  repeat (rewrite exec_bind; cbn [gets fst snd]).
  destruct (keys_add_shape k g) as (ks & ->).
  assert (H1 : Hearts (set_keys ks g)) by exact H.
  set (g1 := set_keys ks g) in *. clearbody g1. clear H.
  decide_keys; destruct (St.mode (state g1)) eqn:Em; destruct isTyping;
    repeat (cbn -[startGame resetRun]; rewrite ?Em);
    match goal with
    | |- context [startGame] => apply startGame_hearts; exact H1
    | |- context [resetRun] => apply resetRun_keeps_hearts; exact H1
    | |- context [St.set_mode] => apply (Hearts_mode _ g1 H1); rewrite Em; discriminate
    | |- _ => exact H1
    end.
Qed.

Lemma handle_hearts (env : Env) (ev : Event) (g : Game) :
  Hearts g -> Hearts (exec (handle env ev) g).
Proof.
  intros H. destruct ev as [k t | k | ms | v |]; cbn [handle].
  - apply keyDown_hearts, H.
  - exact H.
  - unfold frame. rewrite exec_bind. apply update_hearts, H.
  - exact H.
  - exact H.
Qed.

Lemma reachable_hearts (g : Game) : reachable g -> Hearts g.
Proof.
  induction 1 as [best name | env ev g Hr IH].
  - exists 100, 100. cbn. split; [reflexivity | split; [reflexivity |]]. left.
    split; [reflexivity | split; [reflexivity | split; [lra | intros _; lra]]].
  - apply handle_hearts, IH.
Qed.

(** ** Invariants of the game *)

(** X21.  In every state the game reaches the scale of time is the one
    that goes with the time mode: 0.55 in slow mode, 1 in normal mode and
    1.6 in fast mode. *)
Theorem time_scale_follows_mode (g : Game) :
  reachable g ->
  St.timeScale (state g) = scale_of (St.timeMode (state g))
  /\ (St.timeScale (state g) = 0.55 \/ St.timeScale (state g) = 1.0
      \/ St.timeScale (state g) = 1.6).
Proof.
  intros Hr. destruct (reachable_steady g Hr) as (_ & HC & _).
  split; [exact HC |]. unfold Clock in HC. rewrite HC.
  destruct (St.timeMode (state g)); cbn; auto.
Qed.

(** X22.  In every state the game reaches the difficulty is between 0
    and 1 and the speed of the scroll is [360 + 260 * difficulty], so
    between 360 and 620. *)
Theorem pace_bounds (g : Game) :
  reachable g ->
  0 <= St.difficulty (state g) <= 1
  /\ St.speed (state g) == 360 + 260 * St.difficulty (state g)
  /\ 360 <= St.speed (state g) <= 620.
Proof.
  intros Hr. destruct (reachable_steady g Hr) as (_ & _ & (Hd & Hs) & _).
  unfold lerp in Hs. split; [exact Hd |]. split; [rewrite Hs; ring | lra].
Qed.

(** X23.  In every state the game reaches the player moves sideways at
    no more than 360 a second, to either side, also right after a hit. *)
Theorem sideways_speed_bounded (g : Game) :
  reachable g -> -360 <= Player.vx (player g) <= 360.
Proof.
  intros Hr. destruct (reachable_steady g Hr) as (_ & _ & _ & Hs & _). exact Hs.
Qed.

(** X24.  In every state the game reaches the fuel of flight is between
    empty and full (5 seconds) and the cooldown before a refuel is
    between 0 and its delay (0.75 seconds); the two constants never
    change. *)
Theorem fuel_gauge_bounds (g : Game) :
  reachable g ->
  St.flyFuelMax (state g) = 5.0
  /\ St.flyRefuelDelay (state g) = 0.75
  /\ 0 <= St.flyFuel (state g) <= St.flyFuelMax (state g)
  /\ 0 <= St.flyRefuelCd (state g) <= St.flyRefuelDelay (state g).
Proof.
  intros Hr.
  destruct (reachable_steady g Hr) as (_ & _ & _ & _ & (H1 & H2 & H3 & H4) & _).
  rewrite H1, H2. repeat split; try reflexivity; lra.
Qed.

(** X25.  In every state the game reaches the timers of the player are
    within the values the code sets them to: invulnerability lasts at most
    1.2 seconds, the drop through a platform at most 0.35, coyote time at
    most 0.10, the jump buffer at most 0.12, the shake of the screen at
    most 0.18; none is negative, and neither is the time the jump key has
    been held. *)
Theorem timers_bounded (g : Game) :
  reachable g ->
  0 <= Player.invuln (player g) <= 1.2
  /\ 0 <= Player.drop (player g) <= 0.35
  /\ 0 <= Player.coyote (player g) <= 0.10
  /\ 0 <= Player.jumpBuffered (player g) <= 0.12
  /\ 0 <= St.shake (state g) <= 0.18
  /\ 0 <= Player.flyHold (player g).
Proof.
  intros Hr. destruct (reachable_steady g Hr) as (_ & _ & _ & _ & _ & Ht & _).
  exact Ht.
Qed.

(** X26.  The score is never negative, a frame never lowers it, and no
    event ever lowers the best score. *)
Theorem progress_kept (g : Game) :
  reachable g ->
  0 <= St.score (state g)
  /\ (forall env elapsedMs,
        St.score (state g) <= St.score (state (exec (handle env (Frame elapsedMs)) g)))
  /\ (forall env ev,
        St.best (state g) <= St.best (state (exec (handle env ev) g))).
Proof.
  intros Hr. pose proof (reachable_steady g Hr) as H.
  split; [apply H |]. split.
  - intros env ms.
    assert (H' : Steady (St.score (state g)) (St.best (state g)) g)
      by (apply (Steady_weaken _ _ _ _ _ H); apply Qle_refl).
    apply (frame_steady _ _ env ms g H').
  - intros env ev.
    apply (handle_steady 0 (St.best (state g)) env ev (Qle_refl 0) g H).
Qed.

Lemma steady_landing_gap (c b : Q) (g : Game) :
  Steady c b g -> 448 <= landingSpacingPx g.
Proof.
  forget_env.
  intros (_ & _ & (Hd & Hs) & _ & _ & _ & (Hg & Hj & _) & _).
  unfold landingSpacingPx. eapply Qle_trans; [| apply Q.le_max_r].
  assert (Ha : airTime g == 19 # 30).
  { unfold airTime. rewrite Hj, Hg. reflexivity. }
  unfold jumpTravelPx, reactionPx. rewrite Ha, Hs. unfold lerp. lra.
Qed.

(** X27.  In every state the game reaches, a pass of the obstacle
    spawner inside a run places its chunk at least 448 to the right of the
    end of the last obstacle: the landing gap is never less than the world
    travels during a full jump at the lowest speed (228) plus the longest
    reaction buffer (220), at any difficulty. *)
Theorem landing_gap_448 (W : Q) (g : Game) (lastObs : Obstacle.obstacle) :
  reachable g ->
  0 < Spawner.runChunksLeft (spawner g) ->
  last (obstacles g) = Some lastObs ->
  448 <= landingSpacingPx g
  /\ exists o1,
       obstacles (exec (spawner_pass W) g) !! length (obstacles g) = Some o1
       /\ Obstacle.x lastObs + Obstacle.w lastObs + 448 <= Obstacle.x o1.
Proof.
  intros Hr Hrun Hlast.
  pose proof (steady_landing_gap _ _ g (reachable_steady g Hr)) as Hgap.
  split; [exact Hgap |].
  destruct (spawner_pass_places W g lastObs Hrun Hlast) as (o1 & Ho1).
  exists o1. split; [exact Ho1 |].
  pose proof (spawner_pass_spacing W g lastObs o1 (reachable_spawner_ok g Hr) Hlast Ho1)
    as Hsp.
  apply Qltb_lt in Hrun. rewrite Hrun in Hsp. lra.
Qed.

(** X28.  In every state the game reaches there are exactly two hearts;
    the heart before the active one is empty and the heart after it is
    full; the active heart holds between 0 and 100, and more than 0 unless
    the game is over: a run never goes on with an empty active heart. *)
Theorem hearts_layout (g : Game) :
  reachable g ->
  Hearts g
  /\ (St.mode (state g) <> Gameover ->
      0 < at_index (St.hearts (state g)) (St.heartIndex (state g)))
  /\ (forall i, (0 <= i < St.heartIndex (state g))%Z ->
        at_index (St.hearts (state g)) i == 0)
  /\ (forall i, (St.heartIndex (state g) < i < St.heartsMax (state g))%Z ->
        at_index (St.hearts (state g)) i == 100).
Proof.
  intros Hr. pose proof (reachable_hearts g Hr) as H. split; [exact H |].
  destruct H as (h0 & h1 & E & M & H). rewrite E, M.
  destruct H as [(I & A & B & C) | (I & A & B & C)]; rewrite I.
  - split; [exact C |]. split; [intros i Hi; lia |].
    intros i Hi. assert (i = 1%Z) by lia. subst i. exact A.
  - split; [exact C |]. split; [| intros i Hi; lia].
    intros i Hi. assert (i = 0%Z) by lia. subst i. exact A.
Qed.

(** ** Eggs wait for a break *)

(** X29. The egg spawner only counts its cooldown down while a run of
    obstacles is under way (or a landing gap is owed) or the cooldown has not
    run out.  When it does act it lays at most one egg, unsmashed and resting
    on the floor, at least 220 px right of the canvas edge and at least 360 px
    right of the last obstacle, shelf or egg. *)
Theorem eggs_wait_for_break (env : Env) (dt : Q) (g : Game) :
  let W := canvas_width env in
  let lastEnd := Qmax (Qmax (lastObsEnd g) (lastPlatEnd g)) (lastEggEnd g) in
  let g' := exec (spawn_eggs env dt) g in
  (in_break g = false \/ 0 < eggSpawner_cd g - dt ->
   g' = set_eggSpawner_cd (eggSpawner_cd g - dt) g)
  /\ (eggs g' = eggs g
      \/ exists e, eggs g' = eggs g ++ [e]
           /\ Egg.smashed e = false
           /\ Egg.y e + Egg.r e == World.floorY (world g)
           /\ (0 <= random (rng g) -> W + 220 <= Egg.x e)
           /\ (0 <= random (S (rng g)) -> lastEnd + 360 <= Egg.x e)).
Proof.
  cbv zeta. unfold spawn_eggs, exec, bind, gets, modify, when, rand, rand_dbl, randi, Math_random,
    ret, spawnEgg.
  cbn [fst snd].
  assert (Hcd : eggSpawner_cd (set_eggSpawner_cd (eggSpawner_cd g - dt) g)
                = eggSpawner_cd g - dt) by (destruct g; reflexivity).
  assert (Hbr : in_break (set_eggSpawner_cd (eggSpawner_cd g - dt) g) = in_break g)
    by (destruct g; reflexivity).
  rewrite Hcd, Hbr. clear Hcd Hbr.
  destruct ((eggSpawner_cd g - dt <=? 0) && in_break g) eqn:E.
  - apply andb_prop in E as [E1 E2]. split.
    + intros [H | H]; [congruence | ].
      unfold Qleb in E1. apply Qle_bool_imp_le in E1. lra.
    + clear E1 E2. destruct g; cbn.
      match goal with |- context [if ?c then _ else _] => destruct c end; cbn.
      * right. eexists. split; [reflexivity | ]. cbn.
        split; [reflexivity | ]. split; [ring | ].
        split; intros H.
        -- eapply Qle_trans; [ | apply Q.le_max_l].
           generalize dependent (random rng0); intros u Hu; lra.
        -- eapply Qle_trans; [ | apply Q.le_max_r].
           unfold lastObsEnd, lastPlatEnd, lastEggEnd, set_eggSpawner_cd;
           cbn [obstacles platforms eggs].
           generalize dependent (random (S rng0)); intros u Hu; lra.
      * left. reflexivity.
  - cbn [snd]. split; [reflexivity | left; destruct g; reflexivity].
Qed.

End Simulation.

(** * Sample states and runs

    A fixed environment and a few states, at which the statements above
    are applied. *)

(** The random numbers: 0.9 for the fifth draw, 0.4 for every other. *)
Definition sample_random (n : nat) : Q := if Nat.eqb n 4 then 0.9 else 0.4.

(** [Math.pow] where it is rational: exponents 0 and 1. *)
Definition sample_pow (b e : Q) : Q := if Qeq_bool e 0 then 1 else b.

Definition sample_PI : Q := 355 # 113.

(** No rounding: every number counts as a double. *)
Definition sample_dbl (x : Q) : Q := x.

(** A canvas of 800 by 600 and no name field. *)
Definition sample_env : Env := mkEnv 800 600 None.

Definition title_screen : Game := initial 0 (normalizeName Nullish).

(** The run that Enter starts from the title screen: the floor is at 468
    and the player stands at (192, 424). *)
Definition playing0 : Game :=
  exec (handle sample_random sample_pow sample_PI sample_dbl sample_env (KeyDown "Enter" false))
       title_screen.

(** An obstacle on the floor right in front of the player. *)
Definition crate : Obstacle.obstacle :=
  Obstacle.mk 7 220 434 46 34 Block "#ff6a3d" 0.

Definition bump : Game := set_obstacles [crate] playing0.

(** The same with 4 health left on the active heart. *)
Definition weak_bump : Game :=
  set_state (St.set_hearts [4; 100] (state bump)) bump.

(** The same during the invulnerability window. *)
Definition shielded_bump : Game :=
  set_player (Player.set_invuln 0.5 (player bump)) bump.

(** A corn pickup on the player. *)
Definition corn1 : Pickup.pickup := Pickup.mk 219 449 16 0 false Corn 1.

Definition corn_ahead : Game := set_pickups [corn1] playing0.

(** A run of obstacles under way: one chunk placed, one more to come. *)
Definition mid_run : Game := set_spawner (Spawner.mk 0 1 true) bump.

(** The player in the air with the jump key held for a quarter of a
    second. *)
Definition flying : Game :=
  set_keys ["ArrowUp"%string]
    (set_player
       (Player.set_flyHold 0.25 (Player.set_onGround false (player playing0))) playing0).

(** Three passes of the obstacle spawner in a row from [playing0]: the
    first starts a run of two chunks and places the first, the second
    places the second, the third starts the next run. *)
Definition pass (g : Game) : Game := exec (spawner_pass sample_random sample_PI sample_dbl 800) g.
Definition run1 : Game := pass playing0.
Definition run2 : Game := pass run1.
Definition run3 : Game := pass run2.

(** ** The statements at the sample states *)

Lemma playing0_reachable :
  reachable sample_random sample_pow sample_PI sample_dbl playing0.
Proof. apply reachable_handle, reachable_initial. Qed.

Lemma sample_dbl_monotone : monotone_rounding sample_dbl.
Proof. intros x y H. exact H. Qed.

Lemma sample_dbl_doubles (a b : Q) : doubles_for sample_dbl a b.
Proof. repeat split; apply Qeq_refl. Qed.

Lemma hurt_invulnerable_noop_witness :
  (0 < Player.invuln (player shielded_bump)
   \/ St.mode (state shielded_bump) <> Playing)
  /\ exec (hurt sample_random sample_PI sample_dbl crate 12) shielded_bump = shielded_bump.
Proof.
  assert (H : 0 < Player.invuln (player shielded_bump)
              \/ St.mode (state shielded_bump) <> Playing).
  { left. vm_compute. reflexivity. }
  split; [exact H |].
  apply (hurt_invulnerable_noop sample_random sample_PI sample_dbl shielded_bump crate 12 H).
Defined.

Lemma hurt_empties_heart_witness :
  St.mode (state weak_bump) = Playing
  /\ at_index (St.hearts (state weak_bump)) (St.heartIndex (state weak_bump)) - 12 <= 0
  /\ St.heartsMax (state (exec (hurt sample_random sample_PI sample_dbl crate 12) weak_bump)) = 2%Z
  /\ St.heartIndex (state (exec (hurt sample_random sample_PI sample_dbl crate 12) weak_bump)) = 1%Z
  /\ St.hearts (state (exec (hurt sample_random sample_PI sample_dbl crate 12) weak_bump)) !! 1%nat
     = Some 100.
Proof.
  assert (H1 : St.mode (state weak_bump) = Playing) by (vm_compute; reflexivity).
  assert (H2 : ~ 0 < Player.invuln (player weak_bump))
    by (vm_compute; intros H; discriminate H).
  assert (H3 : Z.of_nat (length (St.hearts (state weak_bump)))
               = St.heartsMax (state weak_bump)) by (vm_compute; reflexivity).
  assert (H4 : (0 <= St.heartIndex (state weak_bump)
                < St.heartsMax (state weak_bump))%Z)
    by (vm_compute; split; [intros H; discriminate H | reflexivity]).
  assert (H5 : at_index (St.hearts (state weak_bump))
                 (St.heartIndex (state weak_bump)) - 12 <= 0)
    by (vm_compute; intros H; discriminate H).
  destruct (hurt_empties_heart sample_random sample_PI sample_dbl weak_bump crate 12
              H1 H2 H3 H4 H5) as (Hmax & Hnext & _).
  destruct Hnext as (_ & Hidx & Hfull & _); [vm_compute; reflexivity |].
  split; [exact H1 | split; [exact H5 |]].
  (split; [rewrite Hmax; vm_compute; reflexivity |]).
  (split; [rewrite Hidx; vm_compute; reflexivity | exact Hfull]).
Defined.

Lemma landing_gap_enforced_witness :
  spawner_ok mid_run
  /\ Spawner.needLanding (spawner mid_run) = true
  /\ last (obstacles mid_run) = Some crate
  /\ exists o1,
       obstacles (exec (spawner_pass sample_random sample_PI sample_dbl 800) mid_run)
         !! length (obstacles mid_run) = Some o1
       /\ Obstacle.x crate + Obstacle.w crate + (228 + 220) <= Obstacle.x o1
       /\ Obstacle.x crate + Obstacle.w crate + 228 < Obstacle.x o1.
Proof.
  assert (H1 : spawner_ok mid_run) by (vm_compute; reflexivity).
  assert (H2 : Spawner.needLanding (spawner mid_run) = true) by reflexivity.
  assert (H3 : last (obstacles mid_run) = Some crate) by reflexivity.
  destruct (landing_gap_enforced sample_random sample_PI sample_dbl 800 mid_run crate H1 H2 H3)
    as (o1 & Ho1 & _ & Hzero).
  split; [exact H1 | split; [exact H2 | split; [exact H3 |]]].
  exists o1. split; [exact Ho1 |].
  apply Hzero; vm_compute; reflexivity.
Defined.

Lemma chunk_spacing_by_run_witness :
  spawner_ok mid_run
  /\ last (obstacles mid_run) = Some crate
  /\ exists o1,
       obstacles (exec (spawner_pass sample_random sample_PI sample_dbl 800) mid_run)
         !! length (obstacles mid_run) = Some o1
       /\ Spawner.needLanding (spawner mid_run) = true
       /\ Obstacle.x crate + Obstacle.w crate + landingSpacingPx mid_run
          <= Obstacle.x o1.
Proof.
  assert (H1 : spawner_ok mid_run) by (vm_compute; reflexivity).
  assert (H2 : last (obstacles mid_run) = Some crate) by reflexivity.
  split; [exact H1 | split; [exact H2 |]].
  eexists. split; [vm_compute; reflexivity |].
  eapply (chunk_spacing_by_run sample_random sample_PI sample_dbl 800 mid_run crate _ H1 H2).
  - vm_compute. reflexivity.
  - vm_compute. reflexivity.
Defined.

(** C2 as stated fails: in the run of [run1], [run2], [run3] the second
    chunk continues the run of the first and is kept 448 away from it, the
    landing spacing, not the short spacing of 240; the third chunk starts
    the next run and is only 240 away from the end of the run before it,
    less than the landing spacing of 448. *)
Lemma run_gap_counterexample :
  exists a b c,
    obstacles run3 = [a; b; c]
    /\ 0 < Spawner.runChunksLeft (spawner run1)
    /\ Obstacle.x b - (Obstacle.x a + Obstacle.w a) == 448
    /\ minSpacingPx run1 == 240
    /\ Spawner.runChunksLeft (spawner run2) <= 0
    /\ Obstacle.x c - (Obstacle.x b + Obstacle.w b) == 240
    /\ landingSpacingPx run2 == 448
    /\ ~ Obstacle.x b + Obstacle.w b + landingSpacingPx run2 <= Obstacle.x c.
Proof.
  eexists _, _, _. split; [vm_compute; reflexivity |].
  vm_compute. repeat split; try reflexivity; intros H; try discriminate H.
  apply H. reflexivity.
Qed.

Lemma health_corn_bounds_witness :
  Inv playing0 /\ Bounds playing0
  /\ Inv (exec (hurt sample_random sample_PI sample_dbl crate 12) playing0)
  /\ Inv (exec (update sample_random sample_pow sample_PI sample_dbl sample_env (1 # 60)) playing0).
Proof.
  destruct (health_corn_bounds sample_random sample_pow sample_PI sample_dbl)
    as (Hreach & Hb & Hhurt & _ & _ & _ & Hupd).
  assert (H : Inv playing0) by (apply Hreach, playing0_reachable).
  split; [exact H | split; [apply Hb, H | split; [apply Hhurt, H | apply Hupd, H]]].
Defined.

Lemma front_damage_witness :
  (0 <= St.heartIndex (state bump))%Z
  /\ (Z.to_nat (St.heartIndex (state bump)) < length (St.hearts (state bump)))%nat
  /\ at_index (St.hearts (state bump)) 0 == 100
  /\ at_index
       (St.hearts
          (state (exec (damage_pass sample_random sample_PI sample_dbl (hitbox_of bump)) bump))) 0
     == 88.
Proof.
  assert (H1 : (0 <= St.heartIndex (state bump))%Z)
    by (vm_compute; intros H; discriminate H).
  assert (H2 : (Z.to_nat (St.heartIndex (state bump))
                < length (St.hearts (state bump)))%nat) by (vm_compute; lia).
  split; [exact H1 | split; [exact H2 | split; [vm_compute; reflexivity |]]].
  destruct (front_damage sample_random sample_PI sample_dbl bump H1 H2)
    as [[Hsame _] | (o & _ & _ & _ & _ & _ & _ & _ & _ & Hdrop & _)].
  - apply (f_equal (fun g => Player.invuln (player g))) in Hsame.
    vm_compute in Hsame. discriminate Hsame.
  - change (St.heartIndex (state bump)) with 0%Z in Hdrop.
    rewrite Hdrop; vm_compute; [reflexivity | intros H; discriminate H].
Defined.

(** C5 as stated fails: with 4 health left, a front-on hit takes the
    health of the heart to 0, a drop of 4 and not of the damage amount 12. *)
Lemma damage_clamped_counterexample :
  let g' := exec (damage_pass sample_random sample_PI sample_dbl (hitbox_of weak_bump)) weak_bump in
  St.mode (state weak_bump) = Playing
  /\ Player.invuln (player weak_bump) == 0
  /\ hits_obstacle (hitbox_of weak_bump) crate = true
  /\ fromFront (player weak_bump) crate = true
  /\ St.heartIndex (state weak_bump) = 0%Z
  /\ at_index (St.hearts (state weak_bump)) 0 == 4
  /\ 0 < Player.invuln (player g')
  /\ at_index (St.hearts (state g')) 0 == 0
  /\ ~ at_index (St.hearts (state g')) 0 == at_index (St.hearts (state weak_bump)) 0 - 12.
Proof.
  vm_compute. repeat split; try reflexivity; intros H; discriminate H.
Qed.

Lemma collect_effect_witness :
  let g' := snd (collect sample_random sample_PI sample_dbl (hitbox_of corn_ahead)
                   corn1 corn_ahead) in
  Pickup.taken corn1 = false
  /\ hits_circle (hitbox_of corn_ahead) (Pickup.x corn1) (Pickup.y corn1) (Pickup.r corn1)
     = true
  /\ Pickup.value corn1 <> 0%Z
  /\ St.corn (state g') = 1%Z
  /\ St.score (state g') == 60
  /\ exists new,
       particles g' = particles corn_ahead ++ new
       /\ Forall (feather_at (Pickup.x corn1) (Pickup.y corn1)) new
       /\ length new = 9%nat
       /\ (7 <= length new <= 12)%nat
       /\ rng g' = (rng corn_ahead + 46)%nat.
Proof.
  cbv zeta.
  assert (H1 : Pickup.taken corn1 = false) by reflexivity.
  assert (H2 : hits_circle (hitbox_of corn_ahead) (Pickup.x corn1) (Pickup.y corn1)
                 (Pickup.r corn1) = true) by (vm_compute; reflexivity).
  assert (H3 : Pickup.value corn1 <> 0%Z) by (intros H; discriminate H).
  destruct (collect_effect sample_random sample_PI sample_dbl (hitbox_of corn_ahead)
              corn1 corn_ahead H1 H2 H3)
    as (_ & Hcorn & Hscore & _ & new & Hnew & HF & Hlen & Hrng & Hcount).
  split; [exact H1 | split; [exact H2 | split; [exact H3 |]]].
  split; [rewrite Hcorn; vm_compute; reflexivity |].
  split; [rewrite Hscore; vm_compute; reflexivity |].
  assert (H9 : length new = 9%nat) by (rewrite Hlen; vm_compute; reflexivity).
  exists new. split; [exact Hnew |]. split; [exact HF |]. split; [exact H9 |].
  split.
  - apply Hcount; [exact sample_dbl_monotone | apply sample_dbl_doubles |].
    vm_compute. split; [intros H; discriminate H | reflexivity].
  - rewrite Hrng, H9. reflexivity.
Defined.

(** C7 as stated fails: collecting a pickup also changes the particle
    pool and the position in the sequence of random numbers. *)
Lemma collect_particles_counterexample :
  let g' := snd (collect sample_random sample_PI sample_dbl (hitbox_of corn_ahead) corn1 corn_ahead) in
  Pickup.taken corn1 = false
  /\ hits_circle (hitbox_of corn_ahead) (Pickup.x corn1) (Pickup.y corn1) (Pickup.r corn1)
     = true
  /\ particles corn_ahead = []
  /\ length (particles g') = 9%nat
  /\ rng g' <> rng corn_ahead
  /\ g' <> set_state
             (St.set_score (St.score (state corn_ahead) + 60)
                (St.set_corn (St.corn (state corn_ahead) + 1)%Z (state corn_ahead)))
             corn_ahead.
Proof.
  cbv zeta. split; [reflexivity |]. split; [vm_compute; reflexivity |].
  split; [reflexivity |]. split; [vm_compute; reflexivity |].
  split.
  - vm_compute. intros H. discriminate H.
  - intros H. apply (f_equal (fun g => length (particles g))) in H.
    vm_compute in H. discriminate H.
Qed.


(** C10 as stated fails: [normalizeName] is not total.  For an object that
    cannot be converted to a string, such as [Object.create(null)],
    [String(v)] throws a [TypeError], and so does [normalizeName(v)]. *)
Definition bare_object : JsValue := Other None.

Lemma normalizeName_throws_counterexample :
  String_of_value bare_object = None
  /\ normalizeName_of_value bare_object = None
  /\ ~ (exists r, normalizeName_of_value bare_object = Some r
                   /\ (1 <= length r <= 14)%nat).
Proof.
  split; [reflexivity |]. split; [reflexivity |].
  intros (r & H & _). discriminate H.
Qed.

(** ** Further sample states *)

Definition frame50 (g : Game) : Game :=
  exec (handle sample_random sample_pow sample_PI sample_dbl sample_env (Frame 50)) g.

(** Seven frames of 50 ms into the run: the obstacle spawner has started
    its first run and placed the first of two chunks. *)
Definition run_under_way : Game :=
  frame50 (frame50 (frame50 (frame50 (frame50 (frame50 (frame50 playing0)))))).

(** The chunk placed last in [run_under_way]. *)
Definition first_chunk : Obstacle.obstacle :=
  default crate (last (obstacles run_under_way)).

Lemma run_under_way_reachable :
  reachable sample_random sample_pow sample_PI sample_dbl run_under_way.
Proof.
  unfold run_under_way, frame50.
  do 7 apply reachable_handle. apply reachable_handle, reachable_initial.
Qed.

Lemma randi_range_witness :
  exists k : Z,
    randi sample_random sample_dbl (inject_Z 7) (inject_Z 11) playing0
    = (inject_Z k, set_rng (S (rng playing0)) playing0)
    /\ (7 <= k <= 12)%Z.
Proof.
  destruct (randi_range sample_random sample_dbl 7 11 playing0)
    as (k & Hk & Hr & _).
  - exact sample_dbl_monotone.
  - apply sample_dbl_doubles.
  - lia.
  - vm_compute. split; [intros H; discriminate H | reflexivity].
  - exists k. split; [exact Hk | lia].
Defined.


Lemma update_outside_run_witness :
  St.mode (state title_screen) <> Playing
  /\ exists hs',
       exec (update sample_random sample_pow sample_PI sample_dbl sample_env 0.05) title_screen
       = set_state
           (St.set_heartsSmooth hs'
              (St.set_hintBlink (St.hintBlink (state title_screen) + 0.05)
                 (St.set_t (St.t (state title_screen) + 0.05)
                    (St.set_dt 0.05 (state title_screen)))))
           (set_world
              (World.set_rightBound (floorQ (canvas_width sample_env * 0.62))
                 (World.set_leftBound (floorQ (canvas_width sample_env * 0.08))
                    (World.set_floorY (floorQ (canvas_height sample_env * 0.78))
                       (world title_screen))))
              title_screen)
       /\ length hs' = length (St.heartsSmooth (state title_screen)).
Proof.
  assert (H : St.mode (state title_screen) <> Playing)
    by (vm_compute; intros H; discriminate H).
  split; [exact H |].
  apply (update_outside_run sample_random sample_pow sample_PI sample_dbl sample_env 0.05
           title_screen H).
Defined.

Lemma featherBurst_count_witness :
  exists new,
    particles (exec (featherBurst sample_random sample_PI sample_dbl 219 449) playing0)
    = particles playing0 ++ new
    /\ (7 <= length new <= 12)%nat.
Proof.
  destruct (featherBurst_count sample_random sample_PI sample_dbl 219 449 playing0)
    as (new & Hnew & Hlen & _).
  - exact sample_dbl_monotone.
  - apply sample_dbl_doubles.
  - vm_compute. split; [intros H; discriminate H | reflexivity].
  - exists new. split; assumption.
Defined.

Lemma time_scale_follows_mode_witness :
  St.timeScale (state run_under_way) = scale_of (St.timeMode (state run_under_way)).
Proof.
  apply (time_scale_follows_mode sample_random sample_pow sample_PI sample_dbl run_under_way
           run_under_way_reachable).
Defined.

Lemma pace_bounds_witness :
  0 <= St.difficulty (state run_under_way) <= 1
  /\ 360 <= St.speed (state run_under_way) <= 620.
Proof.
  destruct (pace_bounds sample_random sample_pow sample_PI sample_dbl run_under_way
              run_under_way_reachable) as (Hd & _ & Hs).
  split; assumption.
Defined.

Lemma sideways_speed_bounded_witness :
  -360 <= Player.vx (player run_under_way) <= 360.
Proof.
  apply (sideways_speed_bounded sample_random sample_pow sample_PI sample_dbl run_under_way
           run_under_way_reachable).
Defined.

Lemma fuel_gauge_bounds_witness :
  0 <= St.flyFuel (state run_under_way) <= St.flyFuelMax (state run_under_way).
Proof.
  apply (fuel_gauge_bounds sample_random sample_pow sample_PI sample_dbl run_under_way
           run_under_way_reachable).
Defined.

Lemma timers_bounded_witness :
  0 <= Player.invuln (player run_under_way) <= 1.2.
Proof.
  apply (timers_bounded sample_random sample_pow sample_PI sample_dbl run_under_way
           run_under_way_reachable).
Defined.

Lemma progress_kept_witness :
  0 <= St.score (state run_under_way)
  /\ St.score (state run_under_way) <= St.score (state (frame50 run_under_way)).
Proof.
  destruct (progress_kept sample_random sample_pow sample_PI sample_dbl run_under_way
              run_under_way_reachable) as (H0 & Hs & _).
  split; [exact H0 | apply Hs].
Defined.

Lemma landing_gap_448_witness :
  0 < Spawner.runChunksLeft (spawner run_under_way)
  /\ last (obstacles run_under_way) = Some first_chunk
  /\ exists o1,
       obstacles (exec (spawner_pass sample_random sample_PI sample_dbl 800) run_under_way)
         !! length (obstacles run_under_way) = Some o1
       /\ Obstacle.x first_chunk + Obstacle.w first_chunk + 448 <= Obstacle.x o1.
Proof.
  assert (H1 : 0 < Spawner.runChunksLeft (spawner run_under_way))
    by (vm_compute; reflexivity).
  assert (H2 : last (obstacles run_under_way) = Some first_chunk)
    by (vm_compute; reflexivity).
  split; [exact H1 | split; [exact H2 |]].
  apply (landing_gap_448 sample_random sample_pow sample_PI sample_dbl 800 run_under_way
           first_chunk run_under_way_reachable H1 H2).
Defined.

Lemma hearts_layout_witness :
  Hearts run_under_way
  /\ 0 < at_index (St.hearts (state run_under_way))
           (St.heartIndex (state run_under_way)).
Proof.
  destruct (hearts_layout sample_random sample_pow sample_PI sample_dbl run_under_way
              run_under_way_reachable) as (Hh & Hpos & _).
  split; [exact Hh |]. apply Hpos. vm_compute. intros H. discriminate H.
Defined.

(** ** Rounding to the nearest double

    The rounding of binary64 for numbers in the range of the normal
    doubles: 53 binary digits, and of two doubles equally near the one
    with an even last digit. *)

(** The nearest integer, of two equally near the even one. *)
Definition round_half_even (q : Q) : Z :=
  let f := Qfloor q in
  let r := q - inject_Z f in
  if r <? (1 # 2) then f
  else if (1 # 2) <? r then (f + 1)%Z
  else if Z.even f then f else (f + 1)%Z.

Definition pow2 (e : Z) : Q :=
  if Z.leb 0 e then inject_Z (2 ^ e) else / inject_Z (2 ^ (- e)).

(** The [e] with [2^e <= |q| < 2^(e + 1)], for [q] other than 0. *)
Definition binade (q : Q) : Z :=
  let e := (Z.log2 (Z.abs (Qnum q)) - Z.log2 (Zpos (Qden q)))%Z in
  if pow2 e <=? Qabs q then e else (e - 1)%Z.

Definition binary64 (q : Q) : Q :=
  if Qeq_bool q 0 then 0
  else
    let ulp := pow2 (binade q - 52) in
    inject_Z (round_half_even (q / ulp)) * ulp.

(** The largest number below 1 that [Math.random()] gives when it draws
    52 bits. *)
Definition almost_one : Q := 1 - pow2 (-52).

(** With that number [randi(7, 11)] is 12 in doubles, and 11 without the
    rounding: the product [almost_one * 5] is rounded to [5 - 2^-50], and
    the sum [12 - 2^-50] lies halfway between two doubles, of which 12 is
    the even one.  A burst then has 12 feathers. *)
Lemma randi_upper_end (g : Game) :
  0 <= almost_one < 1
  /\ binary64 (almost_one * 5) == 5 - pow2 (-50)
  /\ binary64 (7 + (5 - pow2 (-50))) == 12
  /\ fst (randi (fun _ => almost_one) binary64 7 11 g) = 12
  /\ fst (randi (fun _ => almost_one) sample_dbl 7 11 g) = 11
  /\ length (particles (exec (featherBurst (fun _ => almost_one) sample_PI binary64
                                219 449) playing0))
     = (length (particles playing0) + 12)%nat.
Proof.
  split; [vm_compute; split; [intros H; discriminate H | reflexivity] |].
  split; [vm_compute; reflexivity |]. split; [vm_compute; reflexivity |].
  rewrite !randi_run. cbn [fst].
  split; [vm_compute; reflexivity |]. split; [vm_compute; reflexivity |].
  vm_compute. reflexivity.
Qed.
